(** * Plakar: repository state, snapshot session and VFS file entries

    A shallow embedding of
    - [repository/state/state.go]  (module [State]),
    - the snapshot session         (module [Snapshot]),
    - the VFS file entry           (module [Vfs]),
    together with the properties the specification states about them.

    Conventions.
    - A Go [[32]byte] checksum is the 256-bit number its bytes spell in
      little-endian order; the zero value [[32]byte{}] is [0].
    - Unsigned Go integers are [N]; [int32] is [Z].
    - A Go map is a [gmap]; reading a missing key yields the zero value
      ([lookup0]).  [range] over a map visits its entries in an order the
      language leaves open: a loop over a map takes the visiting order as
      an explicit list, constrained by [iteration_order].
    - A Go slice that may be [nil] is an [option (list _)].
    - Mutexes only serialise accesses; every function below is the
      sequential effect of one call on the receiver, passed explicitly. *)

From Stdlib Require Import ZArith NArith List Strings.Byte Strings.String Structures.OrdersEx.
From stdpp Require Import gmap list fin_maps sorting strings.

Set Default Proof Using "Type".
Open Scope N_scope.

(** ** Go map reads *)

(** [m[k]] in an expression: the zero value when [k] is absent. *)
Definition lookup0 `{Countable K} {V} (zero : V) (m : gmap K V) (k : K) : V :=
  default zero (m !! k).

(** A list is a possible visiting order of [range m]. *)
Definition iteration_order `{Countable K} {V} (m : gmap K V) (l : list (K * V)) : Prop :=
  l ≡ₚ map_to_list m.

(** ** Bytes and [encoding/binary] *)

(** [byte(v)]: the low eight bits. *)
Definition byte_of_N (n : N) : byte :=
  match Byte.of_N (n mod 256) with Some b => b | None => x00 end.

(** [binary.LittleEndian.PutUint32] *)
Definition PutUint32 (v : N) : list byte :=
  [byte_of_N v; byte_of_N (N.shiftr v 8); byte_of_N (N.shiftr v 16);
   byte_of_N (N.shiftr v 24)].

(** [binary.LittleEndian.Uint32], on a slice of at least four bytes. *)
Definition Uint32 (b : list byte) : N :=
  match b with
  | b0 :: b1 :: b2 :: b3 :: _ =>
      N.lor (N.lor (N.lor (Byte.to_N b0) (N.shiftl (Byte.to_N b1) 8))
                   (N.shiftl (Byte.to_N b2) 16))
            (N.shiftl (Byte.to_N b3) 24)
  | _ => 0
  end.

Module State.

(** [[32]byte] *)
Abbreviation MAC := N.

Definition VERSION : N := 100.

Record Metadata := mkMetadata {
  Version : N;            (* uint32 *)
  CreationTime : Z;       (* time.Time, as an instant *)
  Extends : list MAC;
}.

Record Location := mkLocation {
  Packfile : N;           (* uint64 *)
  Offset : N;             (* uint32 *)
  Length : N;             (* uint32 *)
}.

Record State := mkState {
  checksumToId : gmap MAC N;
  IdToChecksum : gmap N MAC;
  Chunks : gmap N Location;
  Objects : gmap N Location;
  Files : gmap N Location;
  Directories : gmap N Location;
  Blobs : gmap N Location;
  Metadata_ : Metadata;
  dirty : Z;              (* int32, accessed atomically *)
}.

#[global] Instance Location_eq_dec : EqDecision Location.
Proof. solve_decision. Defined.

(** Field updates. *)
Definition set_checksumToId (f : gmap MAC N) (st : State) : State :=
  mkState f (IdToChecksum st) (Chunks st) (Objects st) (Files st)
          (Directories st) (Blobs st) (Metadata_ st) (dirty st).
Definition set_IdToChecksum (f : gmap N MAC) (st : State) : State :=
  mkState (checksumToId st) f (Chunks st) (Objects st) (Files st)
          (Directories st) (Blobs st) (Metadata_ st) (dirty st).
Definition set_Chunks (f : gmap N Location) (st : State) : State :=
  mkState (checksumToId st) (IdToChecksum st) f (Objects st) (Files st)
          (Directories st) (Blobs st) (Metadata_ st) (dirty st).
Definition set_Objects (f : gmap N Location) (st : State) : State :=
  mkState (checksumToId st) (IdToChecksum st) (Chunks st) f (Files st)
          (Directories st) (Blobs st) (Metadata_ st) (dirty st).
Definition set_Metadata (md : Metadata) (st : State) : State :=
  mkState (checksumToId st) (IdToChecksum st) (Chunks st) (Objects st) (Files st)
          (Directories st) (Blobs st) md (dirty st).
Definition set_dirty (d : Z) (st : State) : State :=
  mkState (checksumToId st) (IdToChecksum st) (Chunks st) (Objects st) (Files st)
          (Directories st) (Blobs st) (Metadata_ st) d.

(** [New]; the creation instant is what [time.Now()] returned. *)
Definition New (now : Z) : State :=
  mkState ∅ ∅ ∅ ∅ ∅ ∅ ∅ (mkMetadata VERSION now []) 0%Z.

(** [rebuildChecksums]: the map is emptied, then every [(id, checksum)] of
    [IdToChecksum] is stored reversed, in the visiting order [order]. *)
Definition rebuildChecksums (order : list (N * MAC)) (st : State) : State :=
  set_checksumToId
    (foldl (λ acc '(id, checksum), <[checksum := id]> acc) ∅ order) st.

(** [getOrCreateIdForChecksum].  [len] of a map is a non-negative [int], so
    its conversion to [uint64] is exact. *)
Definition getOrCreateIdForChecksum (st : State) (checksum : MAC) : State * N :=
  match checksumToId st !! checksum with
  | Some id => (st, id)
  | None =>
      let newID := N.of_nat (size (IdToChecksum st)) in
      (set_IdToChecksum (<[newID := checksum]> (IdToChecksum st))
         (set_checksumToId (<[checksum := newID]> (checksumToId st)) st),
       newID)
  end.

(** [Extends] *)
Definition Extends_ (st : State) (stateID : MAC) : State :=
  set_Metadata
    (mkMetadata (Version (Metadata_ st)) (CreationTime (Metadata_ st))
                (Extends (Metadata_ st) ++ [stateID])) st.

(** [Dirty] / [ResetDirty] *)
Definition Dirty (st : State) : bool := negb (dirty st =? 0)%Z.
Definition ResetDirty (st : State) : State := set_dirty 0%Z st.

(** *** SetPackfileFor<Kind> *)

Definition SetPackfileForChunk (st : State) (packfileChecksum chunkChecksum : MAC)
    (packfileOffset chunkLength : N) : State :=
  let '(st, packfileID) := getOrCreateIdForChecksum st packfileChecksum in
  let '(st, chunkID) := getOrCreateIdForChecksum st chunkChecksum in
  match Chunks st !! chunkID with
  | None =>
      set_dirty 1%Z
        (set_Chunks (<[chunkID := mkLocation packfileID packfileOffset chunkLength]>
                       (Chunks st)) st)
  | Some _ => st
  end.

Definition SetPackfileForObject (st : State) (packfileChecksum objectChecksum : MAC)
    (packfileOffset chunkLength : N) : State :=
  let '(st, packfileID) := getOrCreateIdForChecksum st packfileChecksum in
  let '(st, objectID) := getOrCreateIdForChecksum st objectChecksum in
  match Objects st !! objectID with
  | None =>
      set_dirty 1%Z
        (set_Objects (<[objectID := mkLocation packfileID packfileOffset chunkLength]>
                        (Objects st)) st)
  | Some _ => st
  end.

(** Tests [st.Files], stores into [st.Objects]. *)
Definition SetPackfileForFile (st : State) (packfileChecksum fileChecksum : MAC)
    (packfileOffset chunkLength : N) : State :=
  let '(st, packfileID) := getOrCreateIdForChecksum st packfileChecksum in
  let '(st, fileID) := getOrCreateIdForChecksum st fileChecksum in
  match Files st !! fileID with
  | None =>
      set_dirty 1%Z
        (set_Objects (<[fileID := mkLocation packfileID packfileOffset chunkLength]>
                        (Objects st)) st)
  | Some _ => st
  end.

(** Tests [st.Directories], stores into [st.Objects]. *)
Definition SetPackfileForDirectory (st : State) (packfileChecksum directoryChecksum : MAC)
    (packfileOffset chunkLength : N) : State :=
  let '(st, packfileID) := getOrCreateIdForChecksum st packfileChecksum in
  let '(st, directoryID) := getOrCreateIdForChecksum st directoryChecksum in
  match Directories st !! directoryID with
  | None =>
      set_dirty 1%Z
        (set_Objects (<[directoryID := mkLocation packfileID packfileOffset chunkLength]>
                        (Objects st)) st)
  | Some _ => st
  end.

(** Tests [st.Blobs], stores into [st.Objects]. *)
Definition SetPackfileForBlob (st : State) (packfileChecksum blobChecksum : MAC)
    (packfileOffset chunkLength : N) : State :=
  let '(st, packfileID) := getOrCreateIdForChecksum st packfileChecksum in
  let '(st, blobID) := getOrCreateIdForChecksum st blobChecksum in
  match Blobs st !! blobID with
  | None =>
      set_dirty 1%Z
        (set_Objects (<[blobID := mkLocation packfileID packfileOffset chunkLength]>
                        (Objects st)) st)
  | Some _ => st
  end.

(** *** GetSubpartFor<Kind>

    Each returns the receiver (the lookup interns its argument) and the
    four results [(packfile, offset, length, exists)]. *)

Definition subpartResult (st : State) (entry : option Location) : MAC * N * N * bool :=
  match entry with
  | None => (0, 0, 0, false)
  | Some subpart =>
      (lookup0 0 (IdToChecksum st) (Packfile subpart), Offset subpart, Length subpart, true)
  end.

Definition GetSubpartForChunk (st : State) (chunkChecksum : MAC) : State * (MAC * N * N * bool) :=
  let '(st, chunkID) := getOrCreateIdForChecksum st chunkChecksum in
  (st, subpartResult st (Chunks st !! chunkID)).

Definition GetSubpartForObject (st : State) (objectChecksum : MAC) : State * (MAC * N * N * bool) :=
  let '(st, objectID) := getOrCreateIdForChecksum st objectChecksum in
  (st, subpartResult st (Objects st !! objectID)).

Definition GetSubpartForFile (st : State) (checksum : MAC) : State * (MAC * N * N * bool) :=
  let '(st, fileID) := getOrCreateIdForChecksum st checksum in
  (st, subpartResult st (Files st !! fileID)).

Definition GetSubpartForDirectory (st : State) (checksum : MAC) : State * (MAC * N * N * bool) :=
  let '(st, directoryID) := getOrCreateIdForChecksum st checksum in
  (st, subpartResult st (Directories st !! directoryID)).

Definition GetSubpartForBlob (st : State) (checksum : MAC) : State * (MAC * N * N * bool) :=
  let '(st, blobID) := getOrCreateIdForChecksum st checksum in
  (st, subpartResult st (Blobs st !! blobID)).

(** *** <Kind>Exists *)

Definition existsResult (entry : option Location) : bool :=
  match entry with None => false | Some _ => true end.

Definition ChunkExists (st : State) (chunkChecksum : MAC) : State * bool :=
  let '(st, chunkID) := getOrCreateIdForChecksum st chunkChecksum in
  (st, existsResult (Chunks st !! chunkID)).

Definition ObjectExists (st : State) (objectChecksum : MAC) : State * bool :=
  let '(st, objectID) := getOrCreateIdForChecksum st objectChecksum in
  (st, existsResult (Objects st !! objectID)).

Definition FileExists (st : State) (checksum : MAC) : State * bool :=
  let '(st, checksumID) := getOrCreateIdForChecksum st checksum in
  (st, existsResult (Files st !! checksumID)).

Definition DirectoryExists (st : State) (checksum : MAC) : State * bool :=
  let '(st, checksumID) := getOrCreateIdForChecksum st checksum in
  (st, existsResult (Directories st !! checksumID)).

(** Reads [st.Directories]. *)
Definition BlobExists (st : State) (checksum : MAC) : State * bool :=
  let '(st, checksumID) := getOrCreateIdForChecksum st checksum in
  (st, existsResult (Directories st !! checksumID)).

(** *** The five kinds *)

Inductive Kind := KChunk | KObject | KFile | KDirectory | KBlob.

#[global] Instance Kind_eq_dec : EqDecision Kind.
Proof. solve_decision. Defined.

(** The map that belongs to a kind. *)
Definition kind_map (k : Kind) (st : State) : gmap N Location :=
  match k with
  | KChunk => Chunks st
  | KObject => Objects st
  | KFile => Files st
  | KDirectory => Directories st
  | KBlob => Blobs st
  end.

Definition set_location (k : Kind) : State → MAC → MAC → N → N → State :=
  match k with
  | KChunk => SetPackfileForChunk
  | KObject => SetPackfileForObject
  | KFile => SetPackfileForFile
  | KDirectory => SetPackfileForDirectory
  | KBlob => SetPackfileForBlob
  end.

Definition location (k : Kind) : State → MAC → State * (MAC * N * N * bool) :=
  match k with
  | KChunk => GetSubpartForChunk
  | KObject => GetSubpartForObject
  | KFile => GetSubpartForFile
  | KDirectory => GetSubpartForDirectory
  | KBlob => GetSubpartForBlob
  end.

Definition exists_ (k : Kind) : State → MAC → State * bool :=
  match k with
  | KChunk => ChunkExists
  | KObject => ObjectExists
  | KFile => FileExists
  | KDirectory => DirectoryExists
  | KBlob => BlobExists
  end.

(** *** Merge *)

(** The visiting orders of the five [range] loops of [Merge]. *)
Record MergeOrder := mkMergeOrder {
  oChunks : list (N * Location);
  oObjects : list (N * Location);
  oFiles : list (N * Location);
  oDirectories : list (N * Location);
  oBlobs : list (N * Location);
}.

Definition merge_order (deltaState : State) (o : MergeOrder) : Prop :=
  iteration_order (Chunks deltaState) (oChunks o) ∧
  iteration_order (Objects deltaState) (oObjects o) ∧
  iteration_order (Files deltaState) (oFiles o) ∧
  iteration_order (Directories deltaState) (oDirectories o) ∧
  iteration_order (Blobs deltaState) (oBlobs o).

(** The order in which [map_to_list] lists each map. *)
Definition canonical_order (deltaState : State) : MergeOrder :=
  mkMergeOrder (map_to_list (Chunks deltaState)) (map_to_list (Objects deltaState))
               (map_to_list (Files deltaState)) (map_to_list (Directories deltaState))
               (map_to_list (Blobs deltaState)).

(** One [range] loop of [Merge]: every entry of the delta is translated
    back to checksums through the delta's table and registered in [st]. *)
Definition mergeLoop (set : State → MAC → MAC → N → N → State)
    (deltaState : State) (order : list (N * Location)) (st : State) : State :=
  foldl (λ st '(deltaChecksumID, subpart),
           let packfileChecksum := lookup0 0 (IdToChecksum deltaState) (Packfile subpart) in
           let deltaChecksum := lookup0 0 (IdToChecksum deltaState) deltaChecksumID in
           set st packfileChecksum deltaChecksum (Offset subpart) (Length subpart))
        st order.

(** [Merge]; [stateID] is not used by the body.  The receiver and the delta
    are two objects. *)
Definition Merge (o : MergeOrder) (st : State) (stateID : MAC) (deltaState : State) : State :=
  let st := mergeLoop SetPackfileForChunk deltaState (oChunks o) st in
  let st := mergeLoop SetPackfileForObject deltaState (oObjects o) st in
  let st := mergeLoop SetPackfileForFile deltaState (oFiles o) st in
  let st := mergeLoop SetPackfileForDirectory deltaState (oDirectories o) st in
  mergeLoop SetPackfileForBlob deltaState (oBlobs o) st.

(** *** Serialize / NewFromBytes *)

Inductive error :=
  | InvalidStateData
  | InvalidStateVersion (version : N)
  | MsgpackError (e : string).

Inductive result (A : Type) :=
  | Ok (a : A)
  | Err (e : error).
Arguments Ok {A} a.
Arguments Err {A} e.

(** What a decoder that fills a zero [State] from an encoding of [st]
    holds: the exported fields of [st]; [checksumToId] and [dirty] are
    unexported and stay at their zero values. *)
Definition exported (st : State) : State :=
  mkState ∅ (IdToChecksum st) (Chunks st) (Objects st) (Files st)
          (Directories st) (Blobs st) (Metadata_ st) 0%Z.

Section Serialization.
(** [msgpack.Marshal(st)] and [msgpack.Unmarshal(data, &st)] on a zero
    [State], from the msgpack library. *)
Variable Marshal : State → result (list byte).
Variable Unmarshal : list byte → result State.

Definition Serialize (st : State) : result (list byte) :=
  match Marshal st with
  | Err e => Err e
  | Ok serialized =>
      let versionBytes := PutUint32 (Version (Metadata_ st)) in
      Ok (serialized ++ versionBytes)
  end.

(** [order] is the visiting order of the loop in [rebuildChecksums]. *)
Definition NewFromBytes (order : list (N * MAC)) (serialized : list byte) : result State :=
  if (length serialized <? 4)%nat then Err InvalidStateData
  else
    let versionBytes := drop (length serialized - 4) serialized in
    let serialized := take (length serialized - 4) serialized in
    let version := Uint32 versionBytes in
    if negb (version =? VERSION) then Err (InvalidStateVersion version)
    else
      match Unmarshal serialized with
      | Err e => Err e
      | Ok st => Ok (rebuildChecksums order st)
      end.
End Serialization.

End State.

(** ** The packfile package, as the snapshot session uses it *)

Module Packfile.

(** Modelled from the spec: the packfile package is not among the sources.
    The blob types are the tags of the constants [TYPE_SNAPSHOT] ..
    [TYPE_DATA]; an index entry records [(type, mac, offset, length)]; the
    footer carries the format version. *)
Inductive BlobType :=
  | TYPE_SNAPSHOT | TYPE_CHUNK | TYPE_OBJECT | TYPE_FILE | TYPE_DIRECTORY | TYPE_DATA.

Record Blob := mkBlob {
  Type_ : BlobType;
  Checksum : State.MAC;
  Offset : N;             (* uint32 *)
  Length : N;             (* uint32 *)
}.

Record PackFooter := mkPackFooter {
  Version : N;            (* uint32 *)
}.

Record PackFile := mkPackFile {
  Index : list Blob;
  Footer : PackFooter;
}.

End Packfile.

(** ** The snapshot session *)

Module Snapshot.

(** How a call ends: it returns (an [error] result is [None] for [nil])
    or it panics. *)
Inductive outcome (E : Type) :=
  | Returned (err : option E)
  | Panicked (msg : string).
Arguments Returned {E} err.
Arguments Panicked {E} msg.

Record PackerMsg := mkPackerMsg {
  Timestamp : Z;
  Type_ : Packfile.BlobType;
  Checksum : State.MAC;
  Data : list byte;
}.

(** The packer channel: the messages sent and not yet received, and
    whether [close] was called on it.  The packers receive while the
    session sends, so a send on an open channel completes; how long it waits
    for room in the buffer is not modelled. *)
Record Chan := mkChan {
  queue : list PackerMsg;
  closed : bool;
}.

(** The counters of [statistics.Statistics] that the session updates. *)
Inductive Counter :=
  | ChunksTransferCount | ChunksTransferSize
  | DataTransferCount | DataTransferSize
  | ObjectsTransferCount | ObjectsTransferSize
  | VFSFilesTransferCount | VFSFilesTransferSize
  | VFSDirectoriesTransferCount | VFSDirectoriesTransferSize
  | PackfilesCount | PackfilesSize
  | PackfilesTransferCount | PackfilesTransferSize.

#[global] Instance Counter_eq_dec : EqDecision Counter.
Proof. solve_decision. Defined.

(** [atomic.AddUint64] *)
Definition AddUint64 (c : Counter) (delta : N) (stats : Counter → N) : Counter → N :=
  λ c', if decide (c' = c) then (stats c' + delta) mod 2 ^ 64 else stats c'.

(** What a session reaches besides its channel: the state of the
    repository, its own delta, its statistics, and the packfiles handed to
    the repository so far (latest first), each with its key. *)
Record World := mkWorld {
  repositoryState : State.State;
  stateDelta : State.State;
  statistics : Counter → N;
  written : list (list byte * list byte);
  writtenStates : list (list byte * list byte);
}.

(** The header of the snapshot, as far as the session reads it. *)
Record Header := mkHeader {
  IndexID : State.MAC;
}.

Record Snapshot := mkSnapshot {
  world : World;
  Header_ : Header;
  packerChan : Chan;
}.

Definition set_statistics (f : Counter → N) (w : World) : World :=
  mkWorld (repositoryState w) (stateDelta w) f (written w) (writtenStates w).
Definition set_written (l : list (list byte * list byte)) (w : World) : World :=
  mkWorld (repositoryState w) (stateDelta w) (statistics w) l (writtenStates w).
Definition set_writtenStates (l : list (list byte * list byte)) (w : World) : World :=
  mkWorld (repositoryState w) (stateDelta w) (statistics w) (written w) l.
Definition set_states (repo delta : State.State) (w : World) : World :=
  mkWorld repo delta (statistics w) (written w) (writtenStates w).

(** [ch <- msg]: a send on a closed channel panics. *)
Definition send {E} (ch : Chan) (msg : PackerMsg) : Chan * outcome E :=
  if closed ch then (ch, Panicked "send on closed channel")
  else (mkChan (queue ch ++ [msg]) false, Returned None).

(** [close(ch)]: [None] is the panic of closing a closed channel. *)
Definition close (ch : Chan) : option Chan :=
  if closed ch then None else Some (mkChan (queue ch) true).

(** [copy(checksum32[:], checksum[:])] into a zeroed [[32]byte]. *)
Definition copy32 (checksum : list byte) : list byte :=
  take 32 checksum ++ replicate (32 - length checksum) x00.

(** The number a byte array spells, little-endian. *)
Fixpoint MAC_of_bytes (b : list byte) : State.MAC :=
  match b with
  | [] => 0
  | b0 :: rest => Byte.to_N b0 + 256 * MAC_of_bytes rest
  end.

(** The inner loop of the registration loops of [PutPackfile]: the first
    index entry with the checksum. *)
Definition indexEntry (index : list Packfile.Blob) (checksum : State.MAC) : option Packfile.Blob :=
  List.find (λ chunk, bool_decide (Packfile.Checksum chunk = checksum)) index.

Inductive PutOp := OpHeader | OpChunk | OpData | OpObject | OpFile | OpDirectory.

(** What the session calls outside this file, for the Go [error] values
    [error]: [repository.Encode], [repository.Checksum], the outcome of
    [repository.PutPackfile] and of [repository.PutState] given what was
    written before, the three serializers of a packfile, the
    [SetPackfileForData] and [SetPackfileForSnapshot] of the state,
    [err.Error()], [snapshot.Header.Serialize], [msgpack.Marshal] of the
    state delta and its errors as Go errors, and the packer goroutines:
    their effect, once the channel is closed, on what the session reaches,
    or the message they panic with. *)
Record Env (error : Type) := mkEnv {
  repository_Encode : list byte → error + list byte;
  repository_Checksum : list byte → list byte;
  repository_PutPackfile :
    list (list byte * list byte) → list byte → list byte → option error;
  repository_PutState :
    list (list byte * list byte) → list byte → list byte → option error;
  pack_SerializeData : Packfile.PackFile → error + list byte;
  pack_SerializeIndex : Packfile.PackFile → error + list byte;
  pack_SerializeFooter : Packfile.PackFile → error + list byte;
  state_SetPackfileForData : State.State → State.MAC → State.MAC → N → N → State.State;
  state_SetPackfileForSnapshot : State.State → State.MAC → State.MAC → N → N → State.State;
  err_Error : error → string;
  Header_Serialize : Header → error + list byte;
  msgpack_Marshal : State.State → State.result (list byte);
  state_error : State.error → error;
  packers : list PackerMsg → World → World * option string;
}.
Arguments mkEnv {error}.
Arguments repository_Encode {error} e data.
Arguments repository_Checksum {error} e data.
Arguments repository_PutPackfile {error} e before key data.
Arguments repository_PutState {error} e before key data.
Arguments pack_SerializeData {error} e pack.
Arguments pack_SerializeIndex {error} e pack.
Arguments pack_SerializeFooter {error} e pack.
Arguments state_SetPackfileForData {error} e st packfile checksum offset length.
Arguments state_SetPackfileForSnapshot {error} e st packfile checksum offset length.
Arguments err_Error {error} e err.
Arguments Header_Serialize {error} e header.
Arguments msgpack_Marshal {error} e st.
Arguments state_error {error} e err.
Arguments packers {error} e queue w.

Section Session.
Context {error : Type} (env : Env error).

(** The body shared by the [Put<Kind>] operations once the data is
    encoded: count, then send. *)
Definition enqueue (snap : Snapshot) (count : option (Counter * Counter * N))
    (msg : PackerMsg) : Snapshot * outcome error :=
  let w :=
    match count with
    | Some (transferCount, transferSize, size) =>
        set_statistics
          (AddUint64 transferSize size (AddUint64 transferCount 1 (statistics (world snap))))
          (world snap)
    | None => world snap
    end in
  let '(ch, out) := send (packerChan snap) msg in
  (mkSnapshot w (Header_ snap) ch, out).

Definition PutHeader (snap : Snapshot) (now : Z) (checksum : State.MAC) (data : list byte)
    : Snapshot * outcome error :=
  match repository_Encode env data with
  | inl err => (snap, Returned (Some err))
  | inr encoded =>
      enqueue snap None (mkPackerMsg now Packfile.TYPE_SNAPSHOT checksum encoded)
  end.

Definition PutChunk (snap : Snapshot) (now : Z) (checksum : State.MAC) (data : list byte)
    : Snapshot * outcome error :=
  match repository_Encode env data with
  | inl err => (snap, Returned (Some err))
  | inr encoded =>
      enqueue snap
        (Some (ChunksTransferCount, ChunksTransferSize, N.of_nat (length data)))
        (mkPackerMsg now Packfile.TYPE_CHUNK checksum encoded)
  end.

Definition PutData (snap : Snapshot) (now : Z) (checksum : State.MAC) (data : list byte)
    : Snapshot * outcome error :=
  match repository_Encode env data with
  | inl err => (snap, Returned (Some err))
  | inr encoded =>
      enqueue snap
        (Some (DataTransferCount, DataTransferSize, N.of_nat (length encoded)))
        (mkPackerMsg now Packfile.TYPE_DATA checksum encoded)
  end.

Definition PutObject (snap : Snapshot) (now : Z) (checksum : State.MAC) (data : list byte)
    : Snapshot * outcome error :=
  match repository_Encode env data with
  | inl err => (snap, Returned (Some err))
  | inr encoded =>
      enqueue snap
        (Some (ObjectsTransferCount, ObjectsTransferSize, N.of_nat (length encoded)))
        (mkPackerMsg now Packfile.TYPE_OBJECT checksum encoded)
  end.

Definition PutFile (snap : Snapshot) (now : Z) (checksum : State.MAC) (data : list byte)
    : Snapshot * outcome error :=
  match repository_Encode env data with
  | inl err => (snap, Returned (Some err))
  | inr encoded =>
      enqueue snap
        (Some (VFSFilesTransferCount, VFSFilesTransferSize, N.of_nat (length encoded)))
        (mkPackerMsg now Packfile.TYPE_FILE checksum encoded)
  end.

Definition PutDirectory (snap : Snapshot) (now : Z) (checksum : State.MAC) (data : list byte)
    : Snapshot * outcome error :=
  match repository_Encode env data with
  | inl err => (snap, Returned (Some err))
  | inr encoded =>
      enqueue snap
        (Some (VFSDirectoriesTransferCount, VFSDirectoriesTransferSize,
               N.of_nat (length encoded)))
        (mkPackerMsg now Packfile.TYPE_DIRECTORY checksum encoded)
  end.

(** The six [Put<Kind>] operations, by name. *)
Definition put (op : PutOp) : Snapshot → Z → State.MAC → list byte → Snapshot * outcome error :=
  match op with
  | OpHeader => PutHeader
  | OpChunk => PutChunk
  | OpData => PutData
  | OpObject => PutObject
  | OpFile => PutFile
  | OpDirectory => PutDirectory
  end.

(** One registration loop of [PutPackfile]: every checksum found in the
    index of the pack is registered in the state of the repository and in
    the delta of the session. *)
Definition register (set : State.State → State.MAC → State.MAC → N → N → State.State)
    (checksum32 : State.MAC) (pack : Packfile.PackFile) (checksums : list State.MAC)
    (w : World) : World :=
  foldl (λ w checksum,
           match indexEntry (Packfile.Index pack) checksum with
           | Some entry =>
               set_states
                 (set (repositoryState w) checksum32 checksum
                      (Packfile.Offset entry) (Packfile.Length entry))
                 (set (stateDelta w) checksum32 checksum
                      (Packfile.Offset entry) (Packfile.Length entry))
                 w
           | None => w
           end)
        w checksums.

(** The byte string [PutPackfile] assembles. *)
Definition serializedPackfile (serializedData encryptedIndex encryptedFooter : list byte)
    (version : N) : list byte :=
  let encryptedFooterLength := byte_of_N (N.of_nat (length encryptedFooter)) in
  let versionBytes := PutUint32 version in
  (((serializedData ++ encryptedIndex) ++ encryptedFooter) ++ versionBytes)
    ++ [encryptedFooterLength].

Definition PutPackfile (snap : Snapshot) (pack : Packfile.PackFile)
    (objects chunks files directories datas snapshots : list State.MAC)
    : Snapshot * outcome error :=
  match pack_SerializeData env pack with
  | inl err => (snap, Panicked ("could not serialize pack file data" +:+ err_Error env err))
  | inr serializedData =>
  match pack_SerializeIndex env pack with
  | inl err => (snap, Panicked ("could not serialize pack file index" +:+ err_Error env err))
  | inr serializedIndex =>
  match pack_SerializeFooter env pack with
  | inl err => (snap, Panicked ("could not serialize pack file footer" +:+ err_Error env err))
  | inr serializedFooter =>
  match repository_Encode env serializedIndex with
  | inl err => (snap, Returned (Some err))
  | inr encryptedIndex =>
  match repository_Encode env serializedFooter with
  | inl err => (snap, Returned (Some err))
  | inr encryptedFooter =>
      let serializedPackfile :=
        serializedPackfile serializedData encryptedIndex encryptedFooter
                           (Packfile.Version (Packfile.Footer pack)) in
      let checksum := repository_Checksum env serializedPackfile in
      let checksum32 := copy32 checksum in
      let size := N.of_nat (length serializedPackfile) in
      let w := world snap in
      let w := set_statistics
                 (AddUint64 PackfilesSize size (AddUint64 PackfilesCount 1 (statistics w))) w in
      match repository_PutPackfile env (written w) checksum32 serializedPackfile with
      | Some err =>
          (mkSnapshot w (Header_ snap) (packerChan snap), Panicked "could not write pack file")
      | None =>
          let w := set_written ((checksum32, serializedPackfile) :: written w) w in
          let w := set_statistics
                     (AddUint64 PackfilesTransferSize size
                        (AddUint64 PackfilesTransferCount 1 (statistics w))) w in
          let mac := MAC_of_bytes checksum32 in
          let w := register State.SetPackfileForChunk mac pack chunks w in
          let w := register State.SetPackfileForObject mac pack objects w in
          let w := register State.SetPackfileForFile mac pack files w in
          let w := register State.SetPackfileForDirectory mac pack directories w in
          let w := register (state_SetPackfileForData env) mac pack datas w in
          let w := register (state_SetPackfileForSnapshot env) mac pack snapshots w in
          (mkSnapshot w (Header_ snap) (packerChan snap), Returned None)
      end
  end end end end end.

(** [Commit].  Between [close(snapshot.packerChan)] and the receive from
    [packerChanDone] the packers take the queued messages and flush their
    packfiles; [packers] is their effect on what the session reaches, or
    the message they panic with. *)
Definition Commit (snap : Snapshot) (now : Z) : Snapshot * outcome error :=
  match Header_Serialize env (Header_ snap) with
  | inl err => (snap, Returned (Some err))
  | inr serializedHdr =>
      match PutHeader snap now (IndexID (Header_ snap)) serializedHdr with
      | (snap, Returned None) =>
          match close (packerChan snap) with
          | None => (snap, Panicked "close of closed channel")
          | Some ch =>
              match packers env (queue ch) (world snap) with
              | (w, Some msg) => (mkSnapshot w (Header_ snap) (mkChan [] true), Panicked msg)
              | (w, None) =>
                  let snap := mkSnapshot w (Header_ snap) (mkChan [] true) in
                  match State.Serialize (msgpack_Marshal env) (stateDelta w) with
                  | State.Err e => (snap, Returned (Some (state_error env e)))
                  | State.Ok serializedRepositoryIndex =>
                      let indexChecksum32 := copy32 (repository_Checksum env serializedRepositoryIndex) in
                      match repository_PutState env (writtenStates w) indexChecksum32
                                       serializedRepositoryIndex with
                      | Some err => (snap, Returned (Some err))
                      | None =>
                          (mkSnapshot
                             (set_writtenStates
                                ((indexChecksum32, serializedRepositoryIndex)
                                   :: writtenStates w) w)
                             (Header_ snap) (mkChan [] true),
                           Returned None)
                      end
                  end
              end
          end
      | (snap, out) => (snap, out)
      end
  end.

End Session.

End Snapshot.

(** ** The VFS file entry *)

Module Objects.
Section Object.
(** [objects.CustomMetadata], and the fields of [objects.Object] that the
    file entry does not read by name (checksum, chunks, entropy, ...). *)
Variable CustomMetadataT : Type.
Variable ObjectRest : Type.

(** Modelled from the spec: the objects package is not among the sources;
    an [Object] carries custom metadata, tags and a content type. *)
Record Object := mkObject {
  CustomMetadata : option (list CustomMetadataT);
  Tags : option (list string);
  ContentType : string;
  rest : ObjectRest;
}.
End Object.
Arguments mkObject {CustomMetadataT ObjectRest}.
Arguments CustomMetadata {CustomMetadataT ObjectRest}.
Arguments Tags {CustomMetadataT ObjectRest}.
Arguments ContentType {CustomMetadataT ObjectRest}.
Arguments rest {CustomMetadataT ObjectRest}.
End Objects.

Module Vfs.

(** Go's [<] on strings: bytewise lexicographic order. *)
Definition string_less (a b : string) : bool := String.ltb a b.

(** [ExtendedAttribute], with the fields [NewFileEntry] fills. *)
Record ExtendedAttribute := mkExtendedAttribute {
  Name : string;
  Value : list byte;
}.

(** What [sort.Slice] requires of [less]. *)
Definition strict_weak_order {A} (less : A → A → bool) : Prop :=
  (∀ x, less x x = false) ∧
  (∀ x y z, less x y = true → less y z = true → less x z = true) ∧
  (∀ x y z, less x y = false → less y z = false → less x z = false).

(** What [sort.Slice] promises: the elements are rearranged so that no
    element is [less] than one before it. *)
Definition sorts (sortSlice : ∀ A, (A → A → bool) → list A → list A) : Prop :=
  ∀ A (less : A → A → bool) (l : list A),
    strict_weak_order less →
    sortSlice A less l ≡ₚ l ∧
    StronglySorted (λ x y, less y x = false) (sortSlice A less l).

(** A sorting function to stand in for [sort.Slice] where a concrete one is
    needed. *)
Definition refSort (A : Type) (less : A → A → bool) (l : list A) : list A :=
  @merge_sort A (λ x y, less y x = false) (λ x y, decide (less y x = false)) l.

Section Entries.
(** [importer.RecordType], [objects.FileInfo], [AlternateDataStream],
    [CustomMetadata] of the vfs package, and the parameters of
    [objects.Object]. *)
Variable RecordType : Type.
Variable FileInfo : Type.
Variable AlternateDataStream : Type.
Variable CustomMetadataT : Type.
Variable ObjectsCustomMetadata : Type.
Variable ObjectRest : Type.
(** The constant [VERSION] of the vfs package. *)
Variable VERSION : N.
(** The Go [error] values, [msgpack.Unmarshal] into a zero [FileEntry],
    and [sort.Slice]. *)
Variable error : Type.
Variable sortSlice : ∀ A, (A → A → bool) → list A → list A.

Record FileEntry := mkFileEntry {
  Version : N;                                   (* uint32 *)
  ParentPath : string;
  Type_ : RecordType;
  FileInfo_ : FileInfo;
  SymlinkTarget : string;
  Object : option (Objects.Object ObjectsCustomMetadata ObjectRest);
  AlternateDataStreams : option (list AlternateDataStream);
  SecurityDescriptor : option (list byte);
  FileAttributes : N;                            (* uint32 *)
  ExtendedAttributes : option (list ExtendedAttribute);
  CustomMetadata : option (list CustomMetadataT);
  Tags : option (list string);
}.

Variable Unmarshal : list byte → error + FileEntry.

(** [importer.ScanRecord], with the fields [NewFileEntry] reads. *)
Record ScanRecord := mkScanRecord {
  RType : RecordType;
  RFileInfo : FileInfo;
  RTarget : string;
  RExtendedAttributes : gmap string (list byte);
}.

(** [NewFileEntry]; [order] is the order in which the loop visits
    [record.ExtendedAttributes]. *)
Definition NewFileEntry (order : list (string * list byte)) (parentPath : string)
    (record : ScanRecord) : FileEntry :=
  let target := "" in
  let target := if decide (RTarget record ≠ "") then RTarget record else target in
  let ExtendedAttributes :=
    foldl (λ acc '(name, value), acc ++ [mkExtendedAttribute name value]) [] order in
  let ExtendedAttributes :=
    sortSlice _ (λ a b, string_less (Name a) (Name b)) ExtendedAttributes in
  mkFileEntry VERSION parentPath (RType record) (RFileInfo record) target
              None None None 0 (Some ExtendedAttributes) None (Some []).

(** [FileEntryFromBytes] *)
Definition FileEntryFromBytes (serialized : list byte) : error + FileEntry :=
  match Unmarshal serialized with
  | inl err => inl err
  | inr f =>
      let object :=
        match Object f with
        | Some o =>
            let customMetadata :=
              match Objects.CustomMetadata o with
              | None => Some []
              | Some l => Some l
              end in
            let tags :=
              match Objects.Tags o with
              | None => Some []
              | Some l => Some l
              end in
            Some (Objects.mkObject customMetadata tags (Objects.ContentType o)
                                   (Objects.rest o))
        | None => None
        end in
      let alternateDataStreams :=
        match AlternateDataStreams f with None => Some [] | Some l => Some l end in
      let securityDescriptor :=
        match SecurityDescriptor f with None => Some [] | Some l => Some l end in
      let extendedAttributes :=
        match ExtendedAttributes f with None => Some [] | Some l => Some l end in
      let customMetadata :=
        match CustomMetadata f with None => Some [] | Some l => Some l end in
      let tags :=
        match Tags f with None => Some [] | Some l => Some l end in
      inr (mkFileEntry (Version f) (ParentPath f) (Type_ f) (FileInfo_ f) (SymlinkTarget f)
                       object alternateDataStreams securityDescriptor (FileAttributes f)
                       extendedAttributes customMetadata tags)
  end.

End Entries.

Arguments mkFileEntry {RecordType FileInfo AlternateDataStream CustomMetadataT
                       ObjectsCustomMetadata ObjectRest}.
Arguments Version {_ _ _ _ _ _} _.
Arguments ParentPath {_ _ _ _ _ _} _.
Arguments Type_ {_ _ _ _ _ _} _.
Arguments FileInfo_ {_ _ _ _ _ _} _.
Arguments SymlinkTarget {_ _ _ _ _ _} _.
Arguments Object {_ _ _ _ _ _} _.
Arguments AlternateDataStreams {_ _ _ _ _ _} _.
Arguments SecurityDescriptor {_ _ _ _ _ _} _.
Arguments FileAttributes {_ _ _ _ _ _} _.
Arguments ExtendedAttributes {_ _ _ _ _ _} _.
Arguments CustomMetadata {_ _ _ _ _ _} _.
Arguments Tags {_ _ _ _ _ _} _.
Arguments mkScanRecord {RecordType FileInfo}.
Arguments RType {_ _} _.
Arguments RFileInfo {_ _} _.
Arguments RTarget {_ _} _.
Arguments RExtendedAttributes {_ _} _.
Arguments NewFileEntry {_ _ _ _ _ _} _ _ _ _ _.
Arguments FileEntryFromBytes {_ _ _ _ _ _ _} _ _.

End Vfs.

(** ** What the properties of the repository state are stated with *)

Module StateSpec.
Import State.

(** The intern-table invariant: [IdToChecksum] has exactly the keys
    [0 .. N-1], and [checksumToId] is its inverse. *)
Definition contiguous (st : State) : Prop :=
  ∀ id, is_Some (IdToChecksum st !! id) ↔ id < N.of_nat (size (IdToChecksum st)).

Definition inverse_tables (st : State) : Prop :=
  ∀ checksum id,
    checksumToId st !! checksum = Some id ↔ IdToChecksum st !! id = Some checksum.

Definition intern_inv (st : State) : Prop := contiguous st ∧ inverse_tables st.

(** A sequence of intern calls. *)
Definition intern_all (st : State) (checksums : list MAC) : State :=
  foldl (λ st checksum, fst (getOrCreateIdForChecksum st checksum)) st checksums.

(** What one intern call leaves behind, on any state. *)
Record intern_post (st : State) (checksum : MAC) (st' : State) (id : N) : Prop := {
  ip_to : checksumToId st' !! checksum = Some id;
  ip_keep_to : ∀ c i, checksumToId st !! c = Some i → checksumToId st' !! c = Some i;
  ip_Chunks : Chunks st' = Chunks st;
  ip_Objects : Objects st' = Objects st;
  ip_Files : Files st' = Files st;
  ip_Directories : Directories st' = Directories st;
  ip_Blobs : Blobs st' = Blobs st;
  ip_Metadata : Metadata_ st' = Metadata_ st;
  ip_dirty : dirty st' = dirty st;
}.

(** ... and on a state whose intern table satisfies the invariant. *)
Record intern_post_inv (st : State) (checksum : MAC) (st' : State) (id : N) : Prop := {
  ip_from : IdToChecksum st' !! id = Some checksum;
  ip_keep_from : ∀ i c, IdToChecksum st !! i = Some c → IdToChecksum st' !! i = Some c;
  ip_new_from : ∀ i c, IdToChecksum st' !! i = Some c →
                       IdToChecksum st !! i = Some c ∨ (c = checksum ∧ i = id);
  ip_inv : intern_inv st';
}.
Arguments ip_to {st checksum st' id} _.
Arguments ip_keep_to {st checksum st' id} _ c i _.
Arguments ip_Chunks {st checksum st' id} _.
Arguments ip_Objects {st checksum st' id} _.
Arguments ip_Files {st checksum st' id} _.
Arguments ip_Directories {st checksum st' id} _.
Arguments ip_Blobs {st checksum st' id} _.
Arguments ip_Metadata {st checksum st' id} _.
Arguments ip_dirty {st checksum st' id} _.
Arguments ip_from {st checksum st' id} _.
Arguments ip_keep_from {st checksum st' id} _ i c _.
Arguments ip_new_from {st checksum st' id} _ i c _.
Arguments ip_inv {st checksum st' id} _.

(** Updates of the three maps that no function of the package stores
    into, and the update of the map of a kind. *)
Definition set_Files (f : gmap N Location) (st : State) : State :=
  mkState (checksumToId st) (IdToChecksum st) (Chunks st) (Objects st) f
          (Directories st) (Blobs st) (Metadata_ st) (dirty st).
Definition set_Directories (f : gmap N Location) (st : State) : State :=
  mkState (checksumToId st) (IdToChecksum st) (Chunks st) (Objects st) (Files st)
          f (Blobs st) (Metadata_ st) (dirty st).
Definition set_Blobs (f : gmap N Location) (st : State) : State :=
  mkState (checksumToId st) (IdToChecksum st) (Chunks st) (Objects st) (Files st)
          (Directories st) f (Metadata_ st) (dirty st).

Definition set_kind_map (k : Kind) : gmap N Location → State → State :=
  match k with
  | KChunk => set_Chunks
  | KObject => set_Objects
  | KFile => set_Files
  | KDirectory => set_Directories
  | KBlob => set_Blobs
  end.

(** The kind whose map [set_location k] stores into. *)
Definition stored_kind (k : Kind) : Kind :=
  match k with
  | KChunk => KChunk
  | _ => KObject
  end.

(** The kind whose map [exists_ k] reads. *)
Definition tested_kind (k : Kind) : Kind :=
  match k with
  | KBlob => KDirectory
  | k => k
  end.

(** The five [SetPackfileFor<Kind>] functions are one body that tests the
    map of a kind [kt] and stores into the map of a kind [ks]. *)
Definition setGeneric (kt ks : Kind) (st : State) (packfileChecksum checksum : MAC)
    (packfileOffset chunkLength : N) : State :=
  let '(st, packfileID) := getOrCreateIdForChecksum st packfileChecksum in
  let '(st, id) := getOrCreateIdForChecksum st checksum in
  match kind_map kt st !! id with
  | None =>
      set_dirty 1%Z
        (set_kind_map ks (<[id := mkLocation packfileID packfileOffset chunkLength]>
                            (kind_map ks st)) st)
  | Some _ => st
  end.

(** [checksum] holds a location under kind [k]. *)
Definition registered (k : Kind) (st : State) (checksum : MAC) : Prop :=
  ∃ id, checksumToId st !! checksum = Some id ∧ is_Some (kind_map k st !! id).

(** The keys of every kind map are interned ... *)
Definition keys_interned (st : State) : Prop :=
  ∀ k id, is_Some (kind_map k st !! id) → is_Some (IdToChecksum st !! id).

(** ... and so is the packfile of every location. *)
Definition packfiles_interned (st : State) : Prop :=
  ∀ k id loc, kind_map k st !! id = Some loc → is_Some (IdToChecksum st !! Packfile loc).

(** A well-formed state: the invariants of the data model. *)
Definition wf (st : State) : Prop :=
  intern_inv st ∧ keys_interned st ∧ packfiles_interned st.

(** A state as [NewFromBytes] yields it from an encoding that lists one
    entry, for checksum [9] in packfile [7], in the map [Directories] (or
    [Blobs]) and nothing else. *)
Definition loaded_one (inDirectories : bool) : State :=
  mkState {[9 := 0; 7 := 1]} {[0 := 9; 1 := 7]} ∅ ∅ ∅
          (if inDirectories then {[0 := mkLocation 1 10 20]} else ∅)
          (if inDirectories then ∅ else {[0 := mkLocation 1 10 20]})
          (mkMetadata VERSION 0 []) 0%Z.

(** The map [rebuildChecksums] builds from a visiting order. *)
Definition reversed (order : list (N * MAC)) : gmap MAC N :=
  foldl (λ acc '(id, checksum), <[checksum := id]> acc) ∅ order.

(** One iteration of that loop. *)
Definition reverse_step (acc : gmap MAC N) (entry : N * MAC) : gmap MAC N :=
  let '(id, checksum) := entry in <[checksum := id]> acc.

(** The contents of a state under a kind: the location a checksum holds,
    with the packfile id resolved to its checksum. *)
Definition locate (k : Kind) (st : State) (checksum : MAC) : option (MAC * N * N) :=
  id ← checksumToId st !! checksum;
  subpart ← kind_map k st !! id;
  Some (lookup0 0 (IdToChecksum st) (Packfile subpart), Offset subpart, Length subpart).

(** Two states hold the same locations under every kind. *)
Definition same_contents (st1 st2 : State) : Prop :=
  ∀ k checksum, locate k st1 checksum = locate k st2 checksum.

(** Two states agree when no (kind, checksum) holds two different
    locations in them. *)
Definition agree (st1 st2 : State) : Prop :=
  ∀ k checksum loc1 loc2,
    locate k st1 checksum = Some loc1 → locate k st2 checksum = Some loc2 → loc1 = loc2.

(** A state as [NewFromBytes] yields it from an encoding that lists one
    entry, for checksum [9] in packfile [7], in the map [Files]. *)
Definition loaded_file : State :=
  mkState {[9 := 0; 7 := 1]} {[0 := 9; 1 := 7]} ∅ ∅ {[0 := mkLocation 1 10 20]} ∅ ∅
          (mkMetadata VERSION 0 []) 0%Z.

(** The contents two states hold together; where both hold a location,
    the first one's. *)
Definition merged (k : Kind) (st delta : State) (m : MAC) : option (MAC * N * N) :=
  match locate k st m with
  | Some loc => Some loc
  | None => locate k delta m
  end.

(** The contents of the delta listed by the entries in [order]. *)
Definition listed (k : Kind) (delta : State) (order : list (N * Location)) (m : MAC)
    : option (MAC * N * N) :=
  id ← checksumToId delta !! m;
  subpart ← kind_map k delta !! id;
  if decide ((id, subpart) ∈ order)
  then Some (lookup0 0 (IdToChecksum delta) (Packfile subpart), Offset subpart, Length subpart)
  else None.

(** A state with no file, directory or blob entry: all that the functions
    of the package build from a new state. *)
Definition chunks_and_objects_only (st : State) : Prop :=
  Files st = ∅ ∧ Directories st = ∅ ∧ Blobs st = ∅.

(** *** A reference codec

    An encoding of the exported fields and its decoder, standing in for
    the msgpack library where a concrete codec is needed. *)

#[global] Instance Metadata_eq_dec : EqDecision Metadata.
Proof. solve_decision. Defined.

#[global] Program Instance Location_countable : Countable Location :=
  inj_countable' (λ loc, (Packfile loc, Offset loc, Length loc))
                 (λ '(packfile, offset, length), mkLocation packfile offset length) _.
Next Obligation. by intros []. Qed.

#[global] Program Instance Metadata_countable : Countable Metadata :=
  inj_countable' (λ md, (Version md, CreationTime md, Extends md))
                 (λ '(version, creationTime, extends), mkMetadata version creationTime extends) _.
Next Obligation. by intros []. Qed.

Definition exported_fields (st : State) :
    gmap N MAC * gmap N Location * gmap N Location * gmap N Location *
    gmap N Location * gmap N Location * Metadata :=
  (IdToChecksum st, Chunks st, Objects st, Files st, Directories st, Blobs st, Metadata_ st).

Definition of_exported_fields
    (fields : gmap N MAC * gmap N Location * gmap N Location * gmap N Location *
              gmap N Location * gmap N Location * Metadata) : State :=
  let '(idToChecksum, chunks, objects, files, directories, blobs, metadata) := fields in
  mkState ∅ idToChecksum chunks objects files directories blobs metadata 0%Z.

Fixpoint bytes_of_positive (p : positive) : list byte :=
  match p with
  | xH => []
  | xO q => x00 :: bytes_of_positive q
  | xI q => x01 :: bytes_of_positive q
  end.

Fixpoint positive_of_bytes (b : list byte) : option positive :=
  match b with
  | [] => Some xH
  | x00 :: rest => xO <$> positive_of_bytes rest
  | x01 :: rest => xI <$> positive_of_bytes rest
  | _ => None
  end.

Definition refMarshal (st : State) : result (list byte) :=
  Ok (bytes_of_positive (encode (exported_fields st))).

Definition refUnmarshal (data : list byte) : result State :=
  match positive_of_bytes data ≫= decode with
  | Some fields => Ok (of_exported_fields fields)
  | None => Err (MsgpackError "malformed input")
  end.

End StateSpec.

(** ** Collaborators for the examples of the snapshot session *)

Module SnapshotSpec.
Import Snapshot.

(** Collaborators for the examples, with strings for errors: an encoder
    that adds a one-byte envelope, a checksum that repeats the length of its
    input 32 times, a repository that accepts every write, serializers that
    yield fixed bytes, the reference codec of the state, and packers that
    find nothing to do. *)
Definition exEnv : Env string :=
  mkEnv (λ data, inr (x2a :: data))
        (λ data, replicate 32 (byte_of_N (N.of_nat (length data))))
        (λ before key data, None)
        (λ before key data, None)
        (λ pack, inr [x68; x65; x6c; x6c; x6f])
        (λ pack, inr [x01; x02; x03])
        (λ pack, inr [x04; x05])
        State.SetPackfileForBlob
        State.SetPackfileForBlob
        id
        (λ header, inr [x80])
        StateSpec.refMarshal
        (λ err, "state"%string)
        (λ queue w, (w, None)).

(** A pack with one chunk, and a session on new states whose channel is
    open or closed. *)
Definition exPack : Packfile.PackFile :=
  Packfile.mkPackFile [Packfile.mkBlob Packfile.TYPE_CHUNK 9 0 5] (Packfile.mkPackFooter 100).
Definition exSnapshot (isClosed : bool) : Snapshot :=
  mkSnapshot (mkWorld (State.New 0) (State.New 0) (λ _, 0) [] [])
             (mkHeader 3) (mkChan [] isClosed).

End SnapshotSpec.

(** ** What the properties of the VFS file entry are stated with *)

Module VfsSpec.
Import Vfs.

(** The [less] that [NewFileEntry] hands to [sort.Slice]. *)
Definition less_by_name (a b : ExtendedAttribute) : bool :=
  string_less (Name a) (Name b).

(** The attribute the loop of [NewFileEntry] appends for an entry of the
    attribute map. *)
Definition attribute_of (entry : string * list byte) : ExtendedAttribute :=
  mkExtendedAttribute entry.1 entry.2.

(** The entries of the examples: every type the file entry leaves open is
    [unit]. *)
Abbreviation exEntry := (FileEntry unit unit unit unit unit unit).

(** A decoder for the examples: an empty input is an error; anything else
    decodes to an entry whose collections are all nil and whose object is
    present. *)
Definition exUnmarshal (serialized : list byte) : string + exEntry :=
  match serialized with
  | [] => inl "EOF"%string
  | _ => inr (mkFileEntry 1 "/" () () "" (Some (Objects.mkObject None None "" ()))
                          None None 0 None None None)
  end.

(** What [FileEntryFromBytes] makes of that entry. *)
Definition exDecoded : exEntry :=
  mkFileEntry 1 "/" () () "" (Some (Objects.mkObject (Some []) (Some []) "" ()))
              (Some []) (Some []) 0 (Some []) (Some []) (Some []).

(** A record with two extended attributes. *)
Definition exRecord : ScanRecord unit unit :=
  mkScanRecord () () "" {["user.b"%string := [x01]; "user.a"%string := [x02]]}.

End VfsSpec.

(** ** The remaining lookups of the state, and sequences of calls *)

Module StateOps.
Import State.

(** *** GetPackfileFor<Kind> *)

Definition packfileResult (st : State) (entry : option Location) : MAC * bool :=
  match entry with
  | None => (0, false)
  | Some subpart => (lookup0 0 (IdToChecksum st) (Packfile subpart), true)
  end.

Definition GetPackfileForChunk (st : State) (chunkChecksum : MAC) : State * (MAC * bool) :=
  let '(st, chunkID) := getOrCreateIdForChecksum st chunkChecksum in
  (st, packfileResult st (Chunks st !! chunkID)).

Definition GetPackfileForObject (st : State) (objectChecksum : MAC) : State * (MAC * bool) :=
  let '(st, objectID) := getOrCreateIdForChecksum st objectChecksum in
  (st, packfileResult st (Objects st !! objectID)).

Definition GetPackfileForFile (st : State) (fileChecksum : MAC) : State * (MAC * bool) :=
  let '(st, fileID) := getOrCreateIdForChecksum st fileChecksum in
  (st, packfileResult st (Files st !! fileID)).

Definition GetPackfileForDirectory (st : State) (directoryChecksum : MAC)
    : State * (MAC * bool) :=
  let '(st, directoryID) := getOrCreateIdForChecksum st directoryChecksum in
  (st, packfileResult st (Directories st !! directoryID)).

Definition GetPackfileForBlob (st : State) (blobChecksum : MAC) : State * (MAC * bool) :=
  let '(st, blobID) := getOrCreateIdForChecksum st blobChecksum in
  (st, packfileResult st (Blobs st !! blobID)).

Definition packfile_of (k : Kind) : State → MAC → State * (MAC * bool) :=
  match k with
  | KChunk => GetPackfileForChunk
  | KObject => GetPackfileForObject
  | KFile => GetPackfileForFile
  | KDirectory => GetPackfileForDirectory
  | KBlob => GetPackfileForBlob
  end.

(** *** Sequences of calls on one state

    A call of a method of [State], with its arguments; for [Merge], the
    orders in which the loops visit the maps of the delta. *)
Inductive Op :=
  | OSetPackfile (k : Kind) (packfileChecksum checksum : MAC) (packfileOffset chunkLength : N)
  | OGetSubpart (k : Kind) (checksum : MAC)
  | OGetPackfile (k : Kind) (checksum : MAC)
  | OExists (k : Kind) (checksum : MAC)
  | OExtends (stateID : MAC)
  | OResetDirty
  | OMerge (o : MergeOrder) (stateID : MAC) (deltaState : State).

(** The receiver after the call. *)
Definition run_op (st : State) (op : Op) : State :=
  match op with
  | OSetPackfile k p m o l => set_location k st p m o l
  | OGetSubpart k m => (location k st m).1
  | OGetPackfile k m => (packfile_of k st m).1
  | OExists k m => (exists_ k st m).1
  | OExtends stateID => Extends_ st stateID
  | OResetDirty => ResetDirty st
  | OMerge o stateID deltaState => Merge o st stateID deltaState
  end.

Definition run (ops : list Op) (st : State) : State := foldl run_op st ops.

(** The calls that are not [ResetDirty]. *)
Definition keeps_dirty (op : Op) : bool :=
  match op with
  | OResetDirty => false
  | _ => true
  end.

End StateOps.

(** ** What sequences of calls keep *)

Module StateOpsSpec.
Import State StateSpec StateOps.

(** What a call keeps of the receiver: the three maps no function stores
    into, every entry of [Chunks], every interned id, and the metadata up
    to new ids at the end of the lineage. *)
Definition persists (st st' : State) : Prop :=
  Files st' = Files st ∧
  Directories st' = Directories st ∧
  Blobs st' = Blobs st ∧
  (∀ id loc, Chunks st !! id = Some loc → Chunks st' !! id = Some loc) ∧
  (∀ checksum id, checksumToId st !! checksum = Some id →
                  checksumToId st' !! checksum = Some id) ∧
  Version (Metadata_ st') = Version (Metadata_ st) ∧
  CreationTime (Metadata_ st') = CreationTime (Metadata_ st) ∧
  Extends (Metadata_ st) `prefix_of` Extends (Metadata_ st').

(** The dirty flag tells the truth: it is not lowered, and where it is
    down afterwards no location map has changed. *)
Definition flagged (st st' : State) : Prop :=
  (Dirty st = true → Dirty st' = true) ∧
  (Dirty st' = false → ∀ k, kind_map k st' = kind_map k st).

(** The answers of the three lookups, from the contents. *)
Definition subpart_of (entry : option (MAC * N * N)) : MAC * N * N * bool :=
  match entry with
  | Some (p, o, l) => (p, o, l, true)
  | None => (0, 0, 0, false)
  end.

Definition packfile_only (entry : option (MAC * N * N)) : MAC * bool :=
  match entry with
  | Some (p, _, _) => (p, true)
  | None => (0, false)
  end.

(** A state that went through a few calls, two of them merges. *)
Definition exCalls : list Op :=
  [OSetPackfile KChunk 7 9 10 20; OExists KFile 5; OSetPackfile KFile 7 5 30 40;
   OMerge (canonical_order loaded_file) 3 loaded_file; OExtends 3; OGetSubpart KBlob 11;
   OResetDirty; OGetPackfile KObject 5;
   OMerge (canonical_order (loaded_one true)) 4 (loaded_one true)].

End StateOpsSpec.

(** ** The lookups of the snapshot session *)

Module SnapshotOps.
Import Snapshot.

(** [snapshot.Repository().State()] is the state of the repository; a
    lookup interns its argument there. *)
Definition onRepositoryState {A} (snap : Snapshot) (r : State.State * A) : Snapshot * A :=
  (mkSnapshot (set_states r.1 (stateDelta (world snap)) (world snap))
              (Header_ snap) (packerChan snap),
   r.2).




Definition CheckObject (snap : Snapshot) (checksum : State.MAC) : Snapshot * bool :=
  onRepositoryState snap (State.ObjectExists (repositoryState (world snap)) checksum).

(** [New], up to the packers it starts: a session on the repository, with
    an empty delta that takes over the lineage of the state of the
    repository and an open channel.  [statistics_New] is what
    [statistics.New] returns, and [now] what [time.Now] returns to
    [state.New]. *)
Definition New (statistics_New : Counter → N) (repositoryState : State.State)
    (written writtenStates : list (list byte * list byte)) (now : Z)
    (snapshotID : State.MAC) : Snapshot :=
  let stateDelta := State.New now in
  let stateDelta :=
    State.set_Metadata
      (State.mkMetadata (State.Version (State.Metadata_ stateDelta))
                        (State.CreationTime (State.Metadata_ stateDelta))
                        (State.Extends (State.Metadata_ repositoryState)))
      stateDelta in
  mkSnapshot (mkWorld repositoryState stateDelta statistics_New written writtenStates)
             (mkHeader snapshotID) (mkChan [] false).

Section Reading.
Context {error object : Type}.
(** [fmt.Errorf]; [repository.GetPackfileBlob], given the packfiles written
    so far; [objects.NewObjectFromBytes]. *)
Variable Errorf : string → error.
Variable repository_GetPackfileBlob :
  list (list byte * list byte) → State.MAC → N → N → error + list byte.
Variable objects_NewObjectFromBytes : list byte → error + object.


Definition LookupObject (snap : Snapshot) (checksum : State.MAC)
    : Snapshot * (error + object) :=
  let '(snap, (packfile, offset, length, exists_)) :=
    onRepositoryState snap (State.GetSubpartForObject (repositoryState (world snap)) checksum) in
  if negb exists_ then (snap, inl (Errorf "object not found"))
  else
    match repository_GetPackfileBlob (written (world snap)) packfile offset length with
    | inl err => (snap, inl err)
    | inr buffer => (snap, objects_NewObjectFromBytes buffer)
    end.

End Reading.

End SnapshotOps.

(** ** The packer goroutine of [New] *)

Module Packer.
Import Snapshot.

(** The six sets of checksums a packer keeps beside its pack. *)
Record Sets := mkSets {
  snapshotHeaders : gset State.MAC;
  chunks : gset State.MAC;
  objects : gset State.MAC;
  files : gset State.MAC;
  directories : gset State.MAC;
  datas : gset State.MAC;
}.

Definition noSets : Sets := mkSets ∅ ∅ ∅ ∅ ∅ ∅.

(** The [switch msg.Type]. *)
Definition remember (type : Packfile.BlobType) (checksum : State.MAC) (s : Sets) : Sets :=
  match type with
  | Packfile.TYPE_SNAPSHOT =>
      mkSets ({[checksum]} ∪ snapshotHeaders s) (chunks s) (objects s) (files s)
             (directories s) (datas s)
  | Packfile.TYPE_CHUNK =>
      mkSets (snapshotHeaders s) ({[checksum]} ∪ chunks s) (objects s) (files s)
             (directories s) (datas s)
  | Packfile.TYPE_OBJECT =>
      mkSets (snapshotHeaders s) (chunks s) ({[checksum]} ∪ objects s) (files s)
             (directories s) (datas s)
  | Packfile.TYPE_FILE =>
      mkSets (snapshotHeaders s) (chunks s) (objects s) ({[checksum]} ∪ files s)
             (directories s) (datas s)
  | Packfile.TYPE_DIRECTORY =>
      mkSets (snapshotHeaders s) (chunks s) (objects s) (files s)
             ({[checksum]} ∪ directories s) (datas s)
  | Packfile.TYPE_DATA =>
      mkSets (snapshotHeaders s) (chunks s) (objects s) (files s)
             (directories s) ({[checksum]} ∪ datas s)
  end.

(** [make([][32]byte, len(set))] followed by one [append] per element:
    [len(set)] zero checksums, then the elements in the order [order] the
    [range] loop visits them in. *)
Definition listOf (set : gset State.MAC) (order : list State.MAC) : list State.MAC :=
  replicate (size set) 0 ++ order.

Section Worker.
Context {error pack : Type}.
(** The packs of the packfile package: [packfile.New], [AddBlob], [Size];
    [threshold] is [uint32(repo.Configuration().PackfileSize)];
    [PutPackfile] is the session's, on these packs; [range n set] is the
    order in which the loops that build the lists for the [n]-th pack of
    this packer visit [set]. *)
Variable packfile_New : pack.
Variable pack_AddBlob : pack → Packfile.BlobType → State.MAC → list byte → pack.
Variable pack_Size : pack → N.
Variable threshold : N.
Variable PutPackfile :
  Snapshot → pack → list State.MAC → list State.MAC → list State.MAC → list State.MAC →
  list State.MAC → list State.MAC → Snapshot * outcome error.
Variable err_Error : error → string.
Variable range : nat → gset State.MAC → list State.MAC.

(** The lists are built and the pack is handed to [PutPackfile]; an error
    it returns is the value of a panic. *)
Definition flush (n : nat) (snap : Snapshot) (p : pack) (s : Sets) : Snapshot * outcome error :=
  let snapshotHeadersList := listOf (snapshotHeaders s) (range n (snapshotHeaders s)) in
  let objectsList := listOf (objects s) (range n (objects s)) in
  let chunksList := listOf (chunks s) (range n (chunks s)) in
  let filesList := listOf (files s) (range n (files s)) in
  let directoriesList := listOf (directories s) (range n (directories s)) in
  let datasList := listOf (datas s) (range n (datas s)) in
  match PutPackfile snap p objectsList chunksList filesList directoriesList datasList
                    snapshotHeadersList with
  | (snap, Returned (Some err)) => (snap, Panicked (err_Error err))
  | (snap, out) => (snap, out)
  end.

(** One packer, on the messages [msgs] it receives from the channel until
    the channel is closed and drained; [cur] is its pack with its sets
    ([None] for [pack == nil]) and [n] counts the packs it has flushed. *)
Fixpoint worker (msgs : list PackerMsg) (n : nat) (cur : option (pack * Sets))
    (snap : Snapshot) : Snapshot * outcome error :=
  match msgs with
  | [] =>
      match cur with
      | None => (snap, Returned None)
      | Some (p, s) => flush n snap p s
      end
  | msg :: msgs =>
      let '(p, s) := match cur with
                     | None => (packfile_New, noSets)
                     | Some c => c
                     end in
      let p := pack_AddBlob p (Type_ msg) (Checksum msg) (Data msg) in
      let s := remember (Type_ msg) (Checksum msg) s in
      if threshold <? pack_Size p then
        match flush n snap p s with
        | (snap, Returned None) => worker msgs (S n) None snap
        | (snap, out) => (snap, out)
        end
      else worker msgs n (Some (p, s)) snap
  end.

(** *** The packs a packer writes

    The pack and the sets a run of messages builds, the runs a greedy cut
    at the threshold makes of the messages, and the flushes of these runs
    one after the other. *)
Definition build (run : list PackerMsg) : pack :=
  foldl (λ p msg, pack_AddBlob p (Type_ msg) (Checksum msg) (Data msg)) packfile_New run.

Definition sets_of (run : list PackerMsg) : Sets :=
  foldl (λ s msg, remember (Type_ msg) (Checksum msg) s) noSets run.

Fixpoint cut (msgs : list PackerMsg) (cur : list PackerMsg) : list (list PackerMsg) :=
  match msgs with
  | [] => match cur with [] => [] | _ => [cur] end
  | msg :: msgs =>
      if threshold <? pack_Size (build (cur ++ [msg]))
      then (cur ++ [msg]) :: cut msgs []
      else cut msgs (cur ++ [msg])
  end.

Fixpoint flushAll (runs : list (list PackerMsg)) (n : nat) (snap : Snapshot)
    : Snapshot * outcome error :=
  match runs with
  | [] => (snap, Returned None)
  | run :: runs =>
      match flush n snap (build run) (sets_of run) with
      | (snap, Returned None) => flushAll runs (S n) snap
      | (snap, out) => (snap, out)
      end
  end.

End Worker.

End Packer.

(** ** What the properties of the session are stated with *)

Module SnapshotOpsSpec.
Import Snapshot SnapshotOps.

(** One registration loop of [PutPackfile], on one state. *)
Definition registerState (set : State.State → State.MAC → State.MAC → N → N → State.State)
    (checksum32 : State.MAC) (pack : Packfile.PackFile) (checksums : list State.MAC)
    (st : State.State) : State.State :=
  foldl (λ st checksum,
           match indexEntry (Packfile.Index pack) checksum with
           | Some entry => set st checksum32 checksum (Packfile.Offset entry) (Packfile.Length entry)
           | None => st
           end)
        st checksums.


(** The location [PutPackfile] registers for a listed checksum. *)
Definition registered_by (packfile : State.MAC) (pack : Packfile.PackFile)
    (checksums : list State.MAC) (checksum : State.MAC) : option (State.MAC * N * N) :=
  if bool_decide (checksum ∈ checksums) then
    entry ← indexEntry (Packfile.Index pack) checksum;
    Some (packfile, Packfile.Offset entry, Packfile.Length entry)
  else None.

(** The six registration loops of [PutPackfile], in their order, on one
    state. *)
Definition registerAll {error} (env : Env error) (checksum32 : State.MAC)
    (pack : Packfile.PackFile) (objects chunks files directories datas snapshots : list State.MAC)
    (st : State.State) : State.State :=
  let st := registerState State.SetPackfileForChunk checksum32 pack chunks st in
  let st := registerState State.SetPackfileForObject checksum32 pack objects st in
  let st := registerState State.SetPackfileForFile checksum32 pack files st in
  let st := registerState State.SetPackfileForDirectory checksum32 pack directories st in
  let st := registerState (state_SetPackfileForData env) checksum32 pack datas st in
  registerState (state_SetPackfileForSnapshot env) checksum32 pack snapshots st.




(** A repository for the examples that reads a blob out of the packfiles
    written so far. *)
Definition exGetPackfileBlob (written : list (list byte * list byte))
    (packfile : State.MAC) (offset length : N) : string + list byte :=
  match List.find (λ entry, bool_decide (MAC_of_bytes entry.1 = packfile)) written with
  | Some entry => inr (take (N.to_nat length) (drop (N.to_nat offset) entry.2))
  | None => inl "no such packfile"%string
  end.

(** A sequence of [Put<Kind>] calls, each with the instant of its message,
    and the messages the calls whose data encodes put on the channel. *)
Definition puts {error} (env : Env error) (calls : list (PutOp * Z * State.MAC * list byte))
    (snap : Snapshot) : Snapshot * list (outcome error) :=
  foldl (λ '(snap, outs) '(op, now, checksum, data),
           let '(snap, out) := put env op snap now checksum data in
           (snap, outs ++ [out]))
        (snap, []) calls.

Definition type_of (op : PutOp) : Packfile.BlobType :=
  match op with
  | OpHeader => Packfile.TYPE_SNAPSHOT
  | OpChunk => Packfile.TYPE_CHUNK
  | OpData => Packfile.TYPE_DATA
  | OpObject => Packfile.TYPE_OBJECT
  | OpFile => Packfile.TYPE_FILE
  | OpDirectory => Packfile.TYPE_DIRECTORY
  end.

Definition messages {error} (env : Env error) (calls : list (PutOp * Z * State.MAC * list byte))
    : list PackerMsg :=
  omap (λ '(op, now, checksum, data),
          match repository_Encode env data with
          | inl _ => None
          | inr encoded => Some (mkPackerMsg now (type_of op) checksum encoded)
          end)
       calls.

(** A pack with a chunk, an object and a file, in this order. *)
Definition exPack3 : Packfile.PackFile :=
  Packfile.mkPackFile [Packfile.mkBlob Packfile.TYPE_CHUNK 9 0 5;
                       Packfile.mkBlob Packfile.TYPE_OBJECT 8 5 7;
                       Packfile.mkBlob Packfile.TYPE_FILE 6 12 3]
                      (Packfile.mkPackFooter 100).

(** Packs for the examples of the packer: a pack is its index, a blob
    takes the length of its data after the blobs before it, and the size
    of a pack is the sum of the lengths. *)
Definition exAddBlob (p : Packfile.PackFile) (type : Packfile.BlobType) (checksum : State.MAC)
    (data : list byte) : Packfile.PackFile :=
  Packfile.mkPackFile
    (Packfile.Index p ++
       [Packfile.mkBlob type checksum
          (foldr (λ b n, Packfile.Length b + n) 0 (Packfile.Index p))
          (N.of_nat (length data))])
    (Packfile.Footer p).

Definition exSize (p : Packfile.PackFile) : N :=
  foldr (λ b n, Packfile.Length b + n) 0 (Packfile.Index p).

Definition exNew : Packfile.PackFile := Packfile.mkPackFile [] (Packfile.mkPackFooter 100).

Definition exRange (n : nat) (set : gset State.MAC) : list State.MAC := elements set.

Definition exMsgs : list PackerMsg :=
  [mkPackerMsg 0 Packfile.TYPE_CHUNK 9 [x01; x02]; mkPackerMsg 1 Packfile.TYPE_CHUNK 8 [x03; x04];
   mkPackerMsg 2 Packfile.TYPE_OBJECT 7 [x05]; mkPackerMsg 3 Packfile.TYPE_SNAPSHOT 3 [x06]].

End SnapshotOpsSpec.

(** ** The accessors of the VFS file entry *)

Module VfsOps.
Import Vfs.

Section Accessors.
Context {RecordType FileInfo AlternateDataStream CustomMetadataT
         ObjectsCustomMetadata ObjectRest : Type}.

(** [ContentType] *)
Definition ContentType
    (f : FileEntry RecordType FileInfo AlternateDataStream CustomMetadataT
                   ObjectsCustomMetadata ObjectRest) : string :=
  match Object f with
  | None => ""
  | Some o => Objects.ContentType o
  end.

(** Two objects, and two entries, that differ at most in collections that
    are nil in one and empty in the other. *)
Definition same_object_up_to_nil (o1 o2 : Objects.Object ObjectsCustomMetadata ObjectRest)
    : Prop :=
  default [] (Objects.CustomMetadata o1) = default [] (Objects.CustomMetadata o2) ∧
  default [] (Objects.Tags o1) = default [] (Objects.Tags o2) ∧
  Objects.ContentType o1 = Objects.ContentType o2 ∧
  Objects.rest o1 = Objects.rest o2.

Definition same_up_to_nil
    (f1 f2 : FileEntry RecordType FileInfo AlternateDataStream CustomMetadataT
                       ObjectsCustomMetadata ObjectRest) : Prop :=
  Version f1 = Version f2 ∧
  ParentPath f1 = ParentPath f2 ∧
  Type_ f1 = Type_ f2 ∧
  FileInfo_ f1 = FileInfo_ f2 ∧
  SymlinkTarget f1 = SymlinkTarget f2 ∧
  FileAttributes f1 = FileAttributes f2 ∧
  default [] (AlternateDataStreams f1) = default [] (AlternateDataStreams f2) ∧
  default [] (SecurityDescriptor f1) = default [] (SecurityDescriptor f2) ∧
  default [] (ExtendedAttributes f1) = default [] (ExtendedAttributes f2) ∧
  default [] (CustomMetadata f1) = default [] (CustomMetadata f2) ∧
  default [] (Tags f1) = default [] (Tags f2) ∧
  match Object f1, Object f2 with
  | None, None => True
  | Some o1, Some o2 => same_object_up_to_nil o1 o2
  | _, _ => False
  end.

End Accessors.

(** A decoder for the examples that tells two inputs apart: the one-byte
    input decodes to an entry with nil collections, any longer input to
    the same entry with empty collections. *)
Definition exUnmarshal2 (serialized : list byte) : string + VfsSpec.exEntry :=
  match serialized with
  | [] => inl "EOF"%string
  | [_] => inr (mkFileEntry 1 "/" () () "" (Some (Objects.mkObject None None "text/plain" ()))
                            None None 0 None None None)
  | _ => inr (mkFileEntry 1 "/" () () ""
                          (Some (Objects.mkObject (Some []) (Some []) "text/plain" ()))
                          (Some []) (Some []) 0 (Some []) (Some []) (Some []))
  end.

End VfsOps.

(** * Properties of the byte encodings *)

Lemma to_N_byte_of_N n : Byte.to_N (byte_of_N n) = n mod 2 ^ 8.
Proof.
  unfold byte_of_N. change (2 ^ 8) with 256.
  destruct (Byte.of_N (n mod 256)) as [b|] eqn:E.
  - by apply Byte.to_of_N.
  - apply Byte.of_N_None_iff in E. pose proof (N.mod_lt n 256). lia.
Qed.

Lemma testbit_low_byte n i :
  N.testbit (n mod 2 ^ 8) i = if decide (i < 8) then N.testbit n i else false.
Proof.
  case_decide.
  - by apply N.mod_pow2_bits_low.
  - apply N.mod_pow2_bits_high. lia.
Qed.

Lemma testbit_shifted_byte n k i :
  N.testbit (N.shiftl (N.shiftr n k mod 2 ^ 8) k) i =
    if decide (k ≤ i < k + 8) then N.testbit n i else false.
Proof.
  destruct (decide (i < k)) as [Hlt|Hge].
  - rewrite N.shiftl_spec_low by done. rewrite decide_False by lia. done.
  - rewrite N.shiftl_spec_high' by lia. rewrite testbit_low_byte.
    rewrite N.shiftr_spec'. replace (i - k + k) with i by lia.
    repeat case_decide; try done; lia.
Qed.

(** Reading back the four bytes [PutUint32] wrote. *)
Lemma Uint32_PutUint32 v rest : v < 2 ^ 32 → Uint32 (PutUint32 v ++ rest) = v.
Proof.
  intros Hv. cbn [PutUint32 Uint32 app]. rewrite !to_N_byte_of_N.
  apply N.bits_inj. intros i.
  rewrite !N.lor_spec, !testbit_shifted_byte, testbit_low_byte.
  destruct (decide (i < 32)) as [Hi|Hi].
  - repeat case_decide; try lia; by rewrite ?orb_false_r, ?orb_false_l.
  - rewrite <- (N.mod_small v (2 ^ 32)) by done.
    rewrite N.mod_pow2_bits_high by lia.
    by repeat case_decide.
Qed.

Lemma length_PutUint32 v : length (PutUint32 v) = 4%nat.
Proof. done. Qed.

(** * Properties of the repository state *)

Module StateFacts.
Import State StateSpec.

Lemma intern_inv_New now : intern_inv (New now).
Proof.
  split.
  - intros id. cbn. rewrite lookup_empty, map_size_empty. split.
    + by intros [? ?].
    + lia.
  - intros c id. cbn. by rewrite !lookup_empty.
Qed.

Lemma getOrCreate_known st checksum id :
  checksumToId st !! checksum = Some id →
  getOrCreateIdForChecksum st checksum = (st, id).
Proof. intros H. unfold getOrCreateIdForChecksum. by rewrite H. Qed.

Lemma getOrCreate_fresh st checksum :
  checksumToId st !! checksum = None →
  getOrCreateIdForChecksum st checksum =
    (set_IdToChecksum (<[N.of_nat (size (IdToChecksum st)) := checksum]> (IdToChecksum st))
       (set_checksumToId
          (<[checksum := N.of_nat (size (IdToChecksum st))]> (checksumToId st)) st),
     N.of_nat (size (IdToChecksum st))).
Proof. intros H. unfold getOrCreateIdForChecksum. by rewrite H. Qed.

Lemma contiguous_next_free st :
  contiguous st → IdToChecksum st !! N.of_nat (size (IdToChecksum st)) = None.
Proof.
  intros Hc. apply eq_None_not_Some. intros Hs. apply Hc in Hs. lia.
Qed.

Lemma intern_inv_getOrCreate st checksum :
  intern_inv st → intern_inv (fst (getOrCreateIdForChecksum st checksum)).
Proof.
  intros [Hc Hi]. unfold getOrCreateIdForChecksum.
  destruct (checksumToId st !! checksum) as [id|] eqn:E; [done|].
  pose proof (contiguous_next_free st Hc) as Hfree.
  set (n := N.of_nat (size (IdToChecksum st))) in *.
  split.
  - intros id. cbn. rewrite map_size_insert_None by done.
    rewrite lookup_insert. case_decide as Hd.
    + subst id. split; [lia | by eauto].
    + specialize (Hc id). subst n. rewrite Nat2N.inj_succ.
      split; intros H; [apply Hc in H; lia | apply Hc; lia].
  - intros c id. cbn. rewrite !lookup_insert.
    destruct (decide (checksum = c)) as [->|Hne].
    + destruct (decide (n = id)) as [->|Hn]; [done|].
      split; [naive_solver|].
      intros H. apply Hi in H. congruence.
    + destruct (decide (n = id)) as [<-|Hn].
      * split; [|naive_solver].
        intros H. apply Hi in H. congruence.
      * apply Hi.
Qed.

Lemma intern_inv_intern_all st checksums :
  intern_inv st → intern_inv (intern_all st checksums).
Proof.
  revert st. induction checksums as [|c cs IH]; intros st H; [done|].
  cbn. apply IH. by apply intern_inv_getOrCreate.
Qed.

Lemma getOrCreate_post st checksum :
  intern_post st checksum (getOrCreateIdForChecksum st checksum).1
              (getOrCreateIdForChecksum st checksum).2.
Proof.
  unfold getOrCreateIdForChecksum.
  destruct (checksumToId st !! checksum) as [id|] eqn:E; cbn.
  - by split.
  - split; try done; cbn.
    + apply lookup_insert_eq.
    + intros c i H. rewrite lookup_insert_ne; [done|congruence].
Qed.

Lemma getOrCreate_post_inv st checksum :
  intern_inv st →
  intern_post_inv st checksum (getOrCreateIdForChecksum st checksum).1
                  (getOrCreateIdForChecksum st checksum).2.
Proof.
  intros Hinv.
  pose proof (intern_inv_getOrCreate st checksum Hinv) as Hinv'.
  destruct Hinv as [Hc Hi].
  unfold getOrCreateIdForChecksum in *.
  destruct (checksumToId st !! checksum) as [id|] eqn:E; cbn in *.
  - split; try done; [by apply Hi | by left].
  - pose proof (contiguous_next_free st Hc) as Hfree.
    split; try done; cbn.
    + apply lookup_insert_eq.
    + intros i c H. rewrite lookup_insert_ne; [done|congruence].
    + intros i c. rewrite lookup_insert. case_decide; naive_solver.
Qed.

(** *** Registration, generically *)

Lemma set_location_generic k : set_location k = setGeneric k (stored_kind k).
Proof. by destruct k. Qed.

Lemma kind_map_intern k st checksum :
  kind_map k (getOrCreateIdForChecksum st checksum).1 = kind_map k st.
Proof.
  destruct (getOrCreate_post st checksum). by destruct k.
Qed.

Lemma kind_map_set_kind_map k k' f st :
  kind_map k (set_kind_map k' f st) = if decide (k = k') then f else kind_map k st.
Proof. by destruct k, k'. Qed.

Lemma kind_map_set_dirty k d st : kind_map k (set_dirty d st) = kind_map k st.
Proof. by destruct k. Qed.

Lemma setGeneric_unfold kt ks st p m o l :
  ∃ st1 pid st2 id,
    getOrCreateIdForChecksum st p = (st1, pid) ∧
    getOrCreateIdForChecksum st1 m = (st2, id) ∧
    setGeneric kt ks st p m o l =
      match kind_map kt st !! id with
      | None => set_dirty 1%Z
                  (set_kind_map ks (<[id := mkLocation pid o l]> (kind_map ks st)) st2)
      | Some _ => st2
      end.
Proof.
  unfold setGeneric.
  destruct (getOrCreateIdForChecksum st p) as [st1 pid] eqn:E1.
  destruct (getOrCreateIdForChecksum st1 m) as [st2 id] eqn:E2.
  exists st1, pid, st2, id. split; [done|]. split; [done|].
  assert (∀ k, kind_map k st2 = kind_map k st) as K.
  { intros k. pose proof (kind_map_intern k st p) as K1.
    pose proof (kind_map_intern k st1 m) as K2.
    rewrite E1 in K1. rewrite E2 in K2. cbn [fst] in *. congruence. }
  by rewrite !K.
Qed.

Lemma wf_New now : wf (New now).
Proof.
  split; [apply intern_inv_New|].
  split.
  - intros k id. destruct k; cbn; rewrite lookup_empty; by intros [? ?].
  - intros k id loc. destruct k; cbn; by rewrite lookup_empty.
Qed.

(** The id an intern call returns for a checksum that holds no location
    under [k] is free in the map of [k]. *)
Lemma fresh_id_free k st p m st1 pid st2 id :
  wf st → ¬ registered k st m →
  getOrCreateIdForChecksum st p = (st1, pid) →
  getOrCreateIdForChecksum st1 m = (st2, id) →
  kind_map k st !! id = None.
Proof.
  intros (Hinv & Hkeys & _) Hfresh E1 E2.
  pose proof (getOrCreate_post_inv st p Hinv) as P1. rewrite E1 in P1. cbn in P1.
  pose proof (getOrCreate_post_inv st1 m (ip_inv P1)) as P2.
  rewrite E2 in P2. cbn in P2.
  apply eq_None_not_Some. intros Hsome.
  destruct (Hkeys k id Hsome) as [c Hc].
  pose proof (ip_keep_from P2 _ _ (ip_keep_from P1 _ _ Hc)) as Hc2.
  rewrite (ip_from P2) in Hc2. injection Hc2 as <-.
  apply Hfresh. exists id. split; [|done].
  by apply Hinv.
Qed.

Lemma location_generic k st m :
  location k st m =
    let '(st', id) := getOrCreateIdForChecksum st m in
    (st', subpartResult st' (kind_map k st' !! id)).
Proof. by destruct k. Qed.

Lemma exists_generic k st m :
  exists_ k st m =
    let '(st', id) := getOrCreateIdForChecksum st m in
    (st', existsResult (kind_map (tested_kind k) st' !! id)).
Proof. by destruct k. Qed.

(** Registering a checksum that holds a location under the tested kind
    changes no kind map and leaves the dirty flag alone. *)
Lemma setGeneric_registered kt ks st p m o l :
  registered kt st m →
  (∀ k, kind_map k (setGeneric kt ks st p m o l) = kind_map k st) ∧
  dirty (setGeneric kt ks st p m o l) = dirty st.
Proof.
  intros (id0 & Hid0 & Hsome).
  destruct (setGeneric_unfold kt ks st p m o l) as (st1 & pid & st2 & id & E1 & E2 & ->).
  pose proof (getOrCreate_post st p) as P1. rewrite E1 in P1. cbn in P1.
  pose proof (getOrCreate_post st1 m) as P2. rewrite E2 in P2. cbn in P2.
  assert (id = id0) as ->.
  { pose proof (ip_keep_to P2 _ _ (ip_keep_to P1 _ _ Hid0)) as H.
    rewrite (ip_to P2) in H. congruence. }
  destruct Hsome as [loc ->]. split.
  - intros k. pose proof (kind_map_intern k st p) as K1.
    pose proof (kind_map_intern k st1 m) as K2.
    rewrite E1 in K1. rewrite E2 in K2. cbn [fst] in *. congruence.
  - rewrite (ip_dirty P2). apply (ip_dirty P1).
Qed.

(** Registering a checksum that holds no location under the tested kind
    stores one entry into the map of the stored kind, under the checksum's
    id, and raises the dirty flag. *)
Lemma setGeneric_fresh_explicit kt ks st p m o l :
  wf st → ¬ registered kt st m →
  let st1 := (getOrCreateIdForChecksum st p).1 in
  let pid := (getOrCreateIdForChecksum st p).2 in
  let st2 := (getOrCreateIdForChecksum st1 m).1 in
  let id := (getOrCreateIdForChecksum st1 m).2 in
  checksumToId st2 !! m = Some id ∧
  IdToChecksum st2 !! pid = Some p ∧
  IdToChecksum st2 !! id = Some m ∧
  kind_map kt st !! id = None ∧
  (∀ k, kind_map k st2 = kind_map k st) ∧
  setGeneric kt ks st p m o l =
    set_dirty 1%Z (set_kind_map ks (<[id := mkLocation pid o l]> (kind_map ks st)) st2).
Proof.
  intros Hwf Hfresh st1 pid st2 id.
  destruct (setGeneric_unfold kt ks st p m o l) as (st1' & pid' & st2' & id' & E1 & E2 & ->).
  assert (st1' = st1 ∧ pid' = pid) as [-> ->] by (subst st1 pid; by rewrite E1).
  assert (st2' = st2 ∧ id' = id) as [-> ->] by (subst st2 id; by rewrite E2).
  pose proof (fresh_id_free kt st p m st1 pid st2 id Hwf Hfresh E1 E2) as Hnone.
  destruct Hwf as (Hinv & _).
  pose proof (getOrCreate_post_inv st p Hinv) as P1.
  pose proof (getOrCreate_post_inv st1 m (ip_inv P1)) as P2.
  pose proof (getOrCreate_post st1 m) as Q2.
  rewrite Hnone. repeat split.
  - apply (ip_to Q2).
  - apply (ip_keep_from P2), (ip_from P1).
  - apply (ip_from P2).
  - intros k. subst st2 st1. by rewrite !kind_map_intern.
Qed.

Lemma setGeneric_fresh kt ks st p m o l :
  wf st → ¬ registered kt st m →
  ∃ st2 pid id,
    checksumToId st2 !! m = Some id ∧
    IdToChecksum st2 !! pid = Some p ∧
    IdToChecksum st2 !! id = Some m ∧
    kind_map kt st !! id = None ∧
    (∀ k, kind_map k st2 = kind_map k st) ∧
    setGeneric kt ks st p m o l =
      set_dirty 1%Z (set_kind_map ks (<[id := mkLocation pid o l]> (kind_map ks st)) st2).
Proof.
  intros Hwf Hfresh. eexists _, _, _.
  apply (setGeneric_fresh_explicit kt ks st p m o l Hwf Hfresh).
Qed.

(** A kind whose registration stores into its own map reads back what
    was registered. *)
Lemma set_location_read_back k st p m o l :
  stored_kind k = k → wf st → ¬ registered k st m →
  (location k (set_location k st p m o l) m).2 = (p, o, l, true).
Proof.
  intros Hk Hwf Hfresh. rewrite set_location_generic, Hk.
  destruct (setGeneric_fresh k k st p m o l Hwf Hfresh)
    as (st2 & pid & id & Hto & Hp & Hm & Hnone & _ & ->).
  rewrite location_generic.
  rewrite (getOrCreate_known _ m id) by (by destruct k).
  cbn [snd]. rewrite kind_map_set_dirty, kind_map_set_kind_map.
  rewrite decide_True by done. rewrite lookup_insert_eq.
  unfold subpartResult, lookup0.
  replace (IdToChecksum (set_dirty 1%Z (set_kind_map k
             (<[id:=mkLocation pid o l]> (kind_map k st)) st2)))
    with (IdToChecksum st2) by (by destruct k).
  cbn [Packfile Offset Length]. by rewrite Hp.
Qed.

(** ** The intern table (C6) *)

(** C6.  [getOrCreateIdForChecksum] returns the id of a checksum that is
    already interned and leaves the state as it is; for any other checksum
    it assigns the id [len(IdToChecksum)] and stores both directions.  After
    every sequence of intern calls, from a new state or from any state that
    satisfies the invariant, [IdToChecksum] has exactly the keys [0 .. N-1]
    and [checksumToId] is its exact inverse. *)
Theorem intern_table_invariant :
  (∀ st checksum id,
     checksumToId st !! checksum = Some id →
     getOrCreateIdForChecksum st checksum = (st, id)) ∧
  (∀ st checksum,
     checksumToId st !! checksum = None →
     let newID := N.of_nat (size (IdToChecksum st)) in
     let '(st', id) := getOrCreateIdForChecksum st checksum in
     id = newID ∧
     checksumToId st' = <[checksum := newID]> (checksumToId st) ∧
     IdToChecksum st' = <[newID := checksum]> (IdToChecksum st)) ∧
  (∀ now checksums,
     let st := intern_all (New now) checksums in
     (∀ id, is_Some (IdToChecksum st !! id) ↔ id < N.of_nat (size (IdToChecksum st))) ∧
     (∀ checksum id,
        checksumToId st !! checksum = Some id ↔ IdToChecksum st !! id = Some checksum)) ∧
  (∀ st checksums, intern_inv st → intern_inv (intern_all st checksums)).
Proof.
  split; [apply getOrCreate_known|].
  split.
  { intros st c H. rewrite (getOrCreate_fresh st c H). by cbn. }
  split.
  { intros now cs. apply (intern_inv_intern_all (New now) cs), intern_inv_New. }
  apply intern_inv_intern_all.
Qed.

Lemma intern_table_invariant_witness :
  getOrCreateIdForChecksum (intern_all (New 0) [7; 9]) 9 = (intern_all (New 0) [7; 9], 1) ∧
  (getOrCreateIdForChecksum (intern_all (New 0) [7; 9]) 5).2 = 2 ∧
  intern_inv (intern_all (intern_all (New 0) [7; 9]) [9; 5; 7]).
Proof.
  destruct intern_table_invariant as (H1 & H2 & H3 & H4).
  split; [apply H1; vm_compute; reflexivity|].
  split.
  - specialize (H2 (intern_all (New 0) [7; 9]) 5).
    destruct (getOrCreateIdForChecksum (intern_all (New 0) [7; 9]) 5) as [st' id].
    destruct H2 as (-> & _); [vm_compute; reflexivity|]. vm_compute. reflexivity.
  - apply H4. apply (H3 0%Z [7; 9]).
Defined.

(** ** Registration and lookup per kind (C1, C2, C5) *)

(** What [<Kind>Exists] answers on a well-formed state: whether the
    checksum holds a location in the map the function reads. *)
Lemma exists_reads_tested_kind k st m :
  wf st → (exists_ k st m).2 = true ↔ registered (tested_kind k) st m.
Proof.
  intros (Hinv & Hkeys & _). rewrite exists_generic.
  pose proof (getOrCreate_post st m) as P.
  pose proof (getOrCreate_post_inv st m Hinv) as Q.
  pose proof (kind_map_intern (tested_kind k) st m) as K.
  destruct (getOrCreateIdForChecksum st m) as [st' id]. cbn in *.
  rewrite K. split.
  - intros H. destruct (kind_map (tested_kind k) st !! id) as [loc|] eqn:E; [|done].
    exists id. split; [|by eauto].
    destruct (Hkeys (tested_kind k) id) as [c Hc]; [by eauto|].
    pose proof (ip_keep_from Q _ _ Hc) as Hc'.
    rewrite (ip_from Q) in Hc'. injection Hc' as <-. by apply Hinv.
  - intros (id0 & Hid0 & [loc Hloc]).
    pose proof (ip_keep_to P _ _ Hid0) as H.
    rewrite (ip_to P) in H. injection H as ->. by rewrite Hloc.
Qed.

(** A kind whose registration stores into another kind's map does not
    read back what was registered, and its own map is left as it was. *)
Lemma set_location_not_read_back k st p m o l :
  stored_kind k ≠ k → wf st → ¬ registered k st m →
  (location k (set_location k st p m o l) m).2 = (0, 0, 0, false) ∧
  kind_map k (set_location k st p m o l) = kind_map k st.
Proof.
  intros Hk Hwf Hfresh. rewrite set_location_generic.
  destruct (setGeneric_fresh k (stored_kind k) st p m o l Hwf Hfresh)
    as (st2 & pid & id & Hto & Hp & Hm & Hnone & Hst2 & ->).
  assert (kind_map k (set_dirty 1%Z (set_kind_map (stored_kind k)
            (<[id:=mkLocation pid o l]> (kind_map (stored_kind k) st)) st2))
          = kind_map k st) as K.
  { rewrite kind_map_set_dirty, kind_map_set_kind_map.
    rewrite decide_False by done. apply Hst2. }
  split; [|done].
  rewrite location_generic.
  rewrite (getOrCreate_known _ m id) by (by destruct (stored_kind k)).
  cbn [snd]. by rewrite K, Hnone.
Qed.

(** Re-registration under any kind is a no-op on every kind map and on
    the dirty flag. *)
Lemma set_location_registered k st p m o l :
  registered k st m →
  (∀ k', kind_map k' (set_location k st p m o l) = kind_map k' st) ∧
  dirty (set_location k st p m o l) = dirty st.
Proof. rewrite set_location_generic. apply setGeneric_registered. Qed.

(** A first registration under a kind that stores into its own map adds
    exactly one entry to that map, for the checksum's id, raises the dirty
    flag, and from then on the checksum holds a location under the kind. *)
Lemma set_location_fresh_own_map k st p m o l :
  stored_kind k = k → wf st → ¬ registered k st m →
  ∃ id loc,
    kind_map k st !! id = None ∧
    kind_map k (set_location k st p m o l) = <[id := loc]> (kind_map k st) ∧
    (∀ k', k' ≠ k → kind_map k' (set_location k st p m o l) = kind_map k' st) ∧
    Dirty (set_location k st p m o l) = true ∧
    registered k (set_location k st p m o l) m.
Proof.
  intros Hk Hwf Hfresh. rewrite set_location_generic, Hk.
  destruct (setGeneric_fresh k k st p m o l Hwf Hfresh)
    as (st2 & pid & id & Hto & Hp & Hm & Hnone & Hst2 & ->).
  exists id, (mkLocation pid o l). split; [done|].
  split; [|split; [|split]].
  - rewrite kind_map_set_dirty, kind_map_set_kind_map. by rewrite decide_True.
  - intros k' Hk'. rewrite kind_map_set_dirty, kind_map_set_kind_map.
    rewrite decide_False by done. apply Hst2.
  - done.
  - exists id. split; [by destruct k|].
    rewrite kind_map_set_dirty, kind_map_set_kind_map, decide_True by done.
    rewrite lookup_insert_eq. by eauto.
Qed.

(** Registration keeps a state well formed. *)
Lemma wf_setGeneric kt ks st p m o l : wf st → wf (setGeneric kt ks st p m o l).
Proof.
  intros (Hinv & Hkeys & Hpack).
  destruct (setGeneric_unfold kt ks st p m o l) as (st1 & pid & st2 & id & E1 & E2 & ->).
  pose proof (getOrCreate_post_inv st p Hinv) as P1. rewrite E1 in P1. cbn in P1.
  pose proof (getOrCreate_post_inv st1 m (ip_inv P1)) as P2.
  rewrite E2 in P2. cbn in P2.
  assert (∀ k, kind_map k st2 = kind_map k st) as K.
  { intros k. pose proof (kind_map_intern k st p) as K1.
    pose proof (kind_map_intern k st1 m) as K2.
    rewrite E1 in K1. rewrite E2 in K2. cbn [fst] in *. congruence. }
  assert (∀ i, is_Some (IdToChecksum st !! i) → is_Some (IdToChecksum st2 !! i)) as Hmono.
  { intros i [c Hc]. exists c.
    apply (ip_keep_from P2), (ip_keep_from P1), Hc. }
  assert (wf st2) as Hwf2.
  { split; [apply (ip_inv P2)|]. split.
    - intros k i. rewrite K. intros H. by apply Hmono, (Hkeys k).
    - intros k i loc. rewrite K. intros H. by apply Hmono, (Hpack k i). }
  destruct (kind_map kt st !! id) as [?|]; [done|].
  destruct Hwf2 as (Hinv2 & Hkeys2 & Hpack2).
  assert (∀ loc0 k i loc,
            kind_map k (set_dirty 1%Z (set_kind_map ks (<[id:=loc0]> (kind_map ks st)) st2)) !! i
              = Some loc →
            kind_map k st2 !! i = Some loc ∨ (i = id ∧ loc = loc0)) as Hcases.
  { intros loc0 k i loc. rewrite kind_map_set_dirty, kind_map_set_kind_map.
    case_decide as Hk; [|by left]. subst k. rewrite <- K, lookup_insert.
    case_decide; [|by left]. intros [= <-]. by right. }
  split; [|split].
  - destruct Hinv2 as [Hc Hi]. split.
    + intros i. replace (IdToChecksum (set_dirty _ (set_kind_map ks _ st2)))
        with (IdToChecksum st2) by (by destruct ks). apply Hc.
    + intros c i. replace (IdToChecksum (set_dirty _ (set_kind_map ks _ st2)))
        with (IdToChecksum st2) by (by destruct ks).
      replace (checksumToId (set_dirty _ (set_kind_map ks _ st2)))
        with (checksumToId st2) by (by destruct ks). apply Hi.
  - intros k i [loc Hloc].
    replace (IdToChecksum (set_dirty _ (set_kind_map ks _ st2)))
      with (IdToChecksum st2) by (by destruct ks).
    destruct (Hcases _ _ _ _ Hloc) as [H|[-> _]]; [by eapply Hkeys2|].
    rewrite (ip_from P2). by eauto.
  - intros k i loc Hloc.
    replace (IdToChecksum (set_dirty _ (set_kind_map ks _ st2)))
      with (IdToChecksum st2) by (by destruct ks).
    destruct (Hcases _ _ _ _ Hloc) as [H|[-> ->]]; [by eapply Hpack2|].
    cbn. rewrite (ip_keep_from P2 _ _ (ip_from P1)). by eauto.
Qed.

Lemma wf_set_location k st p m o l : wf st → wf (set_location k st p m o l).
Proof. rewrite set_location_generic. apply wf_setGeneric. Qed.

Lemma not_registered_New now k m : ¬ registered k (New now) m.
Proof. intros (id & H & _). cbn in H. by rewrite lookup_empty in H. Qed.

(** C1.  On a well-formed state, register a checksum that holds no
    location under its kind, then look it up under that kind.  For a chunk
    or an object the lookup returns the packfile, offset and length that
    were registered.  For a file, a directory or a blob the lookup reports
    the checksum as absent: the registration left the map of the kind as it
    was. *)
Theorem set_location_then_location k st p m o l :
  wf st → ¬ registered k st m →
  (location k (set_location k st p m o l) m).2
    = match k with
      | KChunk | KObject => (p, o, l, true)
      | KFile | KDirectory | KBlob => (0, 0, 0, false)
      end ∧
  match k with
  | KChunk | KObject => True
  | KFile | KDirectory | KBlob => kind_map k (set_location k st p m o l) = kind_map k st
  end.
Proof.
  intros Hwf Hfresh. destruct k.
  - split; [|done]. by apply set_location_read_back.
  - split; [|done]. by apply set_location_read_back.
  - by apply set_location_not_read_back.
  - by apply set_location_not_read_back.
  - by apply set_location_not_read_back.
Qed.

Lemma set_location_then_location_witness :
  (GetSubpartForChunk (SetPackfileForChunk (New 0) 7 9 10 20) 9).2 = (7, 10, 20, true) ∧
  (GetSubpartForFile (SetPackfileForFile (New 0) 7 9 10 20) 9).2 = (0, 0, 0, false) ∧
  (GetSubpartForDirectory (SetPackfileForDirectory (New 0) 7 9 10 20) 9).2
    = (0, 0, 0, false) ∧
  (GetSubpartForBlob (SetPackfileForBlob (New 0) 7 9 10 20) 9).2 = (0, 0, 0, false) ∧
  Files (SetPackfileForFile (New 0) 7 9 10 20) = Files (New 0).
Proof.
  pose proof (λ k, set_location_then_location k (New 0) 7 9 10 20
                     (wf_New 0) (not_registered_New 0 k 9)) as H.
  split; [exact (proj1 (H KChunk))|].
  split; [exact (proj1 (H KFile))|].
  split; [exact (proj1 (H KDirectory))|].
  split; [exact (proj1 (H KBlob))|].
  exact (proj2 (H KFile)).
Defined.

Lemma wf_loaded_one inDirectories : wf (loaded_one inDirectories).
Proof.
  assert (∀ k id loc, kind_map k (loaded_one inDirectories) !! id = Some loc →
                      id = 0 ∧ loc = mkLocation 1 10 20) as Hk.
  { intros k id loc. destruct k, inDirectories; cbn; rewrite ?lookup_empty; try done.
    all: by intros [-> ->]%lookup_singleton_Some. }
  split; [split|split].
  - intros id. change (size (IdToChecksum (loaded_one inDirectories))) with 2%nat.
    unfold loaded_one. cbn [IdToChecksum].
    rewrite lookup_insert. case_decide as H0; [subst; split; [lia|by eauto]|].
    rewrite lookup_singleton. case_decide as H1; [subst; split; [lia|by eauto]|].
    split; [by intros [? ?]|lia].
  - intros c id. unfold loaded_one. cbn [IdToChecksum checksumToId].
    rewrite !lookup_insert, !lookup_singleton.
    repeat case_decide; subst; split; congruence.
  - intros k id [loc H]. destruct (Hk _ _ _ H) as (-> & ->). by eexists.
  - intros k id loc H. destruct (Hk _ _ _ H) as (-> & ->). by eexists.
Qed.

(** C2.  On a well-formed state, [ChunkExists], [ObjectExists],
    [FileExists] and [DirectoryExists] answer whether the checksum holds a
    location under their kind.  [BlobExists] answers whether it holds one
    under the kind directory: it reads [Directories], not [Blobs]. *)
Theorem exists_by_kind k st m :
  wf st →
  (exists_ k st m).2 = true ↔
  registered (match k with KBlob => KDirectory | _ => k end) st m.
Proof.
  intros Hwf. rewrite (exists_reads_tested_kind k st m Hwf). by destruct k.
Qed.

Lemma exists_by_kind_witness :
  registered KBlob (loaded_one false) 9 ∧
  (GetSubpartForBlob (loaded_one false) 9).2 = (7, 10, 20, true) ∧
  (BlobExists (loaded_one false) 9).2 = false ∧
  ¬ registered KBlob (loaded_one true) 9 ∧
  (GetSubpartForBlob (loaded_one true) 9).2 = (0, 0, 0, false) ∧
  (BlobExists (loaded_one true) 9).2 = true ∧
  (BlobExists (SetPackfileForBlob (New 0) 7 9 10 20) 9).2 = false.
Proof.
  pose proof (exists_by_kind KBlob (loaded_one false) 9 (wf_loaded_one false)) as Hf.
  pose proof (exists_by_kind KBlob (loaded_one true) 9 (wf_loaded_one true)) as Ht.
  pose proof (exists_by_kind KBlob (SetPackfileForBlob (New 0) 7 9 10 20) 9
                (wf_set_location KBlob (New 0) 7 9 10 20 (wf_New 0))) as Hs.
  assert (∀ b k, registered k (loaded_one b) 9 ↔ is_Some (kind_map k (loaded_one b) !! 0))
    as Hreg.
  { intros b k. split.
    - intros (id & Hid & H). vm_compute in Hid. by injection Hid as <-.
    - intros H. exists 0. split; [reflexivity|done]. }
  split; [apply Hreg; by eexists|].
  split; [reflexivity|].
  split.
  { apply not_true_iff_false. intros H. apply Hf, Hreg in H. by destruct H. }
  split.
  { intros H. apply Hreg in H. by destruct H. }
  split; [reflexivity|].
  split.
  { apply Ht, Hreg. by eexists. }
  apply not_true_iff_false. intros H. apply Hs in H.
  destruct H as (id & Hid & Hsome). vm_compute in Hid. injection Hid as <-.
  by destruct Hsome.
Defined.

(** C5.  Registration on a well-formed state.  For a checksum that holds
    a location under the kind, the call changes no map and leaves the dirty
    flag as it was.  For a checksum that holds none, the call stores one
    entry, under the id of the checksum, and raises the dirty flag; for a
    chunk or an object the entry is added to the map of the kind, where the
    id had no entry.  For a file, a directory or a blob the entry goes into
    [Objects], replacing whatever the id had there, the map of the kind is
    left as it was, and the checksum still holds no location under its
    kind, so the next registration stores and raises the flag again. *)
Theorem set_location_registration k st p m o l :
  wf st →
  let st' := set_location k st p m o l in
  (registered k st m →
   (∀ k', kind_map k' st' = kind_map k' st) ∧ dirty st' = dirty st) ∧
  (¬ registered k st m →
   ∃ id packfileID,
     checksumToId st' !! m = Some id ∧
     IdToChecksum st' !! packfileID = Some p ∧
     Dirty st' = true ∧
     match k with
     | KChunk | KObject =>
         kind_map k st !! id = None ∧
         kind_map k st' = <[id := mkLocation packfileID o l]> (kind_map k st) ∧
         (∀ k', k' ≠ k → kind_map k' st' = kind_map k' st) ∧
         registered k st' m
     | KFile | KDirectory | KBlob =>
         Objects st' = <[id := mkLocation packfileID o l]> (Objects st) ∧
         (∀ k', k' ≠ KObject → kind_map k' st' = kind_map k' st) ∧
         ¬ registered k st' m
     end).
Proof.
  intros Hwf st'. split; [by apply set_location_registered|].
  intros Hfresh. subst st'. rewrite set_location_generic.
  destruct (setGeneric_fresh k (stored_kind k) st p m o l Hwf Hfresh)
    as (st2 & pid & id & Hto & Hp & Hm & Hnone & Hst2 & ->).
  set (st' := set_dirty 1%Z (set_kind_map (stored_kind k)
                (<[id:=mkLocation pid o l]> (kind_map (stored_kind k) st)) st2)).
  assert (checksumToId st' = checksumToId st2) as Hcti by (by destruct k).
  assert (IdToChecksum st' = IdToChecksum st2) as Hitc by (by destruct k).
  assert (∀ k', kind_map k' st' =
                if decide (k' = stored_kind k)
                then <[id:=mkLocation pid o l]> (kind_map (stored_kind k) st)
                else kind_map k' st) as Hmaps.
  { intros k'. unfold st'. rewrite kind_map_set_dirty, kind_map_set_kind_map.
    case_decide; [done|apply Hst2]. }
  exists id, pid. rewrite Hcti, Hitc.
  split; [done|]. split; [done|]. split; [done|].
  assert (stored_kind k ≠ k → ¬ registered k st' m) as Hstill.
  { intros Hk (id' & Hid' & Hsome). rewrite Hcti, Hto in Hid'. injection Hid' as <-.
    rewrite Hmaps, decide_False in Hsome by done. rewrite Hnone in Hsome.
    by destruct Hsome. }
  assert (stored_kind k = k → registered k st' m) as Hnow.
  { intros Hk. exists id. rewrite Hcti. split; [done|].
    rewrite Hmaps, decide_True by done. rewrite lookup_insert_eq. by eauto. }
  destruct k; cbn [stored_kind] in *.
  - split; [done|]. split; [by rewrite Hmaps, decide_True|].
    split; [|by apply Hnow]. intros k' Hk'. by rewrite Hmaps, decide_False.
  - split; [done|]. split; [by rewrite Hmaps, decide_True|].
    split; [|by apply Hnow]. intros k' Hk'. by rewrite Hmaps, decide_False.
  - split; [exact (Hmaps KObject)|].
    split; [|by apply Hstill]. intros k' Hk'. by rewrite Hmaps, decide_False.
  - split; [exact (Hmaps KObject)|].
    split; [|by apply Hstill]. intros k' Hk'. by rewrite Hmaps, decide_False.
  - split; [exact (Hmaps KObject)|].
    split; [|by apply Hstill]. intros k' Hk'. by rewrite Hmaps, decide_False.
Qed.

Lemma set_location_registration_witness :
  let st1 := ResetDirty (SetPackfileForFile (New 0) 7 9 10 20) in
  let st2 := SetPackfileForFile st1 8 9 30 40 in
  let ch1 := ResetDirty (SetPackfileForChunk (New 0) 7 9 10 20) in
  let ch2 := SetPackfileForChunk ch1 8 9 30 40 in
  ¬ registered KFile (SetPackfileForFile (New 0) 7 9 10 20) 9 ∧
  Files (SetPackfileForFile (New 0) 7 9 10 20) = ∅ ∧
  Objects st1 !! 1 = Some (mkLocation 0 10 20) ∧
  Objects st2 !! 1 = Some (mkLocation 2 30 40) ∧
  size (Objects st2) = size (Objects st1) ∧
  Dirty st2 = true ∧
  registered KChunk (SetPackfileForChunk (New 0) 7 9 10 20) 9 ∧
  Chunks ch2 = Chunks ch1 ∧
  Dirty ch2 = false.
Proof.
  intros st1 st2 ch1 ch2.
  destruct (set_location_registration KFile (New 0) 7 9 10 20 (wf_New 0)) as [_ Hfile].
  destruct (Hfile (not_registered_New 0 KFile 9))
    as (id & pid & _ & _ & _ & _ & Hkeep & Hstill).
  destruct (set_location_registration KChunk (New 0) 7 9 10 20 (wf_New 0)) as [_ Hchunk].
  destruct (Hchunk (not_registered_New 0 KChunk 9))
    as (id' & pid' & _ & _ & _ & _ & _ & _ & Hnow).
  split; [exact Hstill|].
  split; [exact (Hkeep KFile ltac:(done))|].
  do 4 (split; [vm_compute; reflexivity|]).
  split; [exact Hnow|].
  split; vm_compute; reflexivity.
Defined.

(** ** Serialization (C4) *)

Lemma reversed_eq order : reversed order = foldl reverse_step ∅ order.
Proof. done. Qed.

Lemma reversed_from (acc : gmap MAC N) (order : list (N * MAC)) checksum id :
  NoDup (order.*2) →
  foldl reverse_step acc order !! checksum = Some id ↔
  ((id, checksum) ∈ order ∨ ((checksum ∉ order.*2) ∧ acc !! checksum = Some id)).
Proof.
  revert acc. induction order as [|[i x] order IH]; intros acc Hnd.
  - cbn. split; [intros; right; split; [apply not_elem_of_nil|done]|].
    intros [H|[_ H]]; [by apply elem_of_nil in H|done].
  - cbn in *. apply NoDup_cons in Hnd as [Hx Hnd]. rewrite (IH _ Hnd).
    rewrite elem_of_cons, not_elem_of_cons, lookup_insert.
    split.
    + intros [H|[Hc H]]; [by left; right|].
      case_decide as Hd; [left; left; congruence|right; split; [split|]; congruence].
    + intros [[H|H]|[[Hc1 Hc2] H]].
      * injection H as -> ->. right. split; [done|]. by rewrite decide_True.
      * by left.
      * right. split; [done|]. by rewrite decide_False.
Qed.

(** Every entry of the rebuilt map is an entry of the visiting order, and
    every checksum of the order has an entry. *)
Lemma reversed_sound_from (acc : gmap MAC N) (order : list (N * MAC)) checksum id :
  foldl reverse_step acc order !! checksum = Some id →
  (id, checksum) ∈ order ∨ acc !! checksum = Some id.
Proof.
  revert acc. induction order as [|[i x] order IH]; intros acc H; cbn in *.
  - by right.
  - rewrite elem_of_cons. destruct (IH _ H) as [H'|H'].
    + left. by right.
    + rewrite lookup_insert in H'. case_decide.
      * left. left. congruence.
      * by right.
Qed.

Lemma reversed_sound (order : list (N * MAC)) checksum id :
  reversed order !! checksum = Some id → (id, checksum) ∈ order.
Proof.
  rewrite reversed_eq. intros H.
  destruct (reversed_sound_from _ _ _ _ H) as [|H']; [done|].
  by rewrite lookup_empty in H'.
Qed.

Lemma reversed_keeps_keys (acc : gmap MAC N) (order : list (N * MAC)) checksum :
  is_Some (acc !! checksum) → is_Some (foldl reverse_step acc order !! checksum).
Proof.
  revert acc. induction order as [|[j y] order IH]; intros acc Hs; cbn; [done|].
  apply IH. rewrite lookup_insert. case_decide; eauto.
Qed.

Lemma reversed_complete (order : list (N * MAC)) checksum id :
  (id, checksum) ∈ order → is_Some (reversed order !! checksum).
Proof.
  rewrite reversed_eq. generalize (∅ : gmap MAC N).
  induction order as [|[i x] order IH]; intros acc H; cbn.
  - by apply elem_of_nil in H.
  - apply elem_of_cons in H as [H|H].
    + injection H as <- <-. apply reversed_keeps_keys.
      rewrite lookup_insert_eq. eauto.
    + by apply IH.
Qed.

Lemma NoDup_checksums_of_injective (m : gmap N MAC) (order : list (N * MAC)) :
  (∀ i j c, m !! i = Some c → m !! j = Some c → i = j) →
  iteration_order m order → NoDup (order.*2).
Proof.
  intros Hinj Hperm. unfold iteration_order in Hperm. rewrite Hperm.
  apply NoDup_fmap_2_strong; [|apply NoDup_map_to_list].
  intros [i c] [j c'] Hi Hj. cbn. intros <-.
  apply elem_of_map_to_list in Hi, Hj. f_equal. eauto.
Qed.

Section SerializationFacts.
Variable Marshal : State → result (list byte).
Variable Unmarshal : list byte → result State.

Lemma NewFromBytes_Serialize st body order :
  Version (Metadata_ st) = VERSION →
  Marshal st = Ok body →
  Unmarshal body = Ok (exported st) →
  Serialize Marshal st = Ok (body ++ PutUint32 VERSION) ∧
  NewFromBytes Unmarshal order (body ++ PutUint32 VERSION)
    = Ok (rebuildChecksums order (exported st)).
Proof using Type.
  intros Hv Hm Hu. unfold Serialize, NewFromBytes. rewrite Hm, Hv.
  split; [done|].
  rewrite length_app, length_PutUint32.
  destruct (Nat.ltb_spec (length body + 4) 4) as [Hlt|_]; [lia|].
  replace (length body + 4 - 4)%nat with (length body) by lia.
  rewrite drop_app_length, take_app_length.
  rewrite <- (app_nil_r (PutUint32 VERSION)).
  rewrite Uint32_PutUint32 by (by vm_compute).
  rewrite N.eqb_refl. cbn. by rewrite Hu.
Qed.

(** C4.  For a state [st] of the supported version whose body msgpack
    encodes and decodes back to the exported fields, [Serialize] succeeds
    and [NewFromBytes] on its output succeeds with a state that has the
    table [IdToChecksum], the five location maps and the metadata (with
    the [Extends] lineage) of [st], whatever order [rebuildChecksums]
    visits the table in.  Every entry of the rebuilt [checksumToId] is an
    entry of [IdToChecksum] reversed and every checksum of the table has
    an entry; when the table holds no checksum twice (as the intern
    invariant guarantees) the rebuilt map is its exact inverse. *)
Theorem serialize_roundtrip st body order :
  Version (Metadata_ st) = VERSION →
  Marshal st = Ok body →
  Unmarshal body = Ok (exported st) →
  iteration_order (IdToChecksum st) order →
  ∃ serialized st',
    Serialize Marshal st = Ok serialized ∧
    NewFromBytes Unmarshal order serialized = Ok st' ∧
    IdToChecksum st' = IdToChecksum st ∧
    Chunks st' = Chunks st ∧
    Objects st' = Objects st ∧
    Files st' = Files st ∧
    Directories st' = Directories st ∧
    Blobs st' = Blobs st ∧
    Metadata_ st' = Metadata_ st ∧
    (∀ checksum id,
       checksumToId st' !! checksum = Some id → IdToChecksum st' !! id = Some checksum) ∧
    (∀ checksum id,
       IdToChecksum st' !! id = Some checksum → is_Some (checksumToId st' !! checksum)) ∧
    ((∀ i j c, IdToChecksum st !! i = Some c → IdToChecksum st !! j = Some c → i = j) →
     ∀ checksum id,
       checksumToId st' !! checksum = Some id ↔ IdToChecksum st' !! id = Some checksum).
Proof using Type.
  intros Hv Hm Hu Horder.
  destruct (NewFromBytes_Serialize st body order Hv Hm Hu) as [HS HN].
  exists (body ++ PutUint32 VERSION), (rebuildChecksums order (exported st)).
  do 9 (split; [done|]). cbn. fold (reversed order).
  assert (∀ c i, (i, c) ∈ order ↔ IdToChecksum st !! i = Some c) as Hmem.
  { intros c i. unfold iteration_order in Horder. rewrite Horder.
    apply elem_of_map_to_list. }
  split; [|split].
  - intros c i H. by apply Hmem, reversed_sound.
  - intros c i H. by apply (reversed_complete order c i), Hmem.
  - intros Hinj c i. rewrite <- Hmem, reversed_eq.
    rewrite reversed_from by (by eapply NoDup_checksums_of_injective).
    rewrite lookup_empty. split; [|by left].
    by intros [H|[_ H]].
Qed.
End SerializationFacts.

(** The reference codec decodes what it encoded. *)
Lemma positive_of_bytes_of_positive p : positive_of_bytes (bytes_of_positive p) = Some p.
Proof. induction p as [q IH|q IH|]; cbn; by rewrite ?IH. Qed.

Lemma refUnmarshal_refMarshal st body :
  refMarshal st = Ok body → refUnmarshal body = Ok (exported st).
Proof.
  intros [= <-]. unfold refUnmarshal.
  rewrite positive_of_bytes_of_positive. cbn. by rewrite decode_encode.
Qed.

Lemma injective_of_intern_inv st :
  intern_inv st →
  ∀ i j c, IdToChecksum st !! i = Some c → IdToChecksum st !! j = Some c → i = j.
Proof.
  intros [_ Hi] i j c H1 H2. apply Hi in H1, H2. congruence.
Qed.

Lemma serialize_roundtrip_witness :
  let st := intern_all (New 5) [7; 9] in
  ∃ serialized st',
    Serialize refMarshal st = Ok serialized ∧
    NewFromBytes refUnmarshal (map_to_list (IdToChecksum st)) serialized = Ok st' ∧
    IdToChecksum st' = IdToChecksum st ∧
    Metadata_ st' = Metadata_ st ∧
    (∀ checksum id,
       checksumToId st' !! checksum = Some id ↔ IdToChecksum st' !! id = Some checksum).
Proof.
  intros st.
  destruct (serialize_roundtrip refMarshal refUnmarshal st
              (bytes_of_positive (encode (exported_fields st)))
              (map_to_list (IdToChecksum st)))
    as (serialized & st' & HS & HN & H1 & _ & _ & _ & _ & _ & H7 & _ & _ & Hinv).
  - reflexivity.
  - reflexivity.
  - by apply refUnmarshal_refMarshal.
  - unfold iteration_order. reflexivity.
  - exists serialized, st'. repeat (split; [assumption|]).
    apply Hinv, injective_of_intern_inv, intern_inv_intern_all, intern_inv_New.
Defined.

(** ** Merge (C3) *)

Lemma locate_New now k checksum : locate k (New now) checksum = None.
Proof. unfold locate. cbn. by rewrite lookup_empty. Qed.

Lemma wf_loaded_file : wf loaded_file.
Proof.
  assert (∀ k id loc, kind_map k loaded_file !! id = Some loc →
                      k = KFile ∧ id = 0 ∧ loc = mkLocation 1 10 20) as Hk.
  { intros k id loc. destruct k; cbn; rewrite ?lookup_empty; try done.
    intros [-> ->]%lookup_singleton_Some. done. }
  split; [split|split].
  - intros id. change (size (IdToChecksum loaded_file)) with 2%nat.
    unfold loaded_file. cbn [IdToChecksum].
    rewrite lookup_insert. case_decide as H0; [subst; split; [lia|by eauto]|].
    rewrite lookup_singleton. case_decide as H1; [subst; split; [lia|by eauto]|].
    split; [by intros [? ?]|lia].
  - intros c id. unfold loaded_file. cbn [IdToChecksum checksumToId].
    rewrite !lookup_insert, !lookup_singleton.
    repeat case_decide; subst; split; congruence.
  - intros k id [loc H]. destruct (Hk _ _ _ H) as (-> & -> & ->). by eexists.
  - intros k id loc H. destruct (Hk _ _ _ H) as (-> & -> & ->). by eexists.
Qed.

(** One step of a merge loop that re-registers an entry the receiver
    already holds changes nothing. *)
Lemma set_location_own_entry k st id subpart :
  wf st → kind_map k st !! id = Some subpart →
  set_location k st (lookup0 0 (IdToChecksum st) (Packfile subpart))
                    (lookup0 0 (IdToChecksum st) id) (Offset subpart) (Length subpart) = st.
Proof.
  intros (Hinv & Hkeys & Hpack) Hloc.
  destruct (Hkeys k id) as [m Hm]; [by eauto|].
  destruct (Hpack k id subpart Hloc) as [p Hp].
  unfold lookup0. rewrite Hm, Hp. cbn.
  pose proof (proj2 (proj2 Hinv m id) Hm) as Hm'.
  pose proof (proj2 (proj2 Hinv p (Packfile subpart)) Hp) as Hp'.
  rewrite set_location_generic. unfold setGeneric.
  rewrite (getOrCreate_known st p _ Hp'), (getOrCreate_known st m _ Hm').
  by rewrite Hloc.
Qed.

Lemma mergeLoop_own_entries k st order :
  wf st → (∀ id subpart, (id, subpart) ∈ order → kind_map k st !! id = Some subpart) →
  mergeLoop (set_location k) st order st = st.
Proof.
  intros Hwf. unfold mergeLoop.
  induction order as [|[id subpart] order IH]; intros Hin; [done|].
  cbn. rewrite set_location_own_entry; [|done|apply Hin; by left].
  apply IH. intros id' subpart' H. apply Hin. by right.
Qed.

(** Merging a well-formed state with a delta that is equal to it leaves it
    as it is, in whatever order the maps of the delta are visited. *)
Lemma Merge_idempotent o st stateID :
  wf st → merge_order st o → Merge o st stateID st = st.
Proof.
  intros Hwf (Hc & Ho & Hf & Hd & Hb). unfold Merge.
  assert (∀ k order, iteration_order (kind_map k st) order →
                     mergeLoop (set_location k) st order st = st) as Hloop.
  { intros k order Horder. apply mergeLoop_own_entries; [done|].
    intros id subpart H. apply elem_of_map_to_list.
    unfold iteration_order in Horder. by rewrite <- Horder. }
  pose proof (Hloop KChunk _ Hc) as H. cbn [set_location] in H. rewrite H. clear H.
  pose proof (Hloop KObject _ Ho) as H. cbn [set_location] in H. rewrite H. clear H.
  pose proof (Hloop KFile _ Hf) as H. cbn [set_location] in H. rewrite H. clear H.
  pose proof (Hloop KDirectory _ Hd) as H. cbn [set_location] in H. rewrite H. clear H.
  apply (Hloop KBlob _ Hb).
Qed.

(** *** What a merge does to the contents *)

Lemma locate_unfold k st m :
  locate k st m =
    checksumToId st !! m ≫= λ id,
      kind_map k st !! id ≫= λ subpart,
        Some (lookup0 0 (IdToChecksum st) (Packfile subpart), Offset subpart, Length subpart).
Proof. done. Qed.

Lemma locate_None k st m : locate k st m = None ↔ ¬ registered k st m.
Proof.
  unfold locate, registered. split.
  - intros H (id & Hid & [loc Hloc]). rewrite Hid in H. cbn in H. by rewrite Hloc in H.
  - intros H. destruct (checksumToId st !! m) as [id|] eqn:Hid; [|done]. cbn.
    destruct (kind_map k st !! id) as [loc|] eqn:Hloc; [|done].
    destruct H. exists id. by eauto.
Qed.

Lemma wf_intern st c : wf st → wf (getOrCreateIdForChecksum st c).1.
Proof.
  intros (Hinv & Hkeys & Hpack).
  pose proof (getOrCreate_post_inv st c Hinv) as Q.
  assert (∀ i, is_Some (IdToChecksum st !! i) →
               is_Some (IdToChecksum (getOrCreateIdForChecksum st c).1 !! i)) as Hmono.
  { intros i [x Hx]. exists x. by apply (ip_keep_from Q). }
  split; [apply (ip_inv Q)|]. split.
  - intros k i. rewrite kind_map_intern. intros H. by apply Hmono, (Hkeys k).
  - intros k i loc. rewrite kind_map_intern. intros H. by apply Hmono, (Hpack k i).
Qed.

(** Interning a checksum does not change the contents. *)
Lemma locate_intern k st c m :
  wf st → locate k (getOrCreateIdForChecksum st c).1 m = locate k st m.
Proof.
  intros (Hinv & Hkeys & Hpack).
  pose proof (getOrCreate_post st c) as P.
  pose proof (getOrCreate_post_inv st c Hinv) as Q.
  pose proof (kind_map_intern k st c) as K.
  destruct (getOrCreateIdForChecksum st c) as [st1 id]. cbn [fst snd] in *.
  unfold locate. rewrite K.
  destruct (checksumToId st !! m) as [i|] eqn:Hm.
  - rewrite (ip_keep_to P _ _ Hm). cbn.
    destruct (kind_map k st !! i) as [loc|] eqn:Hloc; [|done]. cbn.
    destruct (Hpack k i loc Hloc) as [x Hx]. unfold lookup0.
    by rewrite Hx, (ip_keep_from Q _ _ Hx).
  - destruct (checksumToId st1 !! m) as [i|] eqn:Hm1; [|done]. cbn.
    destruct (kind_map k st !! i) as [loc|] eqn:Hloc; [|done]. exfalso.
    destruct (Hkeys k i) as [x Hx]; [by eauto|].
    pose proof (ip_keep_from Q _ _ Hx) as Hx1.
    apply (ip_inv Q) in Hm1. rewrite Hm1 in Hx1. injection Hx1 as <-.
    apply Hinv in Hx. congruence.
Qed.

(** The contents after a registration under a kind that stores into its
    own map: the registered checksum gains its location if it had none, and
    nothing else changes. *)
Lemma locate_set_location k st p m o l k' m' :
  stored_kind k = k → wf st →
  locate k' (set_location k st p m o l) m' =
    if decide (k' = k ∧ m' = m ∧ locate k st m = None)
    then Some (p, o, l) else locate k' st m'.
Proof.
  intros Hk Hwf.
  assert (∀ st2, st2 = (getOrCreateIdForChecksum
                         (getOrCreateIdForChecksum st p).1 m).1 →
                 locate k' st2 m' = locate k' st m') as Hsame.
  { intros st2 ->. rewrite locate_intern by (by apply wf_intern).
    by apply locate_intern. }
  assert (registered k st m ∨ ¬ registered k st m) as [Hreg|Hfresh].
  { destruct (locate k st m) as [x|] eqn:E; [left|right; by apply locate_None].
    unfold locate in E. destruct (checksumToId st !! m) as [i|] eqn:Hi; [|done].
    cbn in E. destruct (kind_map k st !! i) as [loc|] eqn:Hki; [|done].
    exists i. by eauto. }
  - rewrite decide_False by (rewrite locate_None; tauto).
    rewrite set_location_generic, Hk.
    destruct (setGeneric_unfold k k st p m o l) as (st1 & pid & st2 & id & E1 & E2 & ->).
    destruct Hreg as (id0 & Hid0 & Hsome).
    pose proof (getOrCreate_post st p) as P1. rewrite E1 in P1. cbn in P1.
    pose proof (getOrCreate_post st1 m) as P2. rewrite E2 in P2. cbn in P2.
    assert (id = id0) as ->.
    { pose proof (ip_keep_to P2 _ _ (ip_keep_to P1 _ _ Hid0)) as H.
      rewrite (ip_to P2) in H. congruence. }
    destruct Hsome as [loc ->]. apply Hsame. rewrite E1. cbn [fst]. by rewrite E2.
  - rewrite set_location_generic, Hk.
    pose proof (wf_intern _ m (wf_intern st p Hwf)) as Hwf2.
    destruct (setGeneric_fresh_explicit k k st p m o l Hwf Hfresh)
      as (Hto & Hp & Hm & Hnone & Hst2 & ->).
    specialize (Hsame _ eq_refl).
    set (pid := (getOrCreateIdForChecksum st p).2) in *.
    set (st2 := (getOrCreateIdForChecksum (getOrCreateIdForChecksum st p).1 m).1) in *.
    set (id := (getOrCreateIdForChecksum (getOrCreateIdForChecksum st p).1 m).2) in *.
    set (st' := set_dirty 1%Z (set_kind_map k
                  (<[id:=mkLocation pid o l]> (kind_map k st)) st2)).
    assert (checksumToId st' = checksumToId st2) as Hcti by (by destruct k).
    assert (IdToChecksum st' = IdToChecksum st2) as Hitc by (by destruct k).
    rewrite (locate_unfold k' st'), Hcti, Hitc.
    destruct (checksumToId st2 !! m') as [i|] eqn:Hm'; cbn.
    + assert (locate k' st m' =
                kind_map k' st !! i ≫= λ subpart,
                  Some (lookup0 0 (IdToChecksum st2) (Packfile subpart),
                        Offset subpart, Length subpart)) as Hrhs.
      { rewrite <- Hsame, locate_unfold, Hm'. cbn. by rewrite Hst2. }
      unfold st'. rewrite kind_map_set_dirty, kind_map_set_kind_map.
      destruct (decide (k' = k)) as [->|Hk'].
      * rewrite lookup_insert.
        destruct (decide (id = i)) as [<-|Hi].
        -- assert (m' = m) as ->.
           { destruct Hwf2 as ((_ & Hi2) & _). apply Hi2 in Hm'. congruence. }
           rewrite decide_True by (by rewrite locate_None).
           cbn. unfold lookup0. by rewrite Hp.
        -- rewrite decide_False; [done|]. intros (_ & -> & _). congruence.
      * rewrite decide_False by tauto. by rewrite Hst2.
    + rewrite decide_False by (intros (_ & -> & _); congruence).
      by rewrite <- Hsame, locate_unfold, Hm'.
Qed.

Lemma mergeLoop_contents k delta order st k' m' :
  stored_kind k = k → wf delta → wf st →
  (∀ id subpart, (id, subpart) ∈ order → kind_map k delta !! id = Some subpart) →
  wf (mergeLoop (set_location k) delta order st) ∧
  locate k' (mergeLoop (set_location k) delta order st) m' =
    match locate k' st m' with
    | Some loc => Some loc
    | None => if decide (k' = k) then listed k delta order m' else None
    end.
Proof.
  intros Hk Hwfd. revert st. unfold mergeLoop.
  induction order as [|[id subpart] order IH]; intros st Hwf Hin; cbn [foldl].
  - split; [done|]. destruct (locate k' st m'); [done|]. case_decide; [|done].
    unfold listed. destruct (checksumToId delta !! m'); [|done]. cbn.
    destruct (kind_map k delta !! _); [|done]. cbn.
    rewrite decide_False; [done|]. apply not_elem_of_nil.
  - remember (lookup0 0 (IdToChecksum delta) (Packfile subpart)) as p eqn:Hpdef.
    remember (lookup0 0 (IdToChecksum delta) id) as m eqn:Hmdef.
    set (st1 := set_location k st p m (Offset subpart) (Length subpart)).
    assert (wf st1) as Hwf1 by (by apply wf_set_location).
    destruct (IH st1 Hwf1) as [Hwf' ->].
    { intros ???. apply Hin. by right. }
    split; [done|].
    unfold st1 at 1. rewrite locate_set_location by done.
    assert (kind_map k delta !! id = Some subpart) as Hentry by (apply Hin; by left).
    assert (checksumToId delta !! m = Some id) as Hmid.
    { destruct Hwfd as (Hinv & Hkeys & _).
      destruct (Hkeys k id) as [x Hx]; [by eauto|].
      rewrite Hmdef. unfold lookup0. rewrite Hx. cbn. by apply Hinv. }
    assert (∀ order', listed k delta ((id, subpart) :: order') m' =
              if decide (m' = m)
              then Some (p, Offset subpart, Length subpart)
              else listed k delta order' m') as Hlisted.
    { intros order'. unfold listed. destruct (decide (m' = m)) as [->|Hm].
      - rewrite Hmid. cbn. rewrite Hentry. cbn.
        rewrite decide_True; [by rewrite Hpdef|by left].
      - destruct (checksumToId delta !! m') as [i|] eqn:Hi; [|done]. cbn.
        destruct (kind_map k delta !! i) as [loc|] eqn:Hloc; [|done]. cbn.
        assert (i ≠ id) as Hne.
        { intros ->. destruct Hwfd as ((_ & Hinv) & _).
          apply Hinv in Hi, Hmid. congruence. }
        destruct (decide ((i, loc) ∈ order')) as [Hio|Hio].
        + rewrite decide_True; [done|by right].
        + rewrite decide_False; [done|].
          intros [?|?]%elem_of_cons; [congruence|done]. }
    rewrite Hlisted.
    destruct (decide (k' = k ∧ m' = m ∧ locate k st m = None)) as [(-> & -> & Hn)|Hno].
    + rewrite Hn, !decide_True by done. done.
    + destruct (locate k' st m') as [loc|] eqn:Hl; [done|].
      destruct (decide (k' = k)) as [->|?]; [|done].
      rewrite decide_False; [done|]. intros ->. tauto.
Qed.

Lemma listed_all k delta order m :
  iteration_order (kind_map k delta) order → listed k delta order m = locate k delta m.
Proof.
  intros Horder. unfold listed, locate.
  destruct (checksumToId delta !! m) as [id|]; [|done]. cbn.
  destruct (kind_map k delta !! id) as [loc|] eqn:Hloc; [|done]. cbn.
  rewrite decide_True; [done|].
  unfold iteration_order in Horder. rewrite Horder. by apply elem_of_map_to_list.
Qed.

Lemma locate_no_entries k st m : kind_map k st = ∅ → locate k st m = None.
Proof.
  intros H. unfold locate. destruct (checksumToId st !! m); [|done]. cbn.
  by rewrite H, lookup_empty.
Qed.

(** Merging a delta without file, directory or blob entries yields the
    contents the two states hold together. *)
Lemma Merge_contents o st stateID delta k m :
  wf st → wf delta → chunks_and_objects_only delta → merge_order delta o →
  locate k (Merge o st stateID delta) m
    = match k with
      | KChunk | KObject => merged k st delta m
      | KFile | KDirectory | KBlob => locate k st m
      end.
Proof.
  intros Hwf Hwfd (Hf & Hd & Hb) (Hoc & Hoo & Hof & Hod & Hob).
  unfold Merge.
  assert (oFiles o = []) as ->.
  { unfold iteration_order in Hof. rewrite Hf, map_to_list_empty in Hof.
    by apply Permutation_nil_r. }
  assert (oDirectories o = []) as ->.
  { unfold iteration_order in Hod. rewrite Hd, map_to_list_empty in Hod.
    by apply Permutation_nil_r. }
  assert (oBlobs o = []) as ->.
  { unfold iteration_order in Hob. rewrite Hb, map_to_list_empty in Hob.
    by apply Permutation_nil_r. }
  cbn [mergeLoop foldl].
  assert (∀ k0 order id subpart, iteration_order (kind_map k0 delta) order →
            (id, subpart) ∈ order → kind_map k0 delta !! id = Some subpart) as Hin.
  { intros k0 order id subpart Horder H. apply elem_of_map_to_list.
    unfold iteration_order in Horder. by rewrite <- Horder. }
  destruct (mergeLoop_contents KChunk delta (oChunks o) st k m eq_refl Hwfd Hwf
              (λ id subpart, Hin KChunk _ id subpart Hoc)) as [_ Hc].
  destruct (mergeLoop_contents KChunk delta (oChunks o) st KChunk m eq_refl Hwfd Hwf
              (λ id subpart, Hin KChunk _ id subpart Hoc)) as [Hwf1 _].
  destruct (mergeLoop_contents KObject delta (oObjects o) _ k m eq_refl Hwfd Hwf1
              (λ id subpart, Hin KObject _ id subpart Hoo)) as [_ Ho].
  cbn [set_location] in *. rewrite Ho, Hc. unfold merged.
  rewrite (listed_all KChunk) by done. rewrite (listed_all KObject) by done.
  destruct k; destruct (locate _ st m); try done; cbn.
  all: by destruct (locate KChunk delta m).
Qed.

(** Merging is commutative on states without file, directory or blob
    entries that agree. *)
Lemma Merge_commutative oa ob a b idA idB :
  wf a → wf b → chunks_and_objects_only a → chunks_and_objects_only b →
  merge_order a oa → merge_order b ob → agree a b →
  same_contents (Merge ob a idB b) (Merge oa b idA a).
Proof.
  intros Hwfa Hwfb Ha Hb Hoa Hob Hagree k m.
  rewrite !Merge_contents by done.
  destruct Ha as (Haf & Had & Hab). destruct Hb as (Hbf & Hbd & Hbb).
  unfold merged.
  destruct k.
  - destruct (locate KChunk a m) eqn:E1, (locate KChunk b m) eqn:E2; try done.
    f_equal. by eapply Hagree.
  - destruct (locate KObject a m) eqn:E1, (locate KObject b m) eqn:E2; try done.
    f_equal. by eapply Hagree.
  - by rewrite !locate_no_entries.
  - by rewrite !locate_no_entries.
  - by rewrite !locate_no_entries.
Qed.

Lemma merge_order_canonical st : merge_order st (canonical_order st).
Proof. unfold merge_order, iteration_order. repeat split; reflexivity. Qed.

(** The maps of [loaded_file] and of a new state hold at most one entry,
    so there is one order to visit them in. *)
Lemma merge_order_loaded_file o : merge_order loaded_file o → o = canonical_order loaded_file.
Proof.
  destruct o as [oc oo ofl od ob]. unfold merge_order, iteration_order, canonical_order.
  cbn. rewrite !map_to_list_empty, map_to_list_singleton.
  intros (->%Permutation_nil_r & ->%Permutation_nil_r & ->%Permutation_singleton_r
          & ->%Permutation_nil_r & ->%Permutation_nil_r). done.
Qed.

Lemma merge_order_New now o : merge_order (New now) o → o = canonical_order (New now).
Proof.
  destruct o as [oc oo ofl od ob]. unfold merge_order, iteration_order, canonical_order.
  cbn. rewrite !map_to_list_empty.
  intros (->%Permutation_nil_r & ->%Permutation_nil_r & ->%Permutation_nil_r
          & ->%Permutation_nil_r & ->%Permutation_nil_r). done.
Qed.

(** C3.  Merge on well-formed states, whatever order the maps of the delta
    are visited in.  Merging a state with a delta equal to it leaves it as
    it is.  Two states that agree and hold no file, directory or blob entry
    merge to the same contents in both directions.  With a file entry this
    fails: [loaded_file] holds one file and a new state holds nothing, so
    the two agree; merging the new state into [loaded_file] leaves the file
    under the kind file, and merging [loaded_file] into the new state
    registers the file through [SetPackfileForFile], which stores it under
    the kind object, so the two results differ on both kinds. *)
Theorem merge_idempotent_commutative_up_to_registration :
  (∀ o st stateID, wf st → merge_order st o → Merge o st stateID st = st) ∧
  (∀ oa ob a b idA idB,
     wf a → wf b → chunks_and_objects_only a → chunks_and_objects_only b →
     merge_order a oa → merge_order b ob → agree a b →
     same_contents (Merge ob a idB b) (Merge oa b idA a)) ∧
  (wf loaded_file ∧ wf (New 0) ∧ agree loaded_file (New 0) ∧
   ∀ oa ob idA idB,
     merge_order loaded_file oa → merge_order (New 0) ob →
     locate KFile (Merge ob loaded_file idB (New 0)) 9 = Some (7, 10, 20) ∧
     locate KFile (Merge oa (New 0) idA loaded_file) 9 = None ∧
     locate KObject (Merge ob loaded_file idB (New 0)) 9 = None ∧
     locate KObject (Merge oa (New 0) idA loaded_file) 9 = Some (7, 10, 20) ∧
     ¬ same_contents (Merge ob loaded_file idB (New 0)) (Merge oa (New 0) idA loaded_file)).
Proof.
  split; [apply Merge_idempotent|].
  split; [apply Merge_commutative|].
  split; [apply wf_loaded_file|].
  split; [apply wf_New|].
  split.
  { intros k c loc1 loc2 _ H. by rewrite locate_New in H. }
  intros oa ob idA idB ->%merge_order_loaded_file ->%merge_order_New.
  assert (locate KFile (Merge (canonical_order (New 0)) loaded_file idB (New 0)) 9
          = Some (7, 10, 20)) as H1 by (vm_compute; reflexivity).
  assert (locate KFile (Merge (canonical_order loaded_file) (New 0) idA loaded_file) 9
          = None) as H2 by (vm_compute; reflexivity).
  do 2 (split; [done|]).
  split; [vm_compute; reflexivity|].
  split; [vm_compute; reflexivity|].
  intros Hsame. specialize (Hsame KFile 9). congruence.
Qed.

Lemma merge_idempotent_commutative_up_to_registration_witness :
  Merge (canonical_order loaded_file) loaded_file 0 loaded_file = loaded_file ∧
  same_contents
    (Merge (canonical_order (SetPackfileForObject (New 0) 7 9 10 20))
           (SetPackfileForChunk (New 0) 7 8 0 10) 0
           (SetPackfileForObject (New 0) 7 9 10 20))
    (Merge (canonical_order (SetPackfileForChunk (New 0) 7 8 0 10))
           (SetPackfileForObject (New 0) 7 9 10 20) 0
           (SetPackfileForChunk (New 0) 7 8 0 10)) ∧
  ¬ same_contents (Merge (canonical_order (New 0)) loaded_file 0 (New 0))
                  (Merge (canonical_order loaded_file) (New 0) 0 loaded_file).
Proof.
  destruct merge_idempotent_commutative_up_to_registration as (Hidem & Hcomm & _ & _ & _ & Hfile).
  split; [apply Hidem; [apply wf_loaded_file|apply merge_order_canonical]|].
  split.
  - apply Hcomm.
    + apply (wf_set_location KChunk), wf_New.
    + apply (wf_set_location KObject), wf_New.
    + by repeat split.
    + by repeat split.
    + apply merge_order_canonical.
    + apply merge_order_canonical.
    + intros k c loc1 loc2 H1 H2. destruct k.
      * by rewrite locate_no_entries in H2.
      * by rewrite locate_no_entries in H1.
      * by rewrite locate_no_entries in H1.
      * by rewrite locate_no_entries in H1.
      * by rewrite locate_no_entries in H1.
  - apply (Hfile _ _ 0 0); apply merge_order_canonical.
Defined.

End StateFacts.

(** * Properties of the snapshot session *)

Module SnapshotFacts.
Import Snapshot SnapshotSpec.

Section SessionFacts.
Context {error : Type} (env : Env error).

Lemma written_register set mac pack checksums w :
  written (register set mac pack checksums w) = written w.
Proof.
  revert w. unfold register. induction checksums as [|c cs IH]; intros w; [done|].
  cbn [foldl]. rewrite IH. by destruct (indexEntry _ _).
Qed.

Lemma copy32_of_32 (checksum : list byte) : length checksum = 32%nat → copy32 checksum = checksum.
Proof.
  intros H. unfold copy32. rewrite H. cbn [Nat.sub replicate].
  rewrite app_nil_r. apply take_ge. lia.
Qed.

Lemma length_copy32 (checksum : list byte) : length (copy32 checksum) = 32%nat.
Proof.
  unfold copy32. rewrite length_app, length_take, length_replicate. lia.
Qed.

Lemma serializedPackfile_trailer serializedData encryptedIndex encryptedFooter version :
  drop (length (serializedPackfile serializedData encryptedIndex encryptedFooter version) - 5)
       (serializedPackfile serializedData encryptedIndex encryptedFooter version)
    = PutUint32 version ++ [byte_of_N (N.of_nat (length encryptedFooter))].
Proof.
  unfold serializedPackfile. cbn zeta.
  rewrite <- (assoc_L (++) _ (PutUint32 version)).
  set (body := (serializedData ++ encryptedIndex) ++ encryptedFooter).
  rewrite length_app. cbn [length app PutUint32].
  replace (length body + 5 - 5)%nat with (length body) by lia.
  by rewrite drop_app_length.
Qed.

(** C7.  When [PutPackfile] returns without an error, it has handed
    exactly one packfile to the repository.  Its bytes are the serialized
    data area, then the encoded index, then the encoded footer, then the
    footer version as four little-endian bytes, then one byte holding the
    length of the encoded footer as a [uint8]; so the last five bytes are
    the version followed by that length byte (which is the length itself
    when it is at most 255).  Its key is the checksum of all these bytes,
    copied into a 32-byte array. *)
Theorem PutPackfile_layout snap pack objects chunks files directories datas snapshots snap' :
  PutPackfile env snap pack objects chunks files directories datas snapshots
    = (snap', Returned None) →
  ∃ serializedData serializedIndex serializedFooter encryptedIndex encryptedFooter key bytes,
    pack_SerializeData env pack = inr serializedData ∧
    pack_SerializeIndex env pack = inr serializedIndex ∧
    pack_SerializeFooter env pack = inr serializedFooter ∧
    repository_Encode env serializedIndex = inr encryptedIndex ∧
    repository_Encode env serializedFooter = inr encryptedFooter ∧
    written (world snap') = (key, bytes) :: written (world snap) ∧
    bytes = serializedData ++ encryptedIndex ++ encryptedFooter
              ++ PutUint32 (Packfile.Version (Packfile.Footer pack))
              ++ [byte_of_N (N.of_nat (length encryptedFooter))] ∧
    drop (length bytes - 5) bytes
      = PutUint32 (Packfile.Version (Packfile.Footer pack))
          ++ [byte_of_N (N.of_nat (length encryptedFooter))] ∧
    (Packfile.Version (Packfile.Footer pack) < 2 ^ 32 →
     Uint32 (drop (length bytes - 5) bytes) = Packfile.Version (Packfile.Footer pack)) ∧
    ((length encryptedFooter ≤ 255)%nat →
     Byte.to_N (byte_of_N (N.of_nat (length encryptedFooter)))
       = N.of_nat (length encryptedFooter)) ∧
    key = copy32 (repository_Checksum env bytes) ∧
    (length (repository_Checksum env bytes) = 32%nat → key = repository_Checksum env bytes).
Proof using Type.
  unfold PutPackfile. intros H.
  destruct (pack_SerializeData env pack) as [?|serializedData]; [done|].
  destruct (pack_SerializeIndex env pack) as [?|serializedIndex]; [done|].
  destruct (pack_SerializeFooter env pack) as [?|serializedFooter]; [done|].
  destruct (repository_Encode env serializedIndex) as [?|encryptedIndex] eqn:EI; [done|].
  destruct (repository_Encode env serializedFooter) as [?|encryptedFooter] eqn:EF; [done|].
  cbn zeta in H.
  set (bytes := serializedPackfile serializedData encryptedIndex encryptedFooter
                  (Packfile.Version (Packfile.Footer pack))) in *.
  destruct (repository_PutPackfile env _ _ _) as [?|]; [done|].
  injection H as <-.
  exists serializedData, serializedIndex, serializedFooter, encryptedIndex, encryptedFooter,
         (copy32 (repository_Checksum env bytes)), bytes.
  do 5 (split; [done|]).
  split. { cbn [world]. by rewrite !written_register. }
  split. { subst bytes. unfold serializedPackfile. by rewrite <- !(assoc_L (++)). }
  split. { apply serializedPackfile_trailer. }
  split.
  { intros Hv. subst bytes. rewrite serializedPackfile_trailer.
    by apply Uint32_PutUint32. }
  split.
  { intros Hlen. rewrite to_N_byte_of_N. apply N.mod_small. change (2 ^ 8) with 256. lia. }
  split; [done|]. intros H32. by apply copy32_of_32.
Qed.

Lemma send_closed (ch : Chan) msg :
  closed ch = true → send ch msg = (ch, Panicked (E:=error) "send on closed channel").
Proof. intros H. unfold send. by rewrite H. Qed.

Lemma enqueue_closed snap count msg :
  closed (packerChan snap) = true →
  (enqueue (error:=error) snap count msg).2 = Panicked "send on closed channel" ∧
  packerChan (enqueue (error:=error) snap count msg).1 = packerChan snap.
Proof. intros H. unfold enqueue. rewrite (send_closed _ _ H). by destruct count as [[[? ?] ?]|]. Qed.

(** [Commit] returns [nil] only after it has closed the channel. *)
Lemma Commit_closes snap now snap' :
  Commit env snap now = (snap', Returned None) → closed (packerChan snap') = true.
Proof using Type.
  unfold Commit. intros H.
  destruct (Header_Serialize env (Header_ snap)) as [?|serializedHdr]; [done|].
  destruct (PutHeader _ _ _ _ _) as [snap1 [[e|]|msg]]; try done.
  destruct (close (packerChan snap1)) as [ch|]; [|done].
  destruct (packers env _ _) as [w [msg|]]; [done|].
  destruct (State.Serialize _ _) as [serialized|e]; [|done].
  destruct (repository_PutState env _ _ _) as [e|]; [done|].
  by injection H as <-.
Qed.

(** Every [Put<Kind>] is: encode, then count and send. *)
Lemma put_unfold op snap now checksum data :
  ∃ count msg,
    put env op snap now checksum data
      = match repository_Encode env data with
        | inl err => (snap, Returned (Some err))
        | inr encoded => enqueue snap (count encoded) (msg encoded)
        end.
Proof.
  destruct op; cbn [put].
  - by exists (λ _, None), (λ encoded, mkPackerMsg now Packfile.TYPE_SNAPSHOT checksum encoded).
  - by exists (λ _, Some (ChunksTransferCount, ChunksTransferSize, N.of_nat (length data))),
              (λ encoded, mkPackerMsg now Packfile.TYPE_CHUNK checksum encoded).
  - by exists (λ encoded,
                 Some (DataTransferCount, DataTransferSize, N.of_nat (length encoded))),
              (λ encoded, mkPackerMsg now Packfile.TYPE_DATA checksum encoded).
  - by exists (λ encoded,
                 Some (ObjectsTransferCount, ObjectsTransferSize, N.of_nat (length encoded))),
              (λ encoded, mkPackerMsg now Packfile.TYPE_OBJECT checksum encoded).
  - by exists (λ encoded,
                 Some (VFSFilesTransferCount, VFSFilesTransferSize, N.of_nat (length encoded))),
              (λ encoded, mkPackerMsg now Packfile.TYPE_FILE checksum encoded).
  - by exists (λ encoded,
                 Some (VFSDirectoriesTransferCount, VFSDirectoriesTransferSize,
                       N.of_nat (length encoded))),
              (λ encoded, mkPackerMsg now Packfile.TYPE_DIRECTORY checksum encoded).
Qed.

(** C8, as the code has it.  On a session whose packer channel is closed,
    and so on every session [Commit] has returned [nil] for, each of the six
    [Put<Kind>] operations either returns the error of [repository.Encode],
    when encoding the data fails, or panics with Go's "send on closed
    channel"; the channel stays closed.  None of them returns [nil]. *)
Theorem Put_on_closed_channel snap op now checksum data :
  (closed (packerChan snap) = true ∨
   ∃ snap0 now0, Commit env snap0 now0 = (snap, Returned None)) →
  (put env op snap now checksum data).2
    = match repository_Encode env data with
      | inl err => Returned (Some err)
      | inr _ => Panicked "send on closed channel"
      end ∧
  (put env op snap now checksum data).2 ≠ Returned None ∧
  closed (packerChan (put env op snap now checksum data).1) = true.
Proof using Type.
  intros H.
  assert (closed (packerChan snap) = true) as Hc.
  { destruct H as [H|(snap0 & now0 & H)]; [done|]. by eapply Commit_closes. }
  destruct (put_unfold op snap now checksum data) as (count & msg & ->).
  destruct (repository_Encode env data) as [err|encoded]; [done|].
  destruct (enqueue_closed snap (count encoded) (msg encoded) Hc) as [-> ->]. done.
Qed.

End SessionFacts.

Lemma PutPackfile_layout_witness :
  ∃ key bytes,
    written (world (PutPackfile exEnv (exSnapshot false) exPack [] [9] [] [] [] []).1)
      = [(key, bytes)] ∧
    bytes = [x68; x65; x6c; x6c; x6f; x2a; x01; x02; x03; x2a; x04; x05;
             x64; x00; x00; x00; x03] ∧
    key = replicate 32 x11.
Proof.
  destruct (PutPackfile_layout exEnv (exSnapshot false) exPack [] [9] [] [] [] []
              (PutPackfile exEnv (exSnapshot false) exPack [] [9] [] [] [] []).1)
    as (sd & si & sf & ei & ef & key & bytes & Hsd & Hsi & Hsf & Hei & Hef & Hw & Hb
        & _ & _ & _ & Hk & _).
  - vm_compute. reflexivity.
  - exists key, bytes. split; [exact Hw|].
    injection Hsd as <-. injection Hsi as <-. injection Hsf as <-.
    injection Hei as <-. injection Hef as <-.
    split; [exact Hb|]. rewrite Hk, Hb. vm_compute. reflexivity.
Defined.

(** On a closed session whose encoder succeeds, [PutChunk] panics: it
    returns no error at all. *)
Lemma PutChunk_closed_panics :
  (PutChunk exEnv (exSnapshot true) 0 9 [x01]).2 = Panicked "send on closed channel" ∧
  ¬ ∃ err : string, (PutChunk exEnv (exSnapshot true) 0 9 [x01]).2 = Returned (Some err).
Proof. split; [reflexivity|]. intros [err H]. vm_compute in H. discriminate H. Qed.

Lemma Put_on_closed_channel_witness :
  (put exEnv OpFile (exSnapshot true) 0 9 [x01]).2 = Panicked "send on closed channel" ∧
  (put exEnv OpFile (exSnapshot true) 0 9 [x01]).2 ≠ Returned None.
Proof.
  destruct (Put_on_closed_channel exEnv (exSnapshot true) OpFile 0 9 [x01]) as (H1 & H2 & _).
  - left. reflexivity.
  - split; [exact H1|exact H2].
Defined.

End SnapshotFacts.

(** * Properties of the VFS file entry *)

Module VfsFacts.
Import Vfs VfsSpec.

(** The order [string_less] decides is a strict total order. *)
Lemma string_less_lt a b : string_less a b = true ↔ String_as_OT.lt a b.
Proof.
  unfold string_less, String.ltb, String_as_OT.lt.
  change (String.compare a b) with (String_as_OT.compare a b).
  destruct (String_as_OT.compare a b); split; congruence.
Qed.

Lemma string_less_irrefl a : string_less a a = false.
Proof.
  apply not_true_iff_false. rewrite string_less_lt.
  apply (irreflexivity String_as_OT.lt).
Qed.

Lemma string_less_trans a b c :
  string_less a b = true → string_less b c = true → string_less a c = true.
Proof. rewrite !string_less_lt. apply (transitivity (R:=String_as_OT.lt)). Qed.

Lemma string_less_trichotomy a b :
  string_less a b = false → string_less b a = false → a = b.
Proof.
  intros H1 H2. apply not_true_iff_false in H1, H2. rewrite string_less_lt in H1, H2.
  destruct (String_as_OT.compare_spec a b) as [E|L|G];
    [done|by destruct H1|by destruct H2].
Qed.

Lemma string_less_neg_trans a b c :
  string_less a b = false → string_less b c = false → string_less a c = false.
Proof.
  intros H1 H2. apply not_true_iff_false. intros H3.
  destruct (string_less c b) eqn:Hcb.
  - pose proof (string_less_trans _ _ _ H3 Hcb). congruence.
  - pose proof (string_less_trichotomy _ _ H2 Hcb). subst. congruence.
Qed.

Lemma less_by_name_strict_weak_order : strict_weak_order less_by_name.
Proof.
  split; [|split].
  - intros x. apply string_less_irrefl.
  - intros x y z. apply string_less_trans.
  - intros x y z. apply string_less_neg_trans.
Qed.

(** The reference sort does what [sort.Slice] promises. *)
Lemma sorts_refSort : sorts refSort.
Proof.
  intros A less l (Hirr & Htrans & Hneg). unfold refSort. split.
  - apply merge_sort_Permutation.
  - apply @StronglySorted_merge_sort.
    + intros x y z Hxy Hyz. by apply (Hneg z y x).
    + intros x y. destruct (less y x) eqn:Hyx; [|by left].
      right. destruct (less x y) eqn:Hxy; [|done].
      pose proof (Htrans _ _ _ Hxy Hyx) as H. by rewrite Hirr in H.
Qed.

Lemma appended_attributes acc (order : list (string * list byte)) :
  foldl (λ acc '(name, value), acc ++ [mkExtendedAttribute name value]) acc order
    = acc ++ (attribute_of <$> order).
Proof.
  revert acc. induction order as [|[name value] order IH]; intros acc; cbn.
  - by rewrite app_nil_r.
  - rewrite IH. by rewrite <- (assoc_L (++)).
Qed.

Lemma NoDup_attribute_names (m : gmap string (list byte)) l :
  l ≡ₚ attribute_of <$> map_to_list m → NoDup (Name <$> l).
Proof.
  intros ->. rewrite <- list_fmap_compose.
  replace (Name ∘ attribute_of) with (@fst string (list byte)) by done.
  apply NoDup_fst_map_to_list.
Qed.

Lemma attribute_by_name (m : gmap string (list byte)) l a b :
  l ≡ₚ attribute_of <$> map_to_list m → a ∈ l → b ∈ l → Name a = Name b → a = b.
Proof.
  intros Hl Ha Hb Hname. rewrite Hl in Ha, Hb.
  apply list_elem_of_fmap in Ha as ([na va] & -> & Ha).
  apply list_elem_of_fmap in Hb as ([nb vb] & -> & Hb).
  cbn in Hname. subst nb.
  apply elem_of_map_to_list in Ha, Hb. unfold attribute_of. cbn. congruence.
Qed.

Lemma strictly_sorted_of_sorted (l : list ExtendedAttribute) :
  NoDup (Name <$> l) →
  StronglySorted (λ x y, less_by_name y x = false) l →
  StronglySorted (λ x y, string_less (Name x) (Name y) = true) l.
Proof.
  intros Hnd Hs. induction Hs as [|x l Hs IH Hx]; [constructor|].
  cbn in Hnd. apply NoDup_cons in Hnd as [Hnotin Hnd].
  constructor; [by apply IH|].
  rewrite Forall_forall in Hx |- *. intros y Hy.
  destruct (string_less (Name x) (Name y)) eqn:Hxy; [done|].
  exfalso. apply Hnotin.
  rewrite (string_less_trichotomy _ _ Hxy (Hx y Hy)).
  apply list_elem_of_fmap. by exists y.
Qed.

Section EntriesFacts.
Context {RecordType FileInfo AlternateDataStream CustomMetadataT
         ObjectsCustomMetadata ObjectRest error : Type}.
Variable VERSION : N.
Variable sortSlice : ∀ A, (A → A → bool) → list A → list A.
Variable Unmarshal :
  list byte →
  error + FileEntry RecordType FileInfo AlternateDataStream CustomMetadataT
                    ObjectsCustomMetadata ObjectRest.

(** C9.  Whenever [FileEntryFromBytes] returns an entry, each of its
    collections [AlternateDataStreams], [SecurityDescriptor],
    [ExtendedAttributes], [CustomMetadata] and [Tags] is non-nil: it is the
    collection that was decoded, or the empty one when the decoded field
    was nil.  The same holds for the [CustomMetadata] and [Tags] of its
    [Object] whenever the object is present. *)
Theorem FileEntryFromBytes_collections_non_nil serialized f :
  FileEntryFromBytes Unmarshal serialized = inr f →
  ∃ f0,
    Unmarshal serialized = inr f0 ∧
    AlternateDataStreams f = Some (default [] (AlternateDataStreams f0)) ∧
    SecurityDescriptor f = Some (default [] (SecurityDescriptor f0)) ∧
    ExtendedAttributes f = Some (default [] (ExtendedAttributes f0)) ∧
    CustomMetadata f = Some (default [] (CustomMetadata f0)) ∧
    Tags f = Some (default [] (Tags f0)) ∧
    (Object f0 = None → Object f = None) ∧
    (∀ o0, Object f0 = Some o0 →
       ∃ o, Object f = Some o ∧
            Objects.CustomMetadata o = Some (default [] (Objects.CustomMetadata o0)) ∧
            Objects.Tags o = Some (default [] (Objects.Tags o0))) ∧
    (∀ o, Object f = Some o →
       is_Some (Objects.CustomMetadata o) ∧ is_Some (Objects.Tags o)).
Proof using Type.
  unfold FileEntryFromBytes. intros H.
  destruct (Unmarshal serialized) as [err|f0]; [done|].
  injection H as <-. exists f0. cbn.
  split; [done|].
  split; [by destruct (AlternateDataStreams f0)|].
  split; [by destruct (SecurityDescriptor f0)|].
  split; [by destruct (ExtendedAttributes f0)|].
  split; [by destruct (CustomMetadata f0)|].
  split; [by destruct (Tags f0)|].
  split; [by intros ->|].
  split.
  - intros o0 ->. eexists. split; [done|]. cbn.
    by destruct (Objects.CustomMetadata o0), (Objects.Tags o0).
  - intros o. destruct (Object f0) as [o0|]; [|done].
    intros [= <-]. cbn.
    destruct (Objects.CustomMetadata o0), (Objects.Tags o0); by eauto.
Qed.

(** C10.  Given a [sort.Slice] that sorts, the entry [NewFileEntry] builds
    carries the attributes of the record, one per name, in strictly
    ascending order of their names; and two runs that visit the attribute
    map of the record in different orders build the same entry. *)
Theorem NewFileEntry_sorted_deterministic parentPath
    (record : ScanRecord RecordType FileInfo) order1 order2 :
  sorts sortSlice →
  iteration_order (RExtendedAttributes record) order1 →
  iteration_order (RExtendedAttributes record) order2 →
  let entry1 : FileEntry RecordType FileInfo AlternateDataStream CustomMetadataT
                         ObjectsCustomMetadata ObjectRest :=
    NewFileEntry VERSION sortSlice order1 parentPath record in
  let entry2 : FileEntry RecordType FileInfo AlternateDataStream CustomMetadataT
                         ObjectsCustomMetadata ObjectRest :=
    NewFileEntry VERSION sortSlice order2 parentPath record in
  (∃ attributes,
     ExtendedAttributes entry1 = Some attributes ∧
     attributes ≡ₚ attribute_of <$> map_to_list (RExtendedAttributes record) ∧
     StronglySorted (λ a b, string_less (Name a) (Name b) = true) attributes) ∧
  entry1 = entry2.
Proof using Type.
  intros Hsort H1 H2. unfold NewFileEntry. cbn zeta. rewrite !appended_attributes. cbn [app].
  fold less_by_name.
  destruct (Hsort _ less_by_name (attribute_of <$> order1) less_by_name_strict_weak_order)
    as [Hp1 Hs1].
  destruct (Hsort _ less_by_name (attribute_of <$> order2) less_by_name_strict_weak_order)
    as [Hp2 Hs2].
  unfold iteration_order in H1, H2.
  assert (sortSlice _ less_by_name (attribute_of <$> order1)
            ≡ₚ attribute_of <$> map_to_list (RExtendedAttributes record)) as Hp1'
    by (etrans; [exact Hp1|by apply fmap_Permutation]).
  assert (sortSlice _ less_by_name (attribute_of <$> order2)
            ≡ₚ attribute_of <$> map_to_list (RExtendedAttributes record)) as Hp2'
    by (etrans; [exact Hp2|by apply fmap_Permutation]).
  clear Hp1 Hp2. rename Hp1' into Hp1. rename Hp2' into Hp2.
  split.
  - eexists. split; [done|]. split; [done|].
    apply strictly_sorted_of_sorted; [|done].
    by eapply NoDup_attribute_names.
  - do 2 f_equal.
    apply (StronglySorted_unique_strong (λ x y, less_by_name y x = false)); [|done|done|].
    + intros x1 x2 Hx1 Hx2 Ha Hb.
      eapply (attribute_by_name _ _ _ _ Hp1); [done| |].
      * by rewrite Hp1, <- Hp2.
      * by apply string_less_trichotomy.
    + by rewrite Hp1, Hp2.
Qed.

End EntriesFacts.

Lemma FileEntryFromBytes_collections_non_nil_witness :
  FileEntryFromBytes exUnmarshal [x80] = inr exDecoded ∧
  AlternateDataStreams exDecoded = Some [] ∧
  SecurityDescriptor exDecoded = Some [] ∧
  ExtendedAttributes exDecoded = Some [] ∧
  CustomMetadata exDecoded = Some [] ∧
  Tags exDecoded = Some [] ∧
  ∃ o, Object exDecoded = Some o ∧
       Objects.CustomMetadata o = Some [] ∧
       Objects.Tags o = Some [].
Proof.
  destruct (FileEntryFromBytes_collections_non_nil exUnmarshal [x80] exDecoded eq_refl)
    as (f0 & Hf0 & H1 & H2 & H3 & H4 & H5 & _ & H6 & _).
  injection Hf0 as <-.
  destruct (H6 _ eq_refl) as (o & Ho & Ho1 & Ho2).
  split; [reflexivity|].
  split; [exact H1|]. split; [exact H2|]. split; [exact H3|].
  split; [exact H4|]. split; [exact H5|].
  exists o. split; [exact Ho|]. split; [exact Ho1|exact Ho2].
Defined.

Lemma NewFileEntry_sorted_deterministic_witness :
  let entry1 : exEntry :=
    NewFileEntry 1 refSort [("user.b"%string, [x01]); ("user.a"%string, [x02])]
                 "/" exRecord in
  let entry2 : exEntry :=
    NewFileEntry 1 refSort [("user.a"%string, [x02]); ("user.b"%string, [x01])]
                 "/" exRecord in
  entry1 = entry2 ∧
  ExtendedAttributes entry1
    = Some [mkExtendedAttribute "user.a" [x02]; mkExtendedAttribute "user.b" [x01]].
Proof.
  assert (map_to_list (RExtendedAttributes exRecord)
          ≡ₚ [("user.b"%string, [x01]); ("user.a"%string, [x02])]) as Hm.
  { unfold exRecord. cbn [RExtendedAttributes].
    rewrite map_to_list_insert by (by apply lookup_singleton_ne).
    by rewrite map_to_list_singleton. }
  destruct (NewFileEntry_sorted_deterministic
              (AlternateDataStream:=unit) (CustomMetadataT:=unit)
              (ObjectsCustomMetadata:=unit) (ObjectRest:=unit)
              1 refSort "/" exRecord
              [("user.b"%string, [x01]); ("user.a"%string, [x02])]
              [("user.a"%string, [x02]); ("user.b"%string, [x01])])
    as [_ Heq].
  - apply sorts_refSort.
  - unfold iteration_order. by rewrite Hm.
  - unfold iteration_order. rewrite Hm. apply Permutation_swap.
  - split; [exact Heq|]. vm_compute. reflexivity.
Defined.

End VfsFacts.

(** * Further properties of the repository state *)

Module StateOpsFacts.
Import State StateSpec StateOps StateOpsSpec StateFacts.

Lemma packfile_of_generic k st m :
  packfile_of k st m =
    let '(st', id) := getOrCreateIdForChecksum st m in
    (st', packfileResult st' (kind_map k st' !! id)).
Proof. by destruct k. Qed.

(** The three lookups leave the state that interning the checksum leaves. *)
Lemma lookup_states k st m :
  (location k st m).1 = (getOrCreateIdForChecksum st m).1 ∧
  (packfile_of k st m).1 = (getOrCreateIdForChecksum st m).1 ∧
  (exists_ k st m).1 = (getOrCreateIdForChecksum st m).1.
Proof.
  rewrite location_generic, packfile_of_generic, exists_generic.
  by destruct (getOrCreateIdForChecksum st m).
Qed.

Lemma wf_mergeLoop k delta order st : wf st → wf (mergeLoop (set_location k) delta order st).
Proof.
  unfold mergeLoop. revert st.
  induction order as [|[id subpart] order IH]; intros st Hwf; [done|].
  cbn [foldl]. apply IH. by apply wf_set_location.
Qed.

Lemma wf_Merge o st stateID delta : wf st → wf (Merge o st stateID delta).
Proof.
  intros Hwf. unfold Merge.
  apply (wf_mergeLoop KBlob), (wf_mergeLoop KDirectory), (wf_mergeLoop KFile),
        (wf_mergeLoop KObject), (wf_mergeLoop KChunk), Hwf.
Qed.

Lemma wf_run_op st op : wf st → wf (run_op st op).
Proof.
  intros Hwf. destruct op as [k p m o l|k m|k m|k m|stateID| |o stateID delta]; cbn [run_op].
  - by apply wf_set_location.
  - rewrite (proj1 (lookup_states k st m)). by apply wf_intern.
  - rewrite (proj1 (proj2 (lookup_states k st m))). by apply wf_intern.
  - rewrite (proj2 (proj2 (lookup_states k st m))). by apply wf_intern.
  - destruct Hwf as (Hinv & Hkeys & Hpack). split; [|split]; [exact Hinv| |].
    + intros k. exact (Hkeys k).
    + intros k. exact (Hpack k).
  - destruct Hwf as (Hinv & Hkeys & Hpack). split; [|split]; [exact Hinv| |].
    + intros k. exact (Hkeys k).
    + intros k. exact (Hpack k).
  - by apply wf_Merge.
Qed.

Lemma wf_run ops st : wf st → wf (run ops st).
Proof.
  unfold run. revert st. induction ops as [|op ops IH]; intros st Hwf; [done|].
  cbn [foldl]. by apply IH, wf_run_op.
Qed.

(** X1.  Every method of [State] keeps a well-formed state well formed:
    after any sequence of registrations, lookups, [Extends], [ResetDirty]
    and merges (of any delta, with its maps visited in any order), the
    intern table still has the keys [0 .. N-1] with [checksumToId] as its
    inverse, and every key and every packfile id of the five maps is
    interned.  In particular every state built from [New] is well formed. *)
Theorem calls_keep_well_formed ops :
  (∀ now, wf (run ops (New now))) ∧ (∀ st, wf st → wf (run ops st)).
Proof.
  split.
  - intros now. apply wf_run, wf_New.
  - apply wf_run.
Qed.

Lemma calls_keep_well_formed_witness :
  wf (run exCalls (New 0)) ∧ wf (run exCalls loaded_file).
Proof.
  split.
  - apply (proj1 (calls_keep_well_formed exCalls)).
  - apply (proj2 (calls_keep_well_formed exCalls)), wf_loaded_file.
Defined.

(** *** What no call changes *)

Lemma persists_refl st : persists st st.
Proof. by repeat split. Qed.

Lemma persists_trans s1 s2 s3 : persists s1 s2 → persists s2 s3 → persists s1 s3.
Proof.
  intros (F1 & D1 & B1 & C1 & I1 & V1 & T1 & E1) (F2 & D2 & B2 & C2 & I2 & V2 & T2 & E2).
  repeat split; try congruence.
  - intros id loc H. by apply C2, C1.
  - intros c id H. by apply I2, I1.
  - by etrans.
Qed.

Lemma persists_intern st c : persists st (getOrCreateIdForChecksum st c).1.
Proof.
  destruct (getOrCreate_post st c) as [_ Hkeep Hc _ Hf Hd Hb Hm _].
  repeat split; try done; try (by rewrite Hm).
  intros id loc. by rewrite Hc.
Qed.

Lemma persists_set_location k st p m o l : persists st (set_location k st p m o l).
Proof.
  rewrite set_location_generic.
  destruct (setGeneric_unfold k (stored_kind k) st p m o l)
    as (st1 & pid & st2 & id & E1 & E2 & ->).
  assert (persists st st2) as H2.
  { apply (persists_trans _ st1).
    - pose proof (persists_intern st p) as H. by rewrite E1 in H.
    - pose proof (persists_intern st1 m) as H. by rewrite E2 in H. }
  assert (Chunks st2 = Chunks st) as HC.
  { pose proof (kind_map_intern KChunk st p) as K1.
    pose proof (kind_map_intern KChunk st1 m) as K2.
    rewrite E1 in K1. rewrite E2 in K2. cbn in K1, K2. congruence. }
  destruct (kind_map k st !! id) as [loc0|] eqn:Hid; [done|].
  destruct H2 as (F & D & B & C & I & V & T & E).
  destruct k; cbn [stored_kind set_kind_map]; repeat split; try done.
  intros i loc Hloc. cbn. rewrite lookup_insert_ne; [done|].
  intros <-. cbn in Hid. congruence.
Qed.

Lemma persists_mergeLoop k delta order st :
  persists st (mergeLoop (set_location k) delta order st).
Proof.
  unfold mergeLoop. revert st.
  induction order as [|[id subpart] order IH]; intros st; [apply persists_refl|].
  cbn [foldl]. eapply persists_trans; [|apply IH]. apply persists_set_location.
Qed.

Lemma persists_run_op st op : persists st (run_op st op).
Proof.
  destruct op as [k p m o l|k m|k m|k m|stateID| |o stateID delta]; cbn [run_op].
  - apply persists_set_location.
  - rewrite (proj1 (lookup_states k st m)). apply persists_intern.
  - rewrite (proj1 (proj2 (lookup_states k st m))). apply persists_intern.
  - rewrite (proj2 (proj2 (lookup_states k st m))). apply persists_intern.
  - repeat split; try done. cbn. by apply prefix_app_r.
  - by repeat split.
  - unfold Merge.
    eapply persists_trans; [|apply (persists_mergeLoop KBlob)].
    eapply persists_trans; [|apply (persists_mergeLoop KDirectory)].
    eapply persists_trans; [|apply (persists_mergeLoop KFile)].
    eapply persists_trans; [|apply (persists_mergeLoop KObject)].
    apply (persists_mergeLoop KChunk).
Qed.

Lemma persists_run ops st : persists st (run ops st).
Proof.
  unfold run. revert st. induction ops as [|op ops IH]; intros st; [apply persists_refl|].
  cbn [foldl]. eapply persists_trans; [apply persists_run_op|apply IH].
Qed.

(** X2.  No method of [State] ever writes [Files], [Directories] or
    [Blobs], changes or removes an entry of [Chunks], or changes the id of
    an interned checksum: after any sequence of calls on any state (merges
    of deltas that hold file, directory or blob entries included) the three
    maps are what they were and every chunk entry and every interned id is
    still there.  The version and the creation time stay, and the lineage
    only grows at its end. *)
Theorem calls_never_store_files ops st :
  Files (run ops st) = Files st ∧
  Directories (run ops st) = Directories st ∧
  Blobs (run ops st) = Blobs st ∧
  (∀ id loc, Chunks st !! id = Some loc → Chunks (run ops st) !! id = Some loc) ∧
  (∀ checksum id, checksumToId st !! checksum = Some id →
                  checksumToId (run ops st) !! checksum = Some id) ∧
  Version (Metadata_ (run ops st)) = Version (Metadata_ st) ∧
  CreationTime (Metadata_ (run ops st)) = CreationTime (Metadata_ st) ∧
  Extends (Metadata_ st) `prefix_of` Extends (Metadata_ (run ops st)).
Proof. apply persists_run. Qed.

Lemma no_entry_answers k st m :
  kind_map k st = ∅ →
  (location k st m).2 = (0, 0, 0, false) ∧ (packfile_of k st m).2 = (0, false).
Proof.
  intros Hk. rewrite location_generic, packfile_of_generic.
  pose proof (kind_map_intern k st m) as K.
  destruct (getOrCreateIdForChecksum st m) as [st' id]. cbn [fst snd] in *.
  by rewrite K, Hk, lookup_empty.
Qed.

Lemma no_entry_exists k st m :
  kind_map (tested_kind k) st = ∅ → (exists_ k st m).2 = false.
Proof.
  intros Hk. rewrite exists_generic.
  pose proof (kind_map_intern (tested_kind k) st m) as K.
  destruct (getOrCreateIdForChecksum st m) as [st' id]. cbn [fst snd] in *.
  by rewrite K, Hk, lookup_empty.
Qed.

(** X3.  A state built from [New] by any sequence of calls holds no file,
    no directory and no blob: [FileExists], [DirectoryExists] and
    [BlobExists] answer false for every checksum, and [GetSubpartFor] and
    [GetPackfileFor] of these three kinds report every checksum as absent,
    also right after [SetPackfileForFile] (or Directory, or Blob)
    registered it and after merging deltas that hold such entries. *)
Theorem built_states_hold_no_files now ops m :
  (FileExists (run ops (New now)) m).2 = false ∧
  (DirectoryExists (run ops (New now)) m).2 = false ∧
  (BlobExists (run ops (New now)) m).2 = false ∧
  (GetSubpartForFile (run ops (New now)) m).2 = (0, 0, 0, false) ∧
  (GetSubpartForDirectory (run ops (New now)) m).2 = (0, 0, 0, false) ∧
  (GetSubpartForBlob (run ops (New now)) m).2 = (0, 0, 0, false) ∧
  (GetPackfileForFile (run ops (New now)) m).2 = (0, false) ∧
  (GetPackfileForDirectory (run ops (New now)) m).2 = (0, false) ∧
  (GetPackfileForBlob (run ops (New now)) m).2 = (0, false).
Proof.
  destruct (persists_run ops (New now)) as (F & D & B & _).
  cbn in F, D, B.
  split; [by apply (no_entry_exists KFile)|].
  split; [by apply (no_entry_exists KDirectory)|].
  split; [by apply (no_entry_exists KBlob)|].
  split; [by apply (no_entry_answers KFile)|].
  split; [by apply (no_entry_answers KDirectory)|].
  split; [by apply (no_entry_answers KBlob)|].
  split; [by apply (no_entry_answers KFile)|].
  split; [by apply (no_entry_answers KDirectory)|].
  by apply (no_entry_answers KBlob).
Qed.

(** *** Lookups *)

(** On a well-formed state the three lookups answer from the contents. *)
Lemma lookup_answers k st m :
  wf st →
  (location k st m).2 = subpart_of (locate k st m) ∧
  (packfile_of k st m).2 = packfile_only (locate k st m) ∧
  (exists_ k st m).2 = bool_decide (is_Some (locate (tested_kind k) st m)).
Proof.
  intros Hwf.
  rewrite <- (locate_intern k st m m Hwf), <- (locate_intern (tested_kind k) st m m Hwf).
  rewrite location_generic, packfile_of_generic, exists_generic.
  pose proof (getOrCreate_post st m) as P.
  destruct (getOrCreateIdForChecksum st m) as [st' id]. cbn [fst snd] in *.
  unfold locate. rewrite (ip_to P). cbn.
  split; [|split].
  - by destruct (kind_map k st' !! id).
  - by destruct (kind_map k st' !! id).
  - by destruct (kind_map (tested_kind k) st' !! id).
Qed.

(** X4.  [GetSubpartFor<Kind>], [GetPackfileFor<Kind>] and [<Kind>Exists]
    are not read-only: each interns the checksum it is asked about, so a
    lookup of a checksum never seen adds one entry to [IdToChecksum] and to
    [checksumToId], under the next free id, while a lookup of a known
    checksum leaves the state as it is.  The three leave the same state
    behind; none touches a location map, the metadata or the dirty flag. *)
Theorem lookups_intern_their_argument k st m :
  (location k st m).1 = (exists_ k st m).1 ∧
  (packfile_of k st m).1 = (exists_ k st m).1 ∧
  (is_Some (checksumToId st !! m) → (exists_ k st m).1 = st) ∧
  (checksumToId st !! m = None →
   IdToChecksum (exists_ k st m).1
     = <[N.of_nat (size (IdToChecksum st)) := m]> (IdToChecksum st) ∧
   checksumToId (exists_ k st m).1
     = <[m := N.of_nat (size (IdToChecksum st))]> (checksumToId st)) ∧
  (∀ k', kind_map k' (exists_ k st m).1 = kind_map k' st) ∧
  Metadata_ (exists_ k st m).1 = Metadata_ st ∧
  dirty (exists_ k st m).1 = dirty st.
Proof.
  destruct (lookup_states k st m) as (-> & -> & ->).
  split; [done|]. split; [done|].
  split.
  { intros [id Hid]. by rewrite (getOrCreate_known st m id Hid). }
  split.
  { intros Hnone. by rewrite (getOrCreate_fresh st m Hnone). }
  split; [intros k'; apply kind_map_intern|].
  destruct (getOrCreate_post st m) as [_ _ _ _ _ _ _ Hm Hd]. by split.
Qed.

Lemma lookups_intern_their_argument_witness :
  (ChunkExists (SetPackfileForChunk (New 0) 7 9 10 20) 9).1
    = SetPackfileForChunk (New 0) 7 9 10 20 ∧
  IdToChecksum (ChunkExists (SetPackfileForChunk (New 0) 7 9 10 20) 5).1
    = <[2 := 5]> (IdToChecksum (SetPackfileForChunk (New 0) 7 9 10 20)).
Proof.
  pose proof (lookups_intern_their_argument KChunk (SetPackfileForChunk (New 0) 7 9 10 20))
    as H.
  split.
  - destruct (H 9) as (_ & _ & Hknown & _). apply Hknown. vm_compute. by eexists.
  - destruct (H 5) as (_ & _ & _ & Hnew & _). apply Hnew. vm_compute. reflexivity.
Defined.

(** X5.  On a well-formed state a lookup does not disturb what any lookup
    answers afterwards: after [GetSubpartFor], [GetPackfileFor] or [Exists]
    of any kind on any checksum, every lookup of every kind returns what it
    would have returned before.  [GetPackfileFor<Kind>] returns the packfile
    and the flag that [GetSubpartFor<Kind>] returns, and a packfile returned
    with the flag set is the checksum of an interned packfile. *)
Theorem lookups_do_not_disturb k st m k' m' :
  wf st →
  (location k' (exists_ k st m).1 m').2 = (location k' st m').2 ∧
  (packfile_of k' (exists_ k st m).1 m').2 = (packfile_of k' st m').2 ∧
  (exists_ k' (exists_ k st m).1 m').2 = (exists_ k' st m').2 ∧
  (packfile_of k' st m').2 = ((location k' st m').2.1.1.1, (location k' st m').2.2) ∧
  ((packfile_of k' st m').2.2 = true →
   is_Some (checksumToId st !! (packfile_of k' st m').2.1)).
Proof.
  intros Hwf.
  destruct (lookup_states k st m) as (_ & _ & ->).
  pose proof (wf_intern st m Hwf) as Hwf'.
  destruct (lookup_answers k' _ m' Hwf') as (-> & -> & ->).
  destruct (lookup_answers k' st m' Hwf) as (-> & -> & ->).
  rewrite !locate_intern by done.
  split; [done|]. split; [done|]. split; [done|].
  destruct Hwf as (Hinv & Hkeys & Hpack).
  unfold locate.
  destruct (checksumToId st !! m') as [id|]; [|done]. cbn.
  destruct (kind_map k' st !! id) as [loc|] eqn:Hloc; [|done]. cbn.
  split; [done|]. intros _.
  destruct (Hpack k' id loc Hloc) as [p Hp]. unfold lookup0. rewrite Hp. cbn.
  exists (Packfile loc). by apply Hinv.
Qed.

Lemma lookups_do_not_disturb_witness :
  (GetSubpartForChunk (FileExists (SetPackfileForChunk (New 0) 7 9 10 20) 5).1 9).2
    = (GetSubpartForChunk (SetPackfileForChunk (New 0) 7 9 10 20) 9).2 ∧
  (GetPackfileForChunk (SetPackfileForChunk (New 0) 7 9 10 20) 9).2 = (7, true).
Proof.
  destruct (lookups_do_not_disturb KFile (SetPackfileForChunk (New 0) 7 9 10 20) 5 KChunk 9
              (wf_set_location KChunk (New 0) 7 9 10 20 (wf_New 0)))
    as (H1 & _ & _ & H4 & _).
  split; [exact H1|]. exact H4.
Defined.

(** *** The dirty flag *)

Lemma flagged_refl st : flagged st st.
Proof. by split. Qed.

Lemma flagged_trans s1 s2 s3 : flagged s1 s2 → flagged s2 s3 → flagged s1 s3.
Proof.
  intros [U1 M1] [U2 M2]. split; [by auto|].
  intros H k. destruct (Dirty s2) eqn:E2.
  - rewrite U2 in H; done.
  - rewrite M2, M1; done.
Qed.

Lemma flagged_intern st c : flagged st (getOrCreateIdForChecksum st c).1.
Proof.
  destruct (getOrCreate_post st c) as [_ _ _ _ _ _ _ _ Hd].
  split.
  - unfold Dirty. by rewrite Hd.
  - intros _ k. apply kind_map_intern.
Qed.

Lemma flagged_set_location k st p m o l : flagged st (set_location k st p m o l).
Proof.
  rewrite set_location_generic.
  destruct (setGeneric_unfold k (stored_kind k) st p m o l)
    as (st1 & pid & st2 & id & E1 & E2 & ->).
  assert (flagged st st2) as H2.
  { apply (flagged_trans _ st1).
    - pose proof (flagged_intern st p) as H. by rewrite E1 in H.
    - pose proof (flagged_intern st1 m) as H. by rewrite E2 in H. }
  destruct (kind_map k st !! id); [done|].
  split; [done|]. intros H. by destruct k.
Qed.

Lemma flagged_mergeLoop k delta order st :
  flagged st (mergeLoop (set_location k) delta order st).
Proof.
  unfold mergeLoop. revert st.
  induction order as [|[id subpart] order IH]; intros st; [apply flagged_refl|].
  cbn [foldl]. eapply flagged_trans; [|apply IH]. apply flagged_set_location.
Qed.

Lemma flagged_run_op st op : keeps_dirty op = true → flagged st (run_op st op).
Proof.
  destruct op as [k p m o l|k m|k m|k m|stateID| |o stateID delta]; cbn [run_op]; intros Hop.
  - apply flagged_set_location.
  - rewrite (proj1 (lookup_states k st m)). apply flagged_intern.
  - rewrite (proj1 (proj2 (lookup_states k st m))). apply flagged_intern.
  - rewrite (proj2 (proj2 (lookup_states k st m))). apply flagged_intern.
  - split; [done|]. intros _ k. by destruct k.
  - done.
  - unfold Merge.
    eapply flagged_trans; [|apply (flagged_mergeLoop KBlob)].
    eapply flagged_trans; [|apply (flagged_mergeLoop KDirectory)].
    eapply flagged_trans; [|apply (flagged_mergeLoop KFile)].
    eapply flagged_trans; [|apply (flagged_mergeLoop KObject)].
    apply (flagged_mergeLoop KChunk).
Qed.

(** X6.  The dirty flag is sound.  Over any sequence of calls without
    [ResetDirty] (registrations, lookups, [Extends], merges) the flag is
    never lowered, and if [Dirty] answers false at the end then no location
    map has changed: every change of a location map raises the flag. *)
Theorem clean_means_unchanged ops st :
  forallb keeps_dirty ops = true →
  (Dirty st = true → Dirty (run ops st) = true) ∧
  (Dirty (run ops st) = false → ∀ k, kind_map k (run ops st) = kind_map k st).
Proof.
  unfold run. revert st. induction ops as [|op ops IH]; intros st Hops.
  - apply flagged_refl.
  - cbn in Hops. apply andb_true_iff in Hops as [Hop Hops]. cbn [foldl].
    apply (flagged_trans _ (run_op st op)); [by apply flagged_run_op|by apply IH].
Qed.

Lemma clean_means_unchanged_witness :
  Dirty (run [OSetPackfile KChunk 7 9 30 40; OExists KFile 5; OExtends 3]
             (ResetDirty (SetPackfileForChunk (New 0) 7 9 10 20))) = false ∧
  Chunks (run [OSetPackfile KChunk 7 9 30 40; OExists KFile 5; OExtends 3]
              (ResetDirty (SetPackfileForChunk (New 0) 7 9 10 20)))
    = Chunks (ResetDirty (SetPackfileForChunk (New 0) 7 9 10 20)).
Proof.
  split; [vm_compute; reflexivity|].
  refine (proj2 (clean_means_unchanged
                   [OSetPackfile KChunk 7 9 30 40; OExists KFile 5; OExtends 3]
                   (ResetDirty (SetPackfileForChunk (New 0) 7 9 10 20)) _) _ KChunk).
  - reflexivity.
  - vm_compute. reflexivity.
Defined.

(** *** Loading *)

Lemma rebuilt_table st order :
  intern_inv st → iteration_order (IdToChecksum st) order →
  reversed order = checksumToId st.
Proof.
  intros Hinv Horder. apply map_eq. intros c. apply option_eq. intros id.
  rewrite reversed_eq, reversed_from, lookup_empty.
  - assert ((id, c) ∈ order ↔ IdToChecksum st !! id = Some c) as ->.
    { unfold iteration_order in Horder. rewrite Horder. apply elem_of_map_to_list. }
    destruct Hinv as [_ Hi]. rewrite (Hi c id). split; [|by left].
    by intros [H|[_ H]].
  - eapply NoDup_checksums_of_injective; [|done]. by apply injective_of_intern_inv.
Qed.

Section LoadingFacts.
Variable Marshal : State → result (list byte).
Variable Unmarshal : list byte → result State.

Lemma NewFromBytes_trailer order body v :
  v < 2 ^ 32 →
  NewFromBytes Unmarshal order (body ++ PutUint32 v) =
    if negb (v =? VERSION) then Err (InvalidStateVersion v)
    else match Unmarshal body with
         | Err e => Err e
         | Ok st => Ok (rebuildChecksums order st)
         end.
Proof using Type.
  intros Hv. unfold NewFromBytes.
  rewrite length_app, length_PutUint32.
  destruct (Nat.ltb_spec (length body + 4) 4) as [Hlt|_]; [lia|].
  replace (length body + 4 - 4)%nat with (length body) by lia.
  rewrite drop_app_length, take_app_length.
  rewrite <- (app_nil_r (PutUint32 v)).
  by rewrite Uint32_PutUint32.
Qed.

(** X7.  What [NewFromBytes] refuses.  An input of fewer than four bytes
    fails with "invalid state data", whatever it holds.  The output of
    [Serialize] for a state whose version is not [VERSION] fails with
    "invalid state version", naming that version, before the decoder is
    run: [Serialize] writes any version, [NewFromBytes] reads back only
    version 100.  With the right version trailer, an error of the decoder
    is returned as it is. *)
Theorem NewFromBytes_refusals order :
  (∀ serialized, (length serialized < 4)%nat →
     NewFromBytes Unmarshal order serialized = Err InvalidStateData) ∧
  (∀ st serialized,
     Version (Metadata_ st) < 2 ^ 32 → Version (Metadata_ st) ≠ VERSION →
     Serialize Marshal st = Ok serialized →
     NewFromBytes Unmarshal order serialized
       = Err (InvalidStateVersion (Version (Metadata_ st)))) ∧
  (∀ body e, Unmarshal body = Err e →
     NewFromBytes Unmarshal order (body ++ PutUint32 VERSION) = Err e).
Proof using Type.
  split; [|split].
  - intros serialized Hlen. unfold NewFromBytes.
    by destruct (Nat.ltb_spec (length serialized) 4) as [_|?]; [|lia].
  - intros st serialized Hrange Hv. unfold Serialize.
    destruct (Marshal st) as [body|e]; [|done]. intros [= <-].
    rewrite NewFromBytes_trailer by done.
    by destruct (N.eqb_spec (Version (Metadata_ st)) VERSION).
  - intros body e He. rewrite NewFromBytes_trailer by (by vm_compute).
    rewrite N.eqb_refl. cbn. by rewrite He.
Qed.

(** X8.  Reloading a well-formed state of the supported version gives the
    state back: when msgpack encodes the state and decodes the encoding to
    its exported fields, [NewFromBytes] on the output of [Serialize]
    returns the state itself with the dirty flag down, [checksumToId]
    included, whatever order [rebuildChecksums] visits the table in.  So
    the loaded state is well formed and answers every lookup as the saved
    one did. *)
Theorem reload_gives_the_state_back st body order :
  wf st →
  Version (Metadata_ st) = VERSION →
  Marshal st = Ok body →
  Unmarshal body = Ok (exported st) →
  iteration_order (IdToChecksum st) order →
  ∃ serialized,
    Serialize Marshal st = Ok serialized ∧
    NewFromBytes Unmarshal order serialized = Ok (ResetDirty st) ∧
    wf (ResetDirty st) ∧
    ∀ k m, (location k (ResetDirty st) m).2 = (location k st m).2 ∧
           (exists_ k (ResetDirty st) m).2 = (exists_ k st m).2.
Proof using Type.
  intros Hwf Hv Hm Hu Horder.
  destruct (NewFromBytes_Serialize Marshal Unmarshal st body order Hv Hm Hu) as [HS HN].
  exists (body ++ PutUint32 VERSION). split; [done|].
  assert (rebuildChecksums order (exported st) = ResetDirty st) as Hsame.
  { unfold rebuildChecksums. fold (reversed order).
    rewrite (rebuilt_table st order) by (done || apply Hwf). by destruct st. }
  rewrite <- Hsame at 1. split; [done|].
  assert (wf (ResetDirty st)) as Hwf'.
  { destruct Hwf as (Hinv & Hkeys & Hpack). split; [|split]; [exact Hinv| |].
    - intros k. exact (Hkeys k).
    - intros k. exact (Hpack k). }
  split; [done|]. intros k m.
  destruct (lookup_answers k _ m Hwf') as (-> & _ & ->).
  destruct (lookup_answers k _ m Hwf) as (-> & _ & ->).
  assert (∀ k', locate k' (ResetDirty st) m = locate k' st m) as Hl.
  { intros k'. unfold locate. by destruct k'. }
  by rewrite !Hl.
Qed.

End LoadingFacts.

Lemma NewFromBytes_refusals_witness :
  NewFromBytes refUnmarshal [] [byte_of_N 100; byte_of_N 0; byte_of_N 0]
    = Err InvalidStateData ∧
  (∃ serialized,
     Serialize refMarshal (set_Metadata (mkMetadata 101 0 []) (New 0)) = Ok serialized ∧
     NewFromBytes refUnmarshal [] serialized = Err (InvalidStateVersion 101)).
Proof.
  destruct (NewFromBytes_refusals refMarshal refUnmarshal []) as (Hshort & Hversion & _).
  split.
  - apply Hshort. cbn. lia.
  - eexists. split; [reflexivity|].
    apply (Hversion (set_Metadata (mkMetadata 101 0 []) (New 0))).
    + by vm_compute.
    + by vm_compute.
    + reflexivity.
Defined.

Lemma reload_gives_the_state_back_witness :
  ∃ serialized,
    Serialize refMarshal (SetPackfileForChunk (New 5) 7 9 10 20) = Ok serialized ∧
    NewFromBytes refUnmarshal
        (map_to_list (IdToChecksum (SetPackfileForChunk (New 5) 7 9 10 20))) serialized
      = Ok (ResetDirty (SetPackfileForChunk (New 5) 7 9 10 20)).
Proof.
  destruct (reload_gives_the_state_back refMarshal refUnmarshal
              (SetPackfileForChunk (New 5) 7 9 10 20)
              (bytes_of_positive (encode (exported_fields (SetPackfileForChunk (New 5) 7 9 10 20))))
              (map_to_list (IdToChecksum (SetPackfileForChunk (New 5) 7 9 10 20))))
    as (serialized & HS & HN & _).
  - apply (wf_set_location KChunk), wf_New.
  - reflexivity.
  - reflexivity.
  - by apply refUnmarshal_refMarshal.
  - unfold iteration_order. reflexivity.
  - by exists serialized.
Defined.

(** *** Merging *)

(** X9.  [Merge] is a union in which the receiver wins.  For well-formed
    states and a delta without file, directory or blob entries, after
    [Merge] the receiver is well formed and a lookup of any kind returns
    what the receiver returned before if it held the checksum, and what the
    delta returns otherwise, whatever order the maps of the delta are
    visited in.  Merging into a new state therefore reproduces the answers
    of the delta. *)
Theorem Merge_is_union_receiver_wins o st stateID delta :
  wf st → wf delta → chunks_and_objects_only delta → merge_order delta o →
  wf (Merge o st stateID delta) ∧
  (∀ k m,
     (location k (Merge o st stateID delta) m).2 =
       if (location k st m).2.2 then (location k st m).2 else (location k delta m).2) ∧
  (∀ now k m,
     st = New now → (location k (Merge o st stateID delta) m).2 = (location k delta m).2).
Proof.
  intros Hwf Hwfd Hco Hord.
  pose proof (wf_Merge o st stateID delta Hwf) as Hwf'.
  assert (∀ k m,
     (location k (Merge o st stateID delta) m).2 =
       if (location k st m).2.2 then (location k st m).2 else (location k delta m).2) as Hunion.
  { intros k m.
    rewrite (proj1 (lookup_answers k _ m Hwf')), (proj1 (lookup_answers k _ m Hwf)),
            (proj1 (lookup_answers k _ m Hwfd)).
    rewrite (Merge_contents o st stateID delta k m Hwf Hwfd Hco Hord).
    destruct Hco as (Hf & Hd & Hb). unfold merged.
    destruct k; destruct (locate _ st m) as [[[p ofs] l]|]; try done; cbn.
    all: by rewrite locate_no_entries. }
  split; [done|]. split; [done|].
  intros now k m ->. rewrite Hunion.
  by rewrite (proj1 (lookup_answers k _ m (wf_New now))), locate_New.
Qed.

Lemma Merge_is_union_receiver_wins_witness :
  (GetSubpartForChunk
     (Merge (canonical_order (SetPackfileForChunk (New 0) 8 9 30 40))
            (SetPackfileForChunk (New 0) 7 9 10 20) 0
            (SetPackfileForChunk (New 0) 8 9 30 40)) 9).2 = (7, 10, 20, true) ∧
  (GetSubpartForChunk
     (Merge (canonical_order (SetPackfileForChunk (New 0) 8 9 30 40))
            (SetPackfileForObject (New 0) 7 5 10 20) 0
            (SetPackfileForChunk (New 0) 8 9 30 40)) 9).2 = (8, 30, 40, true).
Proof.
  split.
  - refine (proj1 (proj2 (Merge_is_union_receiver_wins
              (canonical_order (SetPackfileForChunk (New 0) 8 9 30 40))
              (SetPackfileForChunk (New 0) 7 9 10 20) 0
              (SetPackfileForChunk (New 0) 8 9 30 40) _ _ _ _)) KChunk 9).
    + apply (wf_set_location KChunk), wf_New.
    + apply (wf_set_location KChunk), wf_New.
    + by repeat split.
    + apply merge_order_canonical.
  - refine (proj1 (proj2 (Merge_is_union_receiver_wins
              (canonical_order (SetPackfileForChunk (New 0) 8 9 30 40))
              (SetPackfileForObject (New 0) 7 5 10 20) 0
              (SetPackfileForChunk (New 0) 8 9 30 40) _ _ _ _)) KChunk 9).
    + apply (wf_set_location KObject), wf_New.
    + apply (wf_set_location KChunk), wf_New.
    + by repeat split.
    + apply merge_order_canonical.
Defined.

End StateOpsFacts.

(** * Properties of the packer *)

Module PackerFacts.
Import Snapshot Packer SnapshotSpec SnapshotOpsSpec.

Lemma prefix_snoc_inv {A} (q l : list A) (x : A) :
  q `prefix_of` l ++ [x] → q = l ++ [x] ∨ q `prefix_of` l.
Proof.
  intros [k Hk]. destruct k as [|y k _] using rev_ind.
  - left. by rewrite app_nil_r in Hk.
  - right. rewrite (assoc_L (++)) in Hk. apply app_inj_tail in Hk as [-> _].
    by exists k.
Qed.

Section WorkerFacts.
Context {error pack : Type}.
Variable packfile_New : pack.
Variable pack_AddBlob : pack → Packfile.BlobType → State.MAC → list byte → pack.
Variable pack_Size : pack → N.
Variable threshold : N.
Variable PutPackfile :
  Snapshot → pack → list State.MAC → list State.MAC → list State.MAC → list State.MAC →
  list State.MAC → list State.MAC → Snapshot * outcome error.
Variable err_Error : error → string.
Variable range : nat → gset State.MAC → list State.MAC.

Lemma worker_cut msgs pre n snap :
  worker packfile_New pack_AddBlob pack_Size threshold PutPackfile err_Error range msgs n
         (match pre with
          | [] => None
          | _ => Some (build packfile_New pack_AddBlob pre, sets_of pre)
          end) snap
  = flushAll packfile_New pack_AddBlob PutPackfile err_Error range
             (cut packfile_New pack_AddBlob pack_Size threshold msgs pre) n snap.
Proof using Type.
  revert pre n snap. induction msgs as [|msg msgs IH]; intros pre n snap.
  - destruct pre as [|m0 pre]; [done|]. cbn [worker cut flushAll].
    by destruct (flush _ _ _ _ _ _ _) as [snap' [[e|]|m]].
  - cbn [worker cut].
    assert ((match match pre with
                   | [] => None
                   | _ => Some (build packfile_New pack_AddBlob pre, sets_of pre)
                   end with
             | None => (packfile_New, noSets)
             | Some c => c
             end) = (build packfile_New pack_AddBlob pre, sets_of pre)) as -> by (by destruct pre).
    assert (pack_AddBlob (build packfile_New pack_AddBlob pre) (Type_ msg) (Checksum msg)
              (Data msg) = build packfile_New pack_AddBlob (pre ++ [msg])) as ->.
    { unfold build. by rewrite foldl_snoc. }
    assert (remember (Type_ msg) (Checksum msg) (sets_of pre) = sets_of (pre ++ [msg])) as ->.
    { unfold sets_of. by rewrite foldl_snoc. }
    destruct (threshold <? pack_Size (build packfile_New pack_AddBlob (pre ++ [msg]))).
    + cbn [flushAll].
      destruct (flush _ _ _ _ _ _ _) as [snap' [[e|]|m]]; try done.
      apply (IH []).
    + rewrite <- IH. by destruct pre.
Qed.

Lemma concat_cut msgs pre :
  concat (cut packfile_New pack_AddBlob pack_Size threshold msgs pre) = pre ++ msgs.
Proof using Type.
  revert pre. induction msgs as [|msg msgs IH]; intros pre; cbn [cut].
  - destruct pre; cbn; by rewrite ?app_nil_r.
  - destruct (threshold <? _); cbn [concat]; rewrite IH.
    + by rewrite <- (assoc_L (++)).
    + by rewrite <- (assoc_L (++)).
Qed.

Lemma cut_nonempty msgs pre :
  Forall (λ run, run ≠ []) (cut packfile_New pack_AddBlob pack_Size threshold msgs pre).
Proof using Type.
  revert pre. induction msgs as [|msg msgs IH]; intros pre; cbn [cut].
  - destruct pre; by repeat constructor.
  - destruct (threshold <? _); [|apply IH].
    constructor; [|apply IH]. by destruct pre.
Qed.

Lemma cut_over msgs pre init last :
  cut packfile_New pack_AddBlob pack_Size threshold msgs pre = init ++ [last] →
  Forall (λ run, threshold < pack_Size (build packfile_New pack_AddBlob run)) init.
Proof using Type.
  revert pre init. induction msgs as [|msg msgs IH]; intros pre init; cbn [cut].
  - destruct pre as [|m0 pre]; intros H.
    + by destruct init.
    + destruct init as [|r [|r' init]]; [constructor|done|done].
  - destruct (N.ltb_spec threshold
                (pack_Size (build packfile_New pack_AddBlob (pre ++ [msg])))) as [Hlt|_].
    + intros H. destruct init as [|r init]; [constructor|].
      injection H as <- H. constructor; [done|]. by eapply IH.
    + apply IH.
Qed.

Lemma cut_under msgs pre :
  (∀ q, q ≠ [] → q `prefix_of` pre →
        pack_Size (build packfile_New pack_AddBlob q) ≤ threshold) →
  Forall (λ run, ∀ q, q ≠ [] → q `prefix_of` run → q ≠ run →
                      pack_Size (build packfile_New pack_AddBlob q) ≤ threshold)
         (cut packfile_New pack_AddBlob pack_Size threshold msgs pre).
Proof using Type.
  revert pre. induction msgs as [|msg msgs IH]; intros pre Hpre; cbn [cut].
  - destruct pre as [|m0 pre]; [constructor|].
    constructor; [|constructor]. intros q Hq Hp _. by apply Hpre.
  - destruct (N.ltb_spec threshold
                (pack_Size (build packfile_New pack_AddBlob (pre ++ [msg])))) as [_|Hle].
    + constructor.
      * intros q Hq Hp Hne. destruct (prefix_snoc_inv _ _ _ Hp) as [->|Hp']; [done|].
        by apply Hpre.
      * apply IH. intros q Hq Hp. apply prefix_nil_inv in Hp. done.
    + apply IH. intros q Hq Hp.
      destruct (prefix_snoc_inv _ _ _ Hp) as [->|Hp']; [done|]. by apply Hpre.
Qed.

(** X10.  What one packer does with the messages it receives, in the
    order it receives them: it cuts them into consecutive runs, closing a
    run with the first message that brings the size of the pack above the
    configured packfile size, and hands the pack of each run to
    [PutPackfile], one after the other; the last run is flushed when the
    channel is closed.  No message is dropped, repeated or moved to another
    place; no pack is empty; every pack but the last is above the
    threshold and was not before its last message.  The run of the packer
    ends as the first flush that does not return [nil] ends: an error
    returned by [PutPackfile] is a panic of the packer. *)
Theorem packer_cuts_at_the_threshold msgs :
  (∀ snap,
     worker packfile_New pack_AddBlob pack_Size threshold PutPackfile err_Error range
            msgs 0 None snap
     = flushAll packfile_New pack_AddBlob PutPackfile err_Error range
                (cut packfile_New pack_AddBlob pack_Size threshold msgs []) 0 snap) ∧
  concat (cut packfile_New pack_AddBlob pack_Size threshold msgs []) = msgs ∧
  Forall (λ run, run ≠ []) (cut packfile_New pack_AddBlob pack_Size threshold msgs []) ∧
  (∀ init last,
     cut packfile_New pack_AddBlob pack_Size threshold msgs [] = init ++ [last] →
     Forall (λ run, threshold < pack_Size (build packfile_New pack_AddBlob run)) init) ∧
  Forall (λ run, ∀ q, q ≠ [] → q `prefix_of` run → q ≠ run →
                      pack_Size (build packfile_New pack_AddBlob q) ≤ threshold)
         (cut packfile_New pack_AddBlob pack_Size threshold msgs []).
Proof using Type.
  split; [intros snap; apply (worker_cut msgs [])|].
  split; [apply concat_cut|].
  split; [apply cut_nonempty|].
  split; [apply cut_over|].
  apply cut_under. intros q Hq Hp. apply prefix_nil_inv in Hp. done.
Qed.

End WorkerFacts.

Lemma packer_cuts_at_the_threshold_witness :
  cut exNew exAddBlob exSize 3 exMsgs [] = [take 2 exMsgs; drop 2 exMsgs] ∧
  worker exNew exAddBlob exSize 3 (PutPackfile exEnv) id exRange exMsgs 0 None (exSnapshot false)
  = flushAll exNew exAddBlob (PutPackfile exEnv) id exRange
             [take 2 exMsgs; drop 2 exMsgs] 0 (exSnapshot false).
Proof.
  split; [reflexivity|].
  exact (proj1 (packer_cuts_at_the_threshold exNew exAddBlob exSize 3 (PutPackfile exEnv)
                  id exRange exMsgs) (exSnapshot false)).
Defined.

End PackerFacts.

(** * Further properties of the snapshot session *)

Module SnapshotOpsFacts.
Import State StateSpec StateOps StateOpsSpec StateFacts StateOpsFacts.
Import Snapshot SnapshotSpec SnapshotOps Packer SnapshotOpsSpec SnapshotFacts.

(** The contents after a registration under any kind: the checksum gains
    the location, under the kind whose map the function stores into, if
    it held none under the kind whose map the function tests. *)
Lemma locate_set_location_any k st p m o l k' m' :
  wf st →
  locate k' (set_location k st p m o l) m' =
    if decide (k' = stored_kind k ∧ m' = m ∧ locate k st m = None)
    then Some (p, o, l) else locate k' st m'.
Proof.
  intros Hwf.
  assert (∀ st2, st2 = (getOrCreateIdForChecksum
                         (getOrCreateIdForChecksum st p).1 m).1 →
                 locate k' st2 m' = locate k' st m') as Hsame.
  { intros st2 ->. rewrite locate_intern by (by apply wf_intern).
    by apply locate_intern. }
  assert (registered k st m ∨ ¬ registered k st m) as [Hreg|Hfresh].
  { destruct (locate k st m) as [x|] eqn:E; [left|right; by apply locate_None].
    unfold locate in E. destruct (checksumToId st !! m) as [i|] eqn:Hi; [|done].
    cbn in E. destruct (kind_map k st !! i) as [loc|] eqn:Hki; [|done].
    exists i. by eauto. }
  - rewrite decide_False by (rewrite locate_None; tauto).
    rewrite set_location_generic.
    destruct (setGeneric_unfold k (stored_kind k) st p m o l)
      as (st1 & pid & st2 & id & E1 & E2 & ->).
    destruct Hreg as (id0 & Hid0 & Hsome).
    pose proof (getOrCreate_post st p) as P1. rewrite E1 in P1. cbn in P1.
    pose proof (getOrCreate_post st1 m) as P2. rewrite E2 in P2. cbn in P2.
    assert (id = id0) as ->.
    { pose proof (ip_keep_to P2 _ _ (ip_keep_to P1 _ _ Hid0)) as H.
      rewrite (ip_to P2) in H. congruence. }
    destruct Hsome as [loc ->]. apply Hsame. rewrite E1. cbn [fst]. by rewrite E2.
  - rewrite set_location_generic.
    pose proof (wf_intern _ m (wf_intern st p Hwf)) as Hwf2.
    destruct (setGeneric_fresh_explicit k (stored_kind k) st p m o l Hwf Hfresh)
      as (Hto & Hp & Hm & Hnone & Hst2 & ->).
    specialize (Hsame _ eq_refl).
    set (ks := stored_kind k) in *.
    set (pid := (getOrCreateIdForChecksum st p).2) in *.
    set (st2 := (getOrCreateIdForChecksum (getOrCreateIdForChecksum st p).1 m).1) in *.
    set (id := (getOrCreateIdForChecksum (getOrCreateIdForChecksum st p).1 m).2) in *.
    set (st' := set_dirty 1%Z (set_kind_map ks
                  (<[id:=mkLocation pid o l]> (kind_map ks st)) st2)).
    assert (checksumToId st' = checksumToId st2) as Hcti by (by destruct ks).
    assert (IdToChecksum st' = IdToChecksum st2) as Hitc by (by destruct ks).
    rewrite (locate_unfold k' st'), Hcti, Hitc.
    destruct (checksumToId st2 !! m') as [i|] eqn:Hm'; cbn.
    + assert (locate k' st m' =
                kind_map k' st !! i ≫= λ subpart,
                  Some (lookup0 0 (IdToChecksum st2) (Packfile subpart),
                        Offset subpart, Length subpart)) as Hrhs.
      { rewrite <- Hsame, locate_unfold, Hm'. cbn. by rewrite Hst2. }
      unfold st'. rewrite kind_map_set_dirty, kind_map_set_kind_map.
      destruct (decide (k' = ks)) as [->|Hk'].
      * rewrite lookup_insert.
        destruct (decide (id = i)) as [<-|Hi].
        -- assert (m' = m) as ->.
           { destruct Hwf2 as ((_ & Hi2) & _). apply Hi2 in Hm'. congruence. }
           rewrite decide_True by (by rewrite locate_None).
           cbn. unfold lookup0. by rewrite Hp.
        -- rewrite decide_False; [done|]. intros (_ & -> & _). congruence.
      * rewrite decide_False by tauto. by rewrite Hst2.
    + rewrite decide_False by (intros (_ & -> & _); congruence).
      by rewrite <- Hsame, locate_unfold, Hm'.
Qed.

(** *** The registration loops of [PutPackfile] *)

Lemma register_states set mac pack cs w :
  repositoryState (register set mac pack cs w)
    = registerState set mac pack cs (repositoryState w) ∧
  stateDelta (register set mac pack cs w) = registerState set mac pack cs (stateDelta w).
Proof.
  unfold register, registerState. revert w.
  induction cs as [|c cs IH]; intros w; [done|]. cbn [foldl].
  destruct (IH (match indexEntry (Packfile.Index pack) c with
                | Some entry =>
                    set_states
                      (set (repositoryState w) mac c (Packfile.Offset entry)
                           (Packfile.Length entry))
                      (set (stateDelta w) mac c (Packfile.Offset entry)
                           (Packfile.Length entry)) w
                | None => w
                end)) as [-> ->].
  by destruct (indexEntry (Packfile.Index pack) c).
Qed.

Lemma registerState_cons set mac pack c cs st :
  registerState set mac pack (c :: cs) st =
    registerState set mac pack cs
      (match indexEntry (Packfile.Index pack) c with
       | Some entry => set st mac c (Packfile.Offset entry) (Packfile.Length entry)
       | None => st
       end).
Proof. done. Qed.

(** A loop that stores into the map it tests: a listed checksum with an
    index entry gains its location under the kind unless it held one, and
    nothing else changes. *)
Lemma registerState_own k mac pack cs st :
  stored_kind k = k → wf st →
  wf (registerState (set_location k) mac pack cs st) ∧
  ∀ k' c, locate k' (registerState (set_location k) mac pack cs st) c =
            match locate k' st c with
            | Some loc => Some loc
            | None => if decide (k' = k) then registered_by mac pack cs c else None
            end.
Proof.
  intros Hk. revert st. induction cs as [|c0 cs IH]; intros st Hwf.
  - split; [done|]. intros k' c. unfold registerState. cbn [foldl].
    destruct (locate k' st c); [done|]. case_decide; [|done].
    unfold registered_by. rewrite bool_decide_eq_false_2; [done|apply not_elem_of_nil].
  - rewrite registerState_cons.
    destruct (indexEntry (Packfile.Index pack) c0) as [e|] eqn:He.
    + destruct (IH _ (wf_set_location k st mac c0 (Packfile.Offset e)
                        (Packfile.Length e) Hwf)) as [Hwf' Hl].
      split; [done|]. intros k' c. rewrite Hl.
      rewrite locate_set_location_any by done. rewrite Hk. unfold registered_by.
      destruct (decide (k' = k ∧ c = c0 ∧ locate k st c0 = None))
        as [(-> & -> & Hn)|Hno].
      * rewrite Hn, decide_True, bool_decide_eq_true_2 by (done || by left).
        by rewrite He.
      * destruct (locate k' st c) as [loc|] eqn:Hc; [done|].
        destruct (decide (k' = k)) as [->|Hk']; [|done].
        assert (c ≠ c0) as Hne by (intros ->; by destruct Hno).
        destruct (decide (c ∈ cs)) as [Hin|Hin].
        -- rewrite !bool_decide_eq_true_2; [done|by right|done].
        -- rewrite !bool_decide_eq_false_2; [done| |done].
           by intros [?|?]%elem_of_cons.
    + destruct (IH _ Hwf) as [Hwf' Hl]. split; [done|]. intros k' c. rewrite Hl.
      destruct (locate k' st c) as [loc|]; [done|].
      destruct (decide (k' = k)) as [->|Hk']; [|done]. unfold registered_by.
      destruct (decide (c ∈ cs)) as [Hin|Hin].
      * rewrite !bool_decide_eq_true_2; [done|by right|done].
      * destruct (decide (c = c0)) as [->|Hne].
        -- rewrite bool_decide_eq_false_2 by done.
           rewrite bool_decide_eq_true_2 by (by left). by rewrite He.
        -- rewrite !bool_decide_eq_false_2; [done| |done].
           by intros [?|?]%elem_of_cons.
Qed.

(** A loop that tests a map that is empty and stores into [Objects]:
    every listed checksum with an index entry gets the location as an
    object, whatever it held as an object. *)
Lemma registerState_into_objects k mac pack cs st :
  stored_kind k ≠ k → wf st → kind_map k st = ∅ →
  wf (registerState (set_location k) mac pack cs st) ∧
  kind_map k (registerState (set_location k) mac pack cs st) = ∅ ∧
  ∀ k' c, locate k' (registerState (set_location k) mac pack cs st) c =
            if decide (k' = KObject)
            then match registered_by mac pack cs c with
                 | Some loc => Some loc
                 | None => locate k' st c
                 end
            else locate k' st c.
Proof.
  intros Hk. assert (stored_kind k = KObject) as Hs by (by destruct k).
  revert st. induction cs as [|c0 cs IH]; intros st Hwf Hempty.
  - split; [done|]. split; [done|]. intros k' c. unfold registerState. cbn [foldl].
    unfold registered_by. rewrite bool_decide_eq_false_2 by apply not_elem_of_nil.
    by case_decide.
  - rewrite registerState_cons.
    destruct (indexEntry (Packfile.Index pack) c0) as [e|] eqn:He.
    + assert (kind_map k (set_location k st mac c0 (Packfile.Offset e) (Packfile.Length e))
              = ∅) as Hempty1.
      { rewrite <- Hempty.
        destruct (persists_set_location k st mac c0 (Packfile.Offset e) (Packfile.Length e))
          as (F & D & B & _).
        destruct k; done. }
      destruct (IH _ (wf_set_location k st mac c0 (Packfile.Offset e)
                        (Packfile.Length e) Hwf) Hempty1) as (Hwf' & He' & Hl).
      split; [done|]. split; [done|]. intros k' c. rewrite Hl.
      rewrite locate_set_location_any by done. rewrite Hs.
      rewrite (locate_no_entries k st c0 Hempty).
      destruct (decide (k' = KObject)) as [->|Hk'].
      * unfold registered_by.
        destruct (decide (c ∈ cs)) as [Hin|Hin].
        -- rewrite !bool_decide_eq_true_2; [|by right|done].
           destruct (indexEntry (Packfile.Index pack) c) as [e'|] eqn:He''; cbn; [done|].
           rewrite decide_False; [done|]. intros (_ & -> & _). congruence.
        -- rewrite (bool_decide_eq_false_2 (c ∈ cs)) by done.
           destruct (decide (c = c0)) as [->|Hne].
           ++ rewrite decide_True by done.
              rewrite bool_decide_eq_true_2 by (by left). by rewrite He.
           ++ rewrite decide_False by (intros (_ & ? & _); done).
              rewrite bool_decide_eq_false_2; [done|].
              by intros [?|?]%elem_of_cons.
      * rewrite decide_False; [done|]. by intros (? & _).
    + destruct (IH _ Hwf Hempty) as (Hwf' & He' & Hl).
      split; [done|]. split; [done|]. intros k' c. rewrite Hl.
      case_decide; [|done]. unfold registered_by.
      destruct (decide (c ∈ cs)) as [Hin|Hin].
      * rewrite !bool_decide_eq_true_2; [done|by right|done].
      * rewrite (bool_decide_eq_false_2 (c ∈ cs)) by done.
        destruct (decide (c = c0)) as [->|Hne].
        -- rewrite bool_decide_eq_true_2 by (by left). by rewrite He.
        -- rewrite bool_decide_eq_false_2; [done|]. by intros [?|?]%elem_of_cons.
Qed.

Lemma registered_by_app mac pack cs1 cs2 c :
  registered_by mac pack (cs1 ++ cs2) c =
    match registered_by mac pack cs2 c with
    | Some loc => Some loc
    | None => registered_by mac pack cs1 c
    end.
Proof.
  unfold registered_by.
  destruct (decide (c ∈ cs2)) as [H2|H2], (decide (c ∈ cs1)) as [H1|H1].
  - rewrite !bool_decide_eq_true_2 by (done || (apply elem_of_app; tauto)).
    by destruct (indexEntry (Packfile.Index pack) c).
  - rewrite (bool_decide_eq_true_2 (c ∈ cs2)), (bool_decide_eq_false_2 (c ∈ cs1)) by done.
    rewrite bool_decide_eq_true_2 by (apply elem_of_app; tauto).
    by destruct (indexEntry (Packfile.Index pack) c).
  - rewrite (bool_decide_eq_false_2 (c ∈ cs2)), (bool_decide_eq_true_2 (c ∈ cs1)) by done.
    by rewrite bool_decide_eq_true_2 by (apply elem_of_app; tauto).
  - rewrite (bool_decide_eq_false_2 (c ∈ cs2)), (bool_decide_eq_false_2 (c ∈ cs1)) by done.
    rewrite bool_decide_eq_false_2; [done|]. rewrite elem_of_app. tauto.
Qed.




Lemma persists_registerState k mac pack cs st :
  persists st (registerState (set_location k) mac pack cs st).
Proof.
  revert st. induction cs as [|c0 cs IH]; intros st; [apply persists_refl|].
  rewrite registerState_cons.
  destruct (indexEntry (Packfile.Index pack) c0) as [e|]; [|apply IH].
  eapply persists_trans; [|apply IH]. apply persists_set_location.
Qed.

Section SessionOpsFacts.
Context {error object : Type} (env : Env error).
Variable Errorf : string → error.
Variable repository_GetPackfileBlob :
  list (list byte * list byte) → State.MAC → N → N → error + list byte.
Variable objects_NewObjectFromBytes : list byte → error + object.

(** How [PutPackfile] leaves the two states and the written packfiles. *)
Lemma PutPackfile_states snap pack objects chunks files directories datas snapshots :
  match (PutPackfile env snap pack objects chunks files directories datas snapshots).2 with
  | Returned None =>
      ∃ key bytes,
        written (world (PutPackfile env snap pack objects chunks files directories datas
                                    snapshots).1)
          = (key, bytes) :: written (world snap) ∧
        repositoryState (world (PutPackfile env snap pack objects chunks files directories
                                            datas snapshots).1)
          = registerAll env (MAC_of_bytes key) pack objects chunks files directories datas
                        snapshots (repositoryState (world snap)) ∧
        stateDelta (world (PutPackfile env snap pack objects chunks files directories
                                       datas snapshots).1)
          = registerAll env (MAC_of_bytes key) pack objects chunks files directories datas
                        snapshots (stateDelta (world snap))
  | _ =>
      written (world (PutPackfile env snap pack objects chunks files directories datas
                                  snapshots).1) = written (world snap) ∧
      repositoryState (world (PutPackfile env snap pack objects chunks files directories
                                          datas snapshots).1)
        = repositoryState (world snap) ∧
      stateDelta (world (PutPackfile env snap pack objects chunks files directories
                                     datas snapshots).1)
        = stateDelta (world snap)
  end.
Proof using Type.
  unfold PutPackfile.
  destruct (pack_SerializeData env pack) as [?|serializedData]; [done|].
  destruct (pack_SerializeIndex env pack) as [?|serializedIndex]; [done|].
  destruct (pack_SerializeFooter env pack) as [?|serializedFooter]; [done|].
  destruct (repository_Encode env serializedIndex) as [?|encryptedIndex]; [done|].
  destruct (repository_Encode env serializedFooter) as [?|encryptedFooter]; [done|].
  cbn zeta.
  set (bytes := serializedPackfile serializedData encryptedIndex encryptedFooter
                  (Packfile.Version (Packfile.Footer pack))).
  destruct (repository_PutPackfile env _ _ _) as [?|]; [done|].
  cbn [fst snd world].
  exists (copy32 (repository_Checksum env bytes)), bytes.
  split; [by rewrite !written_register|].
  unfold registerAll.
  split.
  - by rewrite !(proj1 (register_states _ _ _ _ _)).
  - by rewrite !(proj2 (register_states _ _ _ _ _)).
Qed.



Lemma register_padding set mac pack n cs w :
  indexEntry (Packfile.Index pack) 0 = None →
  register set mac pack (replicate n 0 ++ cs) w = register set mac pack cs w.
Proof using Type.
  intros H0. unfold register. rewrite foldl_app. f_equal.
  induction n as [|n IH]; [done|]. cbn [replicate foldl]. by rewrite H0.
Qed.

(** X13.  The lists a packer hands to [PutPackfile] start with as many
    zero checksums as their set has elements, since they are made with
    [make([][32]byte, len(set))] and then appended to.  When the index of
    the pack holds no blob with the zero checksum, the padding is skipped by
    every registration loop: [PutPackfile] does on the padded lists what it
    does on the lists of the elements alone. *)
Theorem zero_padding_is_skipped snap pack
    (sobjects schunks sfiles sdirectories sdatas ssnapshots : gset State.MAC)
    (objects chunks files directories datas snapshots : list State.MAC) :
  indexEntry (Packfile.Index pack) 0 = None →
  PutPackfile env snap pack (listOf sobjects objects) (listOf schunks chunks)
              (listOf sfiles files) (listOf sdirectories directories)
              (listOf sdatas datas) (listOf ssnapshots snapshots)
  = PutPackfile env snap pack objects chunks files directories datas snapshots.
Proof using Type.
  intros H0. unfold PutPackfile, listOf.
  destruct (pack_SerializeData env pack) as [?|serializedData]; [done|].
  destruct (pack_SerializeIndex env pack) as [?|serializedIndex]; [done|].
  destruct (pack_SerializeFooter env pack) as [?|serializedFooter]; [done|].
  destruct (repository_Encode env serializedIndex) as [?|encryptedIndex]; [done|].
  destruct (repository_Encode env serializedFooter) as [?|encryptedFooter]; [done|].
  cbn zeta.
  destruct (repository_PutPackfile env _ _ _) as [?|]; [done|].
  by rewrite !register_padding.
Qed.

(** X14.  What [PutPackfile] registers for a file or a directory is found
    as an object.  On a session whose repository state is well formed and
    holds no file and no directory entry, after [PutPackfile] has returned
    [nil] for a pack without data and snapshot blobs, [GetSubpartForObject]
    returns, for every checksum listed in [files] or [directories] and
    found in the index, the new packfile with the offset and length of the
    index entry, also when the checksum held another location as an object
    before; for any other checksum it returns the location the checksum
    held as an object or, failing that, the one registered for it from
    [objects].  [CheckObject] answers accordingly, and [LookupObject] reads
    that range and hands it to [objects.NewObjectFromBytes]. *)
Theorem files_are_registered_as_objects snap pack objects chunks files directories snap' :
  wf (repositoryState (world snap)) →
  Files (repositoryState (world snap)) = ∅ →
  Directories (repositoryState (world snap)) = ∅ →
  PutPackfile env snap pack objects chunks files directories [] [] = (snap', Returned None) →
  ∃ key bytes,
    written (world snap') = (key, bytes) :: written (world snap) ∧
    ∀ c,
      (GetSubpartForObject (repositoryState (world snap')) c).2
        = match registered_by (MAC_of_bytes key) pack (files ++ directories) c with
          | Some loc => subpart_of (Some loc)
          | None =>
              if (GetSubpartForObject (repositoryState (world snap)) c).2.2
              then (GetSubpartForObject (repositoryState (world snap)) c).2
              else subpart_of (registered_by (MAC_of_bytes key) pack objects c)
          end ∧
      (CheckObject snap' c).2
        = bool_decide (is_Some (registered_by (MAC_of_bytes key) pack (files ++ directories) c))
          || (CheckObject snap c).2
          || bool_decide (is_Some (registered_by (MAC_of_bytes key) pack objects c)) ∧
      (LookupObject Errorf repository_GetPackfileBlob objects_NewObjectFromBytes snap' c).2
        = match (GetSubpartForObject (repositoryState (world snap')) c).2 with
          | (packfile, offset, length, true) =>
              match repository_GetPackfileBlob ((key, bytes) :: written (world snap))
                                               packfile offset length with
              | inl err => inl err
              | inr buffer => objects_NewObjectFromBytes buffer
              end
          | _ => inl (Errorf "object not found")
          end.
Proof using Type.
  intros Hwf Hf Hd HP.
  pose proof (PutPackfile_states snap pack objects chunks files directories [] []) as H.
  rewrite HP in H. cbn [fst snd] in H. destruct H as (key & bytes & Hw & Hr & _).
  exists key, bytes. split; [done|].
  set (mac := MAC_of_bytes key) in *.
  set (st := repositoryState (world snap)) in *.
  unfold registerAll in Hr.
  change (registerState (state_SetPackfileForSnapshot env) mac pack [] ?x) with x in Hr.
  change (registerState (state_SetPackfileForData env) mac pack [] ?x) with x in Hr.
  destruct (registerState_own KChunk mac pack chunks st eq_refl Hwf) as [Hwf1 Hl1].
  destruct (persists_registerState KChunk mac pack chunks st) as (Hf1 & Hd1 & _).
  cbn [set_location] in *.
  set (st1 := registerState SetPackfileForChunk mac pack chunks st) in *.
  destruct (registerState_own KObject mac pack objects st1 eq_refl Hwf1) as [Hwf2 Hl2].
  destruct (persists_registerState KObject mac pack objects st1) as (Hf2 & Hd2 & _).
  cbn [set_location] in *.
  set (st2 := registerState SetPackfileForObject mac pack objects st1) in *.
  destruct (registerState_into_objects KFile mac pack files st2 ltac:(done) Hwf2)
    as (Hwf3 & _ & Hl3).
  { cbn. congruence. }
  destruct (persists_registerState KFile mac pack files st2) as (Hf3 & Hd3 & _).
  cbn [set_location] in *.
  set (st3 := registerState SetPackfileForFile mac pack files st2) in *.
  destruct (registerState_into_objects KDirectory mac pack directories st3 ltac:(done) Hwf3)
    as (Hwf4 & _ & Hl4).
  { cbn. congruence. }
  cbn [set_location] in *.
  rewrite <- Hr in Hwf4, Hl4.
  assert (∀ c, locate KObject (repositoryState (world snap')) c =
               match registered_by mac pack (files ++ directories) c with
               | Some loc => Some loc
               | None => match locate KObject st c with
                         | Some loc => Some loc
                         | None => registered_by mac pack objects c
                         end
               end) as Hl.
  { intros c. rewrite (Hl4 KObject c), (Hl3 KObject c), (Hl2 KObject c), (Hl1 KObject c).
    rewrite registered_by_app. cbn.
    destruct (registered_by mac pack directories c); [done|].
    destruct (registered_by mac pack files c); [done|].
    by destruct (locate KObject st c). }
  intros c.
  pose proof (lookup_answers KObject _ c Hwf4) as (A1' & _ & A3').
  pose proof (lookup_answers KObject _ c Hwf) as (A1 & _ & A3).
  cbn [location exists_ tested_kind] in A1, A1', A3, A3'.
  split; [|split].
  - rewrite A1', A1, Hl.
    destruct (registered_by mac pack (files ++ directories) c); [done|].
    by destruct (locate KObject st c) as [[[? ?] ?]|].
  - unfold CheckObject, onRepositoryState. cbn [snd]. fold st.
    rewrite A3', A3, Hl.
    destruct (registered_by mac pack (files ++ directories) c); [done|].
    destruct (locate KObject st c); [done|]. reflexivity.
  - unfold LookupObject, onRepositoryState.
    destruct (GetSubpartForObject (repositoryState (world snap')) c)
      as [st' [[[packfile offset] length] [|]]]; cbn [fst snd negb world written set_states].
    + rewrite Hw. by destruct (repository_GetPackfileBlob _ _ _ _).
    + done.
Qed.

(** *** The delta of a session *)




(** *** Commit *)

Lemma PutHeader_outcome snap now checksum data :
  PutHeader env snap now checksum data =
    match repository_Encode env data with
    | inl err => (snap, Returned (Some err))
    | inr encoded =>
        if closed (packerChan snap) then (snap, Panicked "send on closed channel")
        else (mkSnapshot (world snap) (Header_ snap)
                (mkChan (queue (packerChan snap)
                           ++ [mkPackerMsg now Packfile.TYPE_SNAPSHOT checksum encoded]) false),
              Returned None)
    end.
Proof using Type.
  unfold PutHeader, enqueue, send.
  destruct (repository_Encode env data) as [err|encoded]; [done|].
  destruct snap as [w h [q [|]]]; done.
Qed.

(** X16.  What a [Commit] that returns [nil] has done, in this order: it
    serialized and encoded the header and sent it, with the index id of
    the header as its checksum, as the last message on the channel, which
    was open; it closed the channel and waited for the packers, which were
    handed the messages pending with the header at the end and did not
    panic; it serialized the state delta as the packers left it, msgpack
    body followed by the version of the delta, and wrote it to the
    repository under the checksum of these bytes, copied into 32 bytes.
    The packfiles and the two states are as the packers left them. *)
Theorem Commit_sends_header_last_then_writes_delta snap now snap' :
  Commit env snap now = (snap', Returned None) →
  ∃ serializedHdr encoded w body,
    Header_Serialize env (Header_ snap) = inr serializedHdr ∧
    repository_Encode env serializedHdr = inr encoded ∧
    closed (packerChan snap) = false ∧
    packers env
      (queue (packerChan snap)
         ++ [mkPackerMsg now Packfile.TYPE_SNAPSHOT (IndexID (Header_ snap)) encoded])
      (world snap) = (w, None) ∧
    msgpack_Marshal env (stateDelta w) = State.Ok body ∧
    repository_PutState env (writtenStates w)
      (copy32 (repository_Checksum env
                 (body ++ PutUint32 (Version (Metadata_ (stateDelta w))))))
      (body ++ PutUint32 (Version (Metadata_ (stateDelta w)))) = None ∧
    snap' = mkSnapshot
              (set_writtenStates
                 ((copy32 (repository_Checksum env
                             (body ++ PutUint32 (Version (Metadata_ (stateDelta w))))),
                   body ++ PutUint32 (Version (Metadata_ (stateDelta w))))
                    :: writtenStates w) w)
              (Header_ snap) (mkChan [] true).
Proof using Type.
  unfold Commit. intros H.
  destruct (Header_Serialize env (Header_ snap)) as [?|serializedHdr] eqn:Hh; [done|].
  rewrite PutHeader_outcome in H.
  destruct (repository_Encode env serializedHdr) as [?|encoded] eqn:He; [done|].
  destruct (closed (packerChan snap)) eqn:Hc; [done|].
  cbn [close packerChan closed queue world Header_] in H.
  destruct (packers env _ _) as [w [msg|]] eqn:Hp; [done|].
  unfold State.Serialize in H.
  destruct (msgpack_Marshal env (stateDelta w)) as [body|e] eqn:Hm; [|done].
  destruct (repository_PutState env _ _ _) as [e|] eqn:Hs; [done|].
  injection H as <-.
  by exists serializedHdr, encoded, w, body.
Qed.

(** X17.  [Commit] can close the channel without succeeding, and then
    cannot be repeated.  Whatever a [Commit] returns or panics with, either
    it left the session as it was, returning the error of serializing or of
    encoding the header, or it left the channel closed.  On a session whose
    channel is closed, [Commit] returns the error of serializing or encoding
    the header, or panics with "send on closed channel", and leaves the
    session as it is: it never returns [nil].  So after a [Commit] that
    failed while serializing or writing the state delta, no later [Commit]
    succeeds. *)
Theorem Commit_cannot_be_repeated snap now snap' out :
  Commit env snap now = (snap', out) →
  (closed (packerChan snap') = false →
   snap' = snap ∧ ∃ err, out = Returned (Some err)) ∧
  (closed (packerChan snap') = true →
   ∀ now',
     Commit env snap' now'
       = (snap',
          match Header_Serialize env (Header_ snap') with
          | inl err => Returned (Some err)
          | inr serializedHdr =>
              match repository_Encode env serializedHdr with
              | inl err => Returned (Some err)
              | inr _ => Panicked "send on closed channel"
              end
          end) ∧
     (Commit env snap' now').2 ≠ Returned None).
Proof using Type.
  intros H. split.
  - revert H. unfold Commit.
    destruct (Header_Serialize env (Header_ snap)) as [err|serializedHdr].
    { intros [= <- <-] _. by eauto. }
    rewrite PutHeader_outcome.
    destruct (repository_Encode env serializedHdr) as [err|encoded].
    { intros [= <- <-] _. by eauto. }
    destruct (closed (packerChan snap)) eqn:Hc.
    { intros [= <- <-]. congruence. }
    cbn [close packerChan closed queue world Header_].
    destruct (packers env _ _) as [w [msg|]]; [by intros [= <- <-]|].
    destruct (State.Serialize _ _) as [serialized|e]; [|by intros [= <- <-]].
    destruct (repository_PutState env _ _ _) as [e|]; by intros [= <- <-].
  - intros Hc now'.
    assert (Commit env snap' now'
            = (snap',
               match Header_Serialize env (Header_ snap') with
               | inl err => Returned (Some err)
               | inr serializedHdr =>
                   match repository_Encode env serializedHdr with
                   | inl err => Returned (Some err)
                   | inr _ => Panicked "send on closed channel"
                   end
               end)) as ->.
    { unfold Commit.
      destruct (Header_Serialize env (Header_ snap')) as [err|serializedHdr]; [done|].
      rewrite PutHeader_outcome.
      destruct (repository_Encode env serializedHdr) as [err|encoded]; [done|].
      by rewrite Hc. }
    split; [done|]. cbn [snd].
    destruct (Header_Serialize env (Header_ snap')) as [err|serializedHdr]; [done|].
    by destruct (repository_Encode env serializedHdr).
Qed.

(** *** Sequences of [Put<Kind>] calls *)

Lemma put_open op snap now checksum data :
  closed (packerChan snap) = false →
  (put env op snap now checksum data).2
    = match repository_Encode env data with
      | inl err => Returned (Some err)
      | inr _ => Returned None
      end ∧
  queue (packerChan (put env op snap now checksum data).1)
    = queue (packerChan snap)
        ++ match repository_Encode env data with
           | inl _ => []
           | inr encoded => [mkPackerMsg now (type_of op) checksum encoded]
           end ∧
  closed (packerChan (put env op snap now checksum data).1) = false ∧
  Header_ (put env op snap now checksum data).1 = Header_ snap ∧
  repositoryState (world (put env op snap now checksum data).1)
    = repositoryState (world snap) ∧
  stateDelta (world (put env op snap now checksum data).1) = stateDelta (world snap) ∧
  written (world (put env op snap now checksum data).1) = written (world snap).
Proof using Type.
  intros Hc.
  destruct op; cbn [put type_of];
    unfold PutHeader, PutChunk, PutData, PutObject, PutFile, PutDirectory, enqueue, send;
    destruct (repository_Encode env data) as [err|encoded]; rewrite ?Hc; cbn;
    by rewrite ?app_nil_r.
Qed.

Lemma puts_from calls snap outs :
  foldl (λ '(snap, outs) '(op, now, checksum, data),
           let '(snap, out) := put env op snap now checksum data in
           (snap, outs ++ [out]))
        (snap, outs) calls
  = ((puts env calls snap).1, outs ++ (puts env calls snap).2).
Proof using Type.
  unfold puts. revert snap outs.
  induction calls as [|[[[op now] checksum] data] calls IH]; intros snap outs.
  - cbn. by rewrite app_nil_r.
  - cbn [foldl]. destruct (put env op snap now checksum data) as [snap1 out].
    rewrite (IH snap1 (outs ++ [out])), (IH snap1 ([] ++ [out])). cbn [fst snd].
    by rewrite <- !(assoc_L (++)).
Qed.

Lemma puts_cons op now checksum data calls snap :
  puts env ((op, now, checksum, data) :: calls) snap
    = ((puts env calls (put env op snap now checksum data).1).1,
       (put env op snap now checksum data).2
         :: (puts env calls (put env op snap now checksum data).1).2).
Proof using Type.
  unfold puts at 1. cbn [foldl].
  destruct (put env op snap now checksum data) as [snap1 out]. cbn [fst snd].
  by rewrite puts_from.
Qed.

(** X18.  The six [Put<Kind>] operations on an open channel.  Over any
    sequence of calls, a call whose data the repository encodes returns
    [nil] and a call whose data it does not returns that error; none
    panics.  The channel stays open and holds, after the messages that were
    pending, one message for each call that returned [nil], in the order of
    the calls, with the type of the operation, the checksum given and the
    encoded data.  The calls touch neither the header, nor the two states,
    nor the packfiles. *)
Theorem Puts_queue_in_call_order calls snap :
  closed (packerChan snap) = false →
  queue (packerChan (puts env calls snap).1)
    = queue (packerChan snap) ++ messages env calls ∧
  closed (packerChan (puts env calls snap).1) = false ∧
  Forall2 (λ call out,
             out = match repository_Encode env call.2 with
                   | inl err => Returned (Some err)
                   | inr _ => Returned None
                   end)
          calls (puts env calls snap).2 ∧
  Header_ (puts env calls snap).1 = Header_ snap ∧
  repositoryState (world (puts env calls snap).1) = repositoryState (world snap) ∧
  stateDelta (world (puts env calls snap).1) = stateDelta (world snap) ∧
  written (world (puts env calls snap).1) = written (world snap).
Proof using Type.
  revert snap. induction calls as [|[[[op now] checksum] data] calls IH]; intros snap Hc.
  - cbn. rewrite app_nil_r. repeat split; try done.
  - rewrite puts_cons. cbn [fst snd].
    destruct (put_open op snap now checksum data Hc) as (Ho & Hq & Hc1 & Hh & Hr & Hd & Hw).
    destruct (IH _ Hc1) as (Hq' & Hc' & Ho' & Hh' & Hr' & Hd' & Hw').
    split.
    { rewrite Hq', Hq, <- (assoc_L (++)). f_equal. unfold messages. cbn.
      by destruct (repository_Encode env data). }
    split; [done|]. split; [by constructor|].
    split; [congruence|]. split; [congruence|]. split; congruence.
Qed.

End SessionOpsFacts.



Lemma zero_padding_is_skipped_witness :
  PutPackfile exEnv (exSnapshot false) exPack3 (listOf {[8]} [8]) (listOf {[9]} [9])
              (listOf {[6]} [6]) (listOf ∅ []) (listOf ∅ []) (listOf ∅ [])
  = PutPackfile exEnv (exSnapshot false) exPack3 [8] [9] [6] [] [] [].
Proof.
  apply (zero_padding_is_skipped exEnv (exSnapshot false) exPack3
           {[8]} {[9]} {[6]} ∅ ∅ ∅ [8] [9] [6] [] [] []).
  reflexivity.
Defined.

Lemma files_are_registered_as_objects_witness :
  (CheckObject (PutPackfile exEnv (exSnapshot false) exPack3 [8] [9] [6] [] [] []).1 6).2
    = true ∧
  (LookupObject (λ msg, msg) exGetPackfileBlob (λ buffer, inr buffer)
                (PutPackfile exEnv (exSnapshot false) exPack3 [8] [9] [6] [] [] []).1 6).2
    = inr [x64; x00; x00].
Proof.
  destruct (files_are_registered_as_objects exEnv (λ msg, msg) exGetPackfileBlob
              (λ buffer, inr buffer)
              (exSnapshot false) exPack3 [8] [9] [6] []
              (PutPackfile exEnv (exSnapshot false) exPack3 [8] [9] [6] [] [] []).1)
    as (key & bytes & Hw & Hc).
  - apply wf_New.
  - reflexivity.
  - reflexivity.
  - reflexivity.
  - split.
    + etrans; [exact (proj1 (proj2 (Hc 6)))|reflexivity].
    + vm_compute. reflexivity.
Defined.


Lemma Commit_sends_header_last_then_writes_delta_witness :
  ∃ body,
    writtenStates (world (Commit exEnv (exSnapshot false) 7).1)
      = [(copy32 (repository_Checksum exEnv (body ++ PutUint32 100)),
          body ++ PutUint32 100)].
Proof.
  destruct (Commit_sends_header_last_then_writes_delta exEnv (exSnapshot false) 7
              (Commit exEnv (exSnapshot false) 7).1)
    as (hdr & encoded & w & body & _ & _ & _ & Hp & _ & _ & ->).
  - reflexivity.
  - exists body. injection Hp as <-. reflexivity.
Defined.

Lemma Commit_cannot_be_repeated_witness :
  (Commit exEnv (Commit exEnv (exSnapshot false) 7).1 8).2
    = Panicked "send on closed channel".
Proof.
  destruct (Commit_cannot_be_repeated exEnv (exSnapshot false) 7
              (Commit exEnv (exSnapshot false) 7).1 (Returned None)) as [_ H].
  - reflexivity.
  - destruct (H eq_refl 8%Z) as [-> _]. reflexivity.
Defined.

Lemma Puts_queue_in_call_order_witness :
  queue (packerChan (puts exEnv [(OpChunk, 1%Z, 9, [x01]); (OpFile, 2%Z, 6, [x02])]
                          (exSnapshot false)).1)
    = [mkPackerMsg 1 Packfile.TYPE_CHUNK 9 [x2a; x01];
       mkPackerMsg 2 Packfile.TYPE_FILE 6 [x2a; x02]].
Proof.
  exact (proj1 (Puts_queue_in_call_order exEnv
                  [(OpChunk, 1%Z, 9, [x01]); (OpFile, 2%Z, 6, [x02])]
                  (exSnapshot false) eq_refl)).
Defined.

End SnapshotOpsFacts.

(** * Further properties of the VFS file entry *)

Module VfsOpsFacts.
Import Vfs VfsSpec VfsOps.

Lemma non_nil_eq {A} (a b : option (list A)) :
  default [] a = default [] b →
  match a with None => Some [] | Some l => Some l end
  = match b with None => Some [] | Some l => Some l end.
Proof. destruct a, b; cbn; congruence. Qed.

Lemma non_nil_default {A} (a : option (list A)) :
  default [] (match a with None => Some [] | Some l => Some l end) = default [] a.
Proof. by destruct a. Qed.

Section AccessorsFacts.
Context {RecordType FileInfo AlternateDataStream CustomMetadataT
         ObjectsCustomMetadata ObjectRest error : Type}.
Variable Unmarshal :
  list byte →
  error + FileEntry RecordType FileInfo AlternateDataStream CustomMetadataT
                    ObjectsCustomMetadata ObjectRest.

(** X19.  [FileEntryFromBytes] changes nothing of what was decoded but nil
    collections.  The entry it returns is the decoded one up to
    collections that were nil and are empty now, with the same content
    type; an error of the decoder is returned as it is.  Two inputs that
    decode to entries that differ at most in nil against empty collections
    yield the same entry, and an input that decodes to an entry
    [FileEntryFromBytes] returned yields that entry again. *)
Theorem FileEntryFromBytes_changes_only_nil_collections :
  (∀ serialized err,
     Unmarshal serialized = inl err → FileEntryFromBytes Unmarshal serialized = inl err) ∧
  (∀ serialized f0,
     Unmarshal serialized = inr f0 →
     ∃ f, FileEntryFromBytes Unmarshal serialized = inr f ∧
          same_up_to_nil f0 f ∧ ContentType f = ContentType f0) ∧
  (∀ serialized1 serialized2 f1 f2,
     Unmarshal serialized1 = inr f1 → Unmarshal serialized2 = inr f2 →
     same_up_to_nil f1 f2 →
     FileEntryFromBytes Unmarshal serialized1 = FileEntryFromBytes Unmarshal serialized2) ∧
  (∀ serialized1 serialized2 f,
     FileEntryFromBytes Unmarshal serialized1 = inr f →
     Unmarshal serialized2 = inr f →
     FileEntryFromBytes Unmarshal serialized2 = inr f).
Proof using Type.
  assert (∀ serialized1 serialized2 f1 f2,
     Unmarshal serialized1 = inr f1 → Unmarshal serialized2 = inr f2 →
     same_up_to_nil f1 f2 →
     FileEntryFromBytes Unmarshal serialized1 = FileEntryFromBytes Unmarshal serialized2)
    as Hsame.
  { intros s1 s2 f1 f2 H1 H2 (Hv & Hp & Ht & Hi & Hs & Ha & E1 & E2 & E3 & E4 & E5 & Ho).
    unfold FileEntryFromBytes. rewrite H1, H2. cbn zeta.
    rewrite Hv, Hp, Ht, Hi, Hs, Ha.
    rewrite (non_nil_eq _ _ E1), (non_nil_eq _ _ E2), (non_nil_eq _ _ E3),
            (non_nil_eq _ _ E4), (non_nil_eq _ _ E5).
    do 2 f_equal.
    destruct (Object f1) as [o1|], (Object f2) as [o2|]; try done.
    destruct Ho as (O1 & O2 & O3 & O4).
    by rewrite (non_nil_eq _ _ O1), (non_nil_eq _ _ O2), O3, O4. }
  assert (∀ serialized f0,
     Unmarshal serialized = inr f0 →
     ∃ f, FileEntryFromBytes Unmarshal serialized = inr f ∧
          same_up_to_nil f0 f ∧ ContentType f = ContentType f0) as Hnorm.
  { intros s f0 H0. unfold FileEntryFromBytes. rewrite H0. cbn zeta.
    eexists. split; [done|]. split.
    - unfold same_up_to_nil. cbn. rewrite !non_nil_default.
      do 11 (split; [done|]).
      destruct (Object f0) as [o0|]; [|done].
      unfold same_object_up_to_nil. cbn. by rewrite !non_nil_default.
    - unfold ContentType. cbn. by destruct (Object f0). }
  split.
  { intros s err H. unfold FileEntryFromBytes. by rewrite H. }
  split; [exact Hnorm|]. split; [exact Hsame|].
  intros s1 s2 f H1 H2.
  destruct (Unmarshal s1) as [err|f0] eqn:H0.
  { unfold FileEntryFromBytes in H1. by rewrite H0 in H1. }
  destruct (Hnorm s1 f0 H0) as (f' & Hf' & Hs & _).
  rewrite H1 in Hf'. injection Hf' as <-.
  by rewrite <- (Hsame s1 s2 f0 f H0 H2 Hs).
Qed.

End AccessorsFacts.

Lemma FileEntryFromBytes_changes_only_nil_collections_witness :
  FileEntryFromBytes exUnmarshal2 [x80] = FileEntryFromBytes exUnmarshal2 [x80; x80] ∧
  ∃ f, FileEntryFromBytes exUnmarshal2 [x80] = inr f ∧ ContentType f = "text/plain"%string.
Proof.
  destruct (FileEntryFromBytes_changes_only_nil_collections exUnmarshal2)
    as (_ & Hnorm & Hsame & _).
  split.
  - eapply Hsame; [reflexivity|reflexivity|]. by repeat split.
  - destruct (Hnorm [x80] _ eq_refl) as (f & Hf & _ & Hc). by exists f.
Defined.

End VfsOpsFacts.
